(** * NanoClaw core: container pool, IPC bridge, task store

    A shallow embedding of three source files of the repository

      - [src/container-pool.ts]               (module [Pool])
      - [container/agent-runner/src/ipc-mcp.ts] (module [Ipc])
      - [src/db.ts]                           (modules [Db], [Chats], [Messages])

    and of the compaction cycle that calls into the last (module
    [Compaction]),

    together with the properties the specification states about them.
    Mutable JavaScript state (the module-level [pool] map, the objects it
    references, the file system, the SQLite tables) is threaded explicitly.
    Logging calls are dropped: they do not influence any state modelled here. *)

From Stdlib Require Import ZArith Ascii String List.
From stdpp Require Import gmap strings pretty list fin_maps sorting.
From Equations Require Import Equations.

Local Open Scope string_scope.
Local Open Scope list_scope.

(* ===================================================================== *)
(** * Container pool ([src/container-pool.ts])                           *)
(* ===================================================================== *)

Module Pool.

(** Signals a child process can be sent.  The source only ever sends
    [SIGTERM]; [SIGKILL] is listed so that its absence can be stated. *)
Inductive Signal := SIGTERM | SIGKILL.

#[global] Instance Signal_eq_dec : EqDecision Signal.
Proof. solve_decision. Defined.

(** The [ChildProcess] object returned by [spawn].  [listenerEnv] is the
    environment captured by the two closures that [warmContainer] registers
    with [proc.on('close', ...)] and [proc.on('error', ...)]: the group
    folder and the (reference to the) pool entry. *)
Record ChildProcess := mkChildProcess {
  spawnargs   : list string;
  stdinEnded  : bool;
  signals     : list Signal;
  listenerEnv : string * nat;
}.

(** [interface WarmEntry].  [process] is a process id (an index into the
    world's process table), [idleTimer] the id of a pending timeout. *)
Record WarmEntry := mkWarmEntry {
  process   : nat;
  createdAt : Z;
  idleTimer : option nat;
  dead      : bool;
}.

(** The part of the host process state the pool touches.

    - [pool] is the module-level [Map<string, WarmEntry>]; its values are
      references, so that [pool.get(g) === entry] is reference equality and
      [entry.dead = true] is visible through every alias;
    - [heap] holds the [WarmEntry] objects, indexed by reference;
    - [procs] is the table of child processes spawned so far, indexed by pid;
    - [timers] are the pending [setTimeout] callbacks; every callback the
      pool installs is [() => evict(groupFolder)], so a timer is represented
      by the group folder it closes over;
    - [nextTimer] is the id the next [setTimeout] returns. *)
Record World := mkWorld {
  pool      : gmap string nat;
  heap      : list WarmEntry;
  procs     : list ChildProcess;
  timers    : gmap nat string;
  nextTimer : nat;
}.

Definition emptyWorld : World := mkWorld ∅ [] [] ∅ 0.

Definition set_pool (f : gmap string nat → gmap string nat) (w : World) : World :=
  mkWorld (f (pool w)) (heap w) (procs w) (timers w) (nextTimer w).
Definition set_heap (f : list WarmEntry → list WarmEntry) (w : World) : World :=
  mkWorld (pool w) (f (heap w)) (procs w) (timers w) (nextTimer w).
Definition set_procs (f : list ChildProcess → list ChildProcess) (w : World) : World :=
  mkWorld (pool w) (heap w) (f (procs w)) (timers w) (nextTimer w).
Definition set_timers (f : gmap nat string → gmap nat string) (w : World) : World :=
  mkWorld (pool w) (heap w) (procs w) (f (timers w)) (nextTimer w).

(** ** Primitives of the JavaScript runtime *)

(** [pool.get(groupFolder)]: the reference and the object it denotes.  The
    pool never holds a reference the heap lacks (see [wired] below); the
    [None] of the inner match only makes the lookup total. *)
Definition pool_get (groupFolder : string) (w : World) : option (nat * WarmEntry) :=
  match pool w !! groupFolder with
  | Some r => match heap w !! r with
              | Some entry => Some (r, entry)
              | None => None
              end
  | None => None
  end.

(** [pool.has(groupFolder)] *)
Definition pool_has (groupFolder : string) (w : World) : bool :=
  bool_decide (is_Some (pool w !! groupFolder)).

(** [pool.delete(groupFolder)] *)
Definition pool_delete (groupFolder : string) (w : World) : World :=
  set_pool (delete groupFolder) w.

(** [pool.get(groupFolder) === entry] *)
Definition pool_holds (groupFolder : string) (r : nat) (w : World) : bool :=
  bool_decide (pool w !! groupFolder = Some r).

(** [if (entry.idleTimer) clearTimeout(entry.idleTimer)] *)
Definition clearIdleTimer (entry : WarmEntry) (w : World) : World :=
  match idleTimer entry with
  | Some t => set_timers (delete t) w
  | None => w
  end.

(** [entry.process.stdin?.end()]: the process was spawned with piped stdio,
    so [stdin] is present. *)
Definition stdin_end (pid : nat) (w : World) : World :=
  set_procs (alter (λ p, mkChildProcess (spawnargs p) true (signals p) (listenerEnv p)) pid) w.

(** [entry.process.kill(sig)] *)
Definition kill (pid : nat) (sig : Signal) (w : World) : World :=
  set_procs (alter (λ p, mkChildProcess (spawnargs p) (stdinEnded p) (signals p ++ [sig])
                                        (listenerEnv p)) pid) w.

(** ** The exported operations *)

Section WithConfig.

(** [CONTAINER_POOL_MAX_IDLE], imported from [config.js] (milliseconds). *)
Variable CONTAINER_POOL_MAX_IDLE : Z.

(** [acquireWarmContainer(groupFolder)]: the process or [null]. *)
Definition acquireWarmContainer (groupFolder : string) (w : World) : option nat * World :=
  match pool_get groupFolder w with
  | None =>
      (* [!entry]: nothing to delete *)
      (None, w)
  | Some (_, entry) =>
      if dead entry then (None, pool_delete groupFolder w)
      else
        let w := clearIdleTimer entry w in
        let w := pool_delete groupFolder w in
        (Some (process entry), w)
  end.

(** [warmContainer(groupFolder, containerArgs)]; [now] is [Date.now()]. *)
Definition warmContainer (groupFolder : string) (containerArgs : list string)
    (now : Z) (w : World) : World :=
  if pool_has groupFolder w then w
  else
    let pid := length (procs w) in
    let r := length (heap w) in
    let proc := mkChildProcess containerArgs false [] (groupFolder, r) in
    let armed := bool_decide (0 < CONTAINER_POOL_MAX_IDLE)%Z in
    let entry := mkWarmEntry pid now
                   (if armed then Some (nextTimer w) else None) false in
    mkWorld (<[groupFolder := r]> (pool w))
            (heap w ++ [entry])
            (procs w ++ [proc])
            (if armed then <[nextTimer w := groupFolder]> (timers w) else timers w)
            (if armed then S (nextTimer w) else nextTimer w).

(** [evict(groupFolder)] *)
Definition evict (groupFolder : string) (w : World) : World :=
  match pool_get groupFolder w with
  | None => w
  | Some (_, entry) =>
      let w := clearIdleTimer entry w in
      let w := pool_delete groupFolder w in
      if dead entry then w
      else
        let w := stdin_end (process entry) w in
        kill (process entry) SIGTERM w
  end.

(** [shutdownPool()]: [for (const folder of [...pool.keys()]) evict(folder)].
    The keys are taken in the order of the finite map, not in the order of
    insertion that a JavaScript [Map] keeps. *)
Definition shutdownPool (w : World) : World :=
  foldl (λ w folder, evict folder w) w (map fst (map_to_list (pool w))).

(** ** Events delivered by the runtime *)

(** The ['close'] listener of process [pid]. *)
Definition on_close (pid : nat) (w : World) : World :=
  match procs w !! pid with
  | None => w
  | Some p =>
      let '(groupFolder, r) := listenerEnv p in
      if pool_holds groupFolder r w then pool_delete groupFolder w else w
  end.

(** The ['error'] listener of process [pid]. *)
Definition on_error (pid : nat) (w : World) : World :=
  match procs w !! pid with
  | None => w
  | Some p =>
      let '(groupFolder, r) := listenerEnv p in
      let w := set_heap (alter (λ e, mkWarmEntry (process e) (createdAt e) (idleTimer e) true) r) w in
      if pool_holds groupFolder r w then pool_delete groupFolder w else w
  end.

(** Expiry of pending timer [t]: the runtime drops it from the pending set
    and runs its callback [() => evict(groupFolder)]. *)
Definition fire_timer (t : nat) (w : World) : World :=
  match timers w !! t with
  | None => w
  | Some groupFolder => evict groupFolder (set_timers (delete t) w)
  end.

(** Processes spawned on behalf of a group: those whose listeners close
    over that group folder. *)
Definition spawned_for (groupFolder : string) (w : World) : list ChildProcess :=
  filter (λ p, (listenerEnv p).1 = groupFolder) (procs w).

(** ** Notions used to state the properties *)

(** The wiring invariant: every entry the pool holds exists, is not flagged
    dead, and belongs to a process whose listeners close over exactly that
    group and that entry; every process was spawned for one entry. *)
Record wired (w : World) : Prop := mkWired {
  wired_pool : ∀ g r, pool w !! g = Some r →
    ∃ e p, heap w !! r = Some e ∧ dead e = false ∧
           procs w !! process e = Some p ∧ listenerEnv p = (g, r);
  wired_procs : ∀ pid p, procs w !! pid = Some p →
    ∃ e, heap w !! (listenerEnv p).2 = Some e ∧ process e = pid;
}.

(** What eviction does to the evicted process: it closes its standard input
    and appends one [SIGTERM] to the signals it was sent. *)
Definition terminated (p : ChildProcess) : ChildProcess :=
  mkChildProcess (spawnargs p) true (signals p ++ [SIGTERM]) (listenerEnv p).

(** Every signal sent so far is [SIGTERM]. *)
Definition only_SIGTERM (w : World) : Prop :=
  ∀ pid p, procs w !! pid = Some p → Forall (λ s, s = SIGTERM) (signals p).

(** ** Runs of the pool *)

(** What can happen to the pool: calls of the exported functions and events
    delivered by the runtime. *)
Inductive Event :=
  | EvWarm (groupFolder : string) (containerArgs : list string) (now : Z)
  | EvAcquire (groupFolder : string)
  | EvShutdown
  | EvTimer (t : nat)
  | EvClose (pid : nat)
  | EvError (pid : nat).

Definition apply_event (ev : Event) (w : World) : World :=
  match ev with
  | EvWarm g args now => warmContainer g args now w
  | EvAcquire g => (acquireWarmContainer g w).2
  | EvShutdown => shutdownPool w
  | EvTimer t => fire_timer t w
  | EvClose pid => on_close pid w
  | EvError pid => on_error pid w
  end.

(** Worlds the host process can be in: it starts with an empty pool. *)
Inductive reachable : World → Prop :=
  | reachable_init : reachable emptyWorld
  | reachable_step w ev : reachable w → reachable (apply_event ev w).

(** Process [pid] and entry [r] are out of the pool's hands: both exist, no
    key of the pool holds [r], and no entry the pool holds runs [pid]. *)
Definition released (pid r : nat) (w : World) : Prop :=
  pid < length (procs w) ∧ r < length (heap w)
  ∧ (∀ g, pool w !! g ≠ Some r)
  ∧ (∀ g r' e, pool w !! g = Some r' → heap w !! r' = Some e → process e ≠ pid).

(** Every pending timer was handed out by an earlier [setTimeout]. *)
Definition timers_fresh (w : World) : Prop :=
  ∀ t g, timers w !! t = Some g → t < nextTimer w.

(** Every slot in the pool has its eviction pending when an idle limit is
    configured, and carries no timer otherwise. *)
Definition eviction_pending (w : World) : Prop :=
  ∀ g r e, pool w !! g = Some r → heap w !! r = Some e →
    if bool_decide (0 < CONTAINER_POOL_MAX_IDLE)%Z
    then ∃ t, idleTimer e = Some t ∧ timers w !! t = Some g
    else idleTimer e = None.

(** The reading of "escalates to a forceful signal" used to test the
    specification: after some further events, process [pid] has been sent
    [SIGKILL]. *)
Definition escalates_to_SIGKILL (w : World) (pid : nat) : Prop :=
  ∃ evs p, procs (foldl (λ w ev, apply_event ev w) w evs) !! pid = Some p
           ∧ SIGKILL ∈ signals p.

End WithConfig.

(** ** Sample worlds

    One group, warmed once from the empty pool with an idle limit of 30
    minutes, so that the entry carries a pending timer. *)
Definition sampleArgs : list string := ["run"; "-i"; "--rm"; "nanoclaw-agent:latest"].
Definition sampleIdle : Z := 1800000.
Definition sampleWorld : World := warmContainer sampleIdle "main" sampleArgs 1000 emptyWorld.
Definition sampleEntry : WarmEntry := mkWarmEntry 0 1000 (Some 0) false.
Definition sampleProc : ChildProcess := mkChildProcess sampleArgs false [] ("main", 0).

(** A run in which the process of the first slot exits on its own and the
    group is warmed again: the first slot's timer (id 0) is still pending
    beside the second slot's (id 1). *)
Definition sampleRewarmed : World :=
  warmContainer sampleIdle "main" sampleArgs 2000 (on_close 0 sampleWorld).

(** Two groups warmed one after the other. *)
Definition sampleTwoGroups : World :=
  warmContainer sampleIdle "family" sampleArgs 3000 sampleWorld.

(** The same pool with its entry flagged dead.  No run of the pool leaves
    such an entry behind (the ['error'] listener removes it at once), but
    [acquireWarmContainer] and [evict] test the flag all the same. *)
Definition sampleDeadWorld : World :=
  set_heap (alter (λ e, mkWarmEntry (process e) (createdAt e) (idleTimer e) true) 0) sampleWorld.

End Pool.

(* ===================================================================== *)
(** * IPC tools of the agent ([container/agent-runner/src/ipc-mcp.ts])   *)
(* ===================================================================== *)

Module Ipc.

(** ** JavaScript values and builtins *)

#[local] Set Warnings "-register-all".

(** JSON values: what the tools hand to [JSON.stringify] and what
    [JSON.parse] gives back.  Numbers are the integers. *)
Inductive json :=
  | JNull
  | JBool (b : bool)
  | JNum (n : Z)
  | JStr (s : string)
  | JArr (items : list json)
  | JObj (fields : list (string * json)).

(** [obj.key] on a parsed value *)
Definition json_field (key : string) (v : json) : option json :=
  match v with
  | JObj fields => snd <$> head (filter (λ kv, kv.1 = key) fields)
  | _ => None
  end.

Definition newline : string := String (ascii_of_nat 10) "".

Definition hex_digit (n : nat) : ascii :=
  ascii_of_nat (if (n <? 10)%nat then 48 + n else 87 + n).

(** One character of a string inside [JSON.stringify]: quote, backslash and
    the control characters are escaped, everything else is copied. *)
Definition json_escape_char (c : ascii) : string :=
  let n := nat_of_ascii c in
  if (n =? 34)%nat then "\" +:+ String c ""
  else if (n =? 92)%nat then "\\"
  else if (n =? 8)%nat then "\b"
  else if (n =? 12)%nat then "\f"
  else if (n =? 10)%nat then "\n"
  else if (n =? 13)%nat then "\r"
  else if (n =? 9)%nat then "\t"
  else if (n <? 32)%nat then "\u00" +:+ String (hex_digit (n / 16)) (String (hex_digit (n mod 16)) "")
  else String c "".

Fixpoint json_escape (s : string) : string :=
  match s with
  | EmptyString => ""
  | String c s => json_escape_char c +:+ json_escape s
  end.

Definition json_quote (s : string) : string :=
  String (ascii_of_nat 34) (json_escape s) +:+ String (ascii_of_nat 34) "".

Fixpoint spaces (n : nat) : string :=
  match n with 0 => "" | S n => String " " (spaces n) end.

Fixpoint join_lines (lines : list string) : string :=
  match lines with
  | [] => ""
  | [l] => l
  | l :: ls => l +:+ "," +:+ newline +:+ join_lines ls
  end.

(** [JSON.stringify(v, null, 2)] at nesting depth [indent] (in spaces). *)
Fixpoint stringify_at (indent : nat) (v : json) : string :=
  match v with
  | JNull => "null"
  | JBool true => "true"
  | JBool false => "false"
  | JNum n => pretty n
  | JStr s => json_quote s
  | JArr [] => "[]"
  | JArr items =>
      "[" +:+ newline
      +:+ join_lines (map (λ item, spaces (indent + 2) +:+ stringify_at (indent + 2) item) items)
      +:+ newline +:+ spaces indent +:+ "]"
  | JObj [] => "{}"
  | JObj fields =>
      "{" +:+ newline
      +:+ join_lines (map (λ kv, spaces (indent + 2) +:+ json_quote (fst kv) +:+ ": "
                                +:+ stringify_at (indent + 2) (snd kv)) fields)
      +:+ newline +:+ spaces indent +:+ "}"
  end.

Definition JSON_stringify (v : json) : string := stringify_at 0 v.

(** White space [parseInt] skips (the ASCII part of [StrWhiteSpaceChar]). *)
Definition is_space (c : ascii) : bool :=
  let n := nat_of_ascii c in
  ((n =? 9) || (n =? 10) || (n =? 11) || (n =? 12) || (n =? 13) || (n =? 32))%nat.

Definition digit_value (c : ascii) : option Z :=
  let n := nat_of_ascii c in
  if ((48 <=? n) && (n <=? 57))%nat then Some (Z.of_nat (n - 48)) else None.

Fixpoint skip_spaces (s : string) : string :=
  match s with
  | String c s' => if is_space c then skip_spaces s' else s
  | EmptyString => s
  end.

(** The value of the longest prefix of decimal digits, continuing from the
    digits read so far: [None] when no digit was read at all. *)
Fixpoint read_digits (acc : option Z) (s : string) : option Z :=
  match s with
  | String c s' =>
      match digit_value c with
      | Some d => read_digits (Some (10 * default 0%Z acc + d)%Z) s'
      | None => acc
      end
  | EmptyString => acc
  end.

(** [parseInt(s, 10)]; [None] is [NaN].  Leading white space is skipped, one
    sign is accepted, then the longest run of digits is read and whatever
    follows it is ignored.  The result is the exact integer; the handler
    below only asks whether it is [NaN] or [<= 0], which rounding to a double
    does not change. *)
Definition parseInt (s : string) : option Z :=
  match skip_spaces s with
  | String "-" rest => Z.opp <$> read_digits None rest
  | String "+" rest => read_digits None rest
  | rest => read_digits None rest
  end.

(** ** The file system and the effects of the [fs] calls *)

(** Files by path with their content, and the directories created. *)
Record FS := mkFS {
  files : gmap string string;
  dirs  : gset string;
}.

Definition set_files (f : gmap string string → gmap string string) (fs : FS) : FS :=
  mkFS (f (files fs)) (dirs fs).

(** A call either returns or throws. *)
Inductive Outcome (A : Type) :=
  | Ok (a : A)
  | Throw (err : string).
Arguments Ok {A} a.
Arguments Throw {A} err.

(** What running a piece of code against a file system gives: how it ended,
    the file system it left, and every state the file system went through on
    the way, in order.  These are the states another process reading the same
    directory may see. *)
Record Run (A : Type) := mkRun {
  outcome : Outcome A;
  final   : FS;
  seen    : list FS;
}.
Arguments mkRun {A} outcome final seen.
Arguments outcome {A} r.
Arguments final {A} r.
Arguments seen {A} r.

Definition Fs (A : Type) : Type := FS → Run A.

Definition ret {A} (a : A) : Fs A := λ fs, mkRun (Ok a) fs [].

Definition bind {A B} (m : Fs A) (k : A → Fs B) : Fs B := λ fs,
  let r := m fs in
  match outcome r with
  | Ok a => let r' := k a (final r) in
            mkRun (outcome r') (final r') (seen r ++ seen r')
  | Throw err => mkRun (Throw err) (final r) (seen r)
  end.

(** [try { m } catch (err) { handler }] *)
Definition try_catch {A} (m : Fs A) (handler : string → Fs A) : Fs A := λ fs,
  let r := m fs in
  match outcome r with
  | Ok a => r
  | Throw err => let r' := handler err (final r) in
                 mkRun (outcome r') (final r') (seen r ++ seen r')
  end.

Declare Scope fs_scope.
Delimit Scope fs_scope with fs.
Notation "x <- m ;; k" := (bind m (λ x, k))
  (at level 100, m at next level, right associativity) : fs_scope.
Notation "m ;; k" := (bind m (λ _, k))
  (at level 100, right associativity) : fs_scope.
Local Open Scope fs_scope.

(** The error a call on a missing path throws; only its being thrown matters
    below, the text stands for Node's message. *)
Definition ENOENT (path : string) : string :=
  "Error: ENOENT: no such file or directory, '" +:+ path +:+ "'".

(** [fs.existsSync(path)] *)
Definition existsSync (path : string) : Fs bool := λ fs,
  mkRun (Ok (bool_decide (is_Some (files fs !! path)))) fs [].

(** [fs.readFileSync(path, 'utf-8')] *)
Definition readFileSync (path : string) : Fs string := λ fs,
  match files fs !! path with
  | Some content => mkRun (Ok content) fs []
  | None => mkRun (Throw (ENOENT path)) fs []
  end.

(** [fs.unlinkSync(path)] *)
Definition unlinkSync (path : string) : Fs unit := λ fs,
  match files fs !! path with
  | Some _ => let fs' := set_files (delete path) fs in mkRun (Ok tt) fs' [fs']
  | None => mkRun (Throw (ENOENT path)) fs []
  end.

(** [fs.mkdirSync(dir, { recursive: true })]: no error when the directory
    exists.  Parent directories are not tracked. *)
Definition mkdirSync (dir : string) : Fs unit := λ fs,
  let fs' := mkFS (files fs) ({[dir]} ∪ dirs fs) in mkRun (Ok tt) fs' [fs'].

(** [fs.writeFileSync(path, content)]: the file is created or truncated and
    the content arrives piece by piece, so on the way the file may be seen
    holding any proper prefix of the content. *)
Definition writeFileSync (path content : string) : Fs unit := λ fs,
  let partial := (λ k, set_files (<[path := substring 0 k content]>) fs)
                   <$> seq 0 (String.length content) in
  let fs' := set_files (<[path := content]>) fs in
  mkRun (Ok tt) fs' (partial ++ [fs']).

(** [fs.renameSync(oldPath, newPath)]: one step; the new path holds the old
    file's content at once. *)
Definition renameSync (oldPath newPath : string) : Fs unit := λ fs,
  match files fs !! oldPath with
  | Some content =>
      let fs' := set_files (λ m, <[newPath := content]> (delete oldPath m)) fs in
      mkRun (Ok tt) fs' [fs']
  | None => mkRun (Throw (ENOENT oldPath)) fs []
  end.

(** [path.join(dir, name)] for a directory without trailing slash and a
    plain file name, as in every use below. *)
Definition path_join (dir name : string) : string := dir +:+ "/" +:+ name.

Definition IPC_DIR : string := "/workspace/ipc".
Definition MESSAGES_DIR : string := path_join IPC_DIR "messages".
Definition TASKS_DIR : string := path_join IPC_DIR "tasks".
Definition EMAIL_RESULTS_DIR : string := path_join IPC_DIR "email_results".

(** The last character of a path. *)
Fixpoint last_char (s : string) : option ascii :=
  match s with
  | EmptyString => None
  | String c EmptyString => Some c
  | String _ rest => last_char rest
  end.

(** ** writeIpcFile *)

(** The file name [writeIpcFile] picks; [nowMs] is [Date.now()] and [rnd]
    is [Math.random().toString(36).slice(2, 8)]. *)
Definition ipc_filename (nowMs : Z) (rnd : string) : string :=
  pretty nowMs +:+ "-" +:+ rnd +:+ ".json".

(** [writeIpcFile(dir, data)] *)
Definition writeIpcFile (dir : string) (data : json) (nowMs : Z) (rnd : string) : Fs string :=
  mkdirSync dir ;;
  let filename := ipc_filename nowMs rnd in
  let filepath := path_join dir filename in
  (* Atomic write: temp file then rename *)
  let tempPath := filepath +:+ ".tmp" in
  writeFileSync tempPath (JSON_stringify data) ;;
  renameSync tempPath filepath ;;
  ret filename.

(** ** waitForEmailResult *)

Section Wait.

(** [JSON.parse]: the value, or the [SyntaxError] it throws (as [`${err}`]
    renders it). *)
Variable JSON_parse : string → Outcome json.

(** What the rest of the world (the host process answering requests) does to
    the shared directory while the agent sleeps: [host t] is its effect during
    the sleep that starts [t] milliseconds into the wait. *)
Variable host : Z → FS → FS.

(** [await new Promise((resolve) => setTimeout(resolve, pollInterval))] *)
Definition sleep (elapsed : Z) : Fs unit := λ fs,
  let fs' := host elapsed fs in mkRun (Ok tt) fs' [fs'].

Definition parse (text : string) : Fs json := λ fs, mkRun (JSON_parse text) fs [].

Definition pollInterval : Z := 500.

(** [{ success: false, error }] *)
Definition failure (error : string) : json :=
  JObj [("success", JBool false); ("error", JStr error)].

(** The body of the [if (fs.existsSync(resultFile))] branch. *)
Definition consumeResult (resultFile : string) : Fs json :=
  try_catch
    (text <- readFileSync resultFile ;;
     result <- parse text ;;
     unlinkSync resultFile ;;
     ret result)
    (λ err, ret (failure ("Failed to read result: " +:+ err))).

(** The [while (elapsed < maxWait)] loop and the [return] after it. *)
Equations? waitLoop (resultFile : string) (maxWait elapsed : Z) : Fs json
    by wf (Z.to_nat (maxWait - elapsed)) lt :=
  waitLoop resultFile maxWait elapsed with decide (elapsed < maxWait)%Z => {
    | left _ =>
        found <- existsSync resultFile ;;
        if found : bool then consumeResult resultFile
        else (sleep elapsed ;;
              waitLoop resultFile maxWait (elapsed + pollInterval)%Z)
    | right _ => ret (failure "Request timed out") }.
Proof. unfold pollInterval. lia. Qed.

(** The number of polls a wait of [budget] milliseconds makes when it never
    finds the file: one every [pollInterval], the first at once. *)
Definition polls (budget : Z) : nat := Z.to_nat ((budget + 499) / 500).

(** [waitForEmailResult(requestId, maxWait = 30000)] *)
Definition waitForEmailResult (requestId : string) (maxWait : Z) : Fs json :=
  let resultFile := path_join EMAIL_RESULTS_DIR (requestId +:+ ".json") in
  waitLoop resultFile maxWait 0.

(** The file system at the [n]-th test of [existsSync] of a wait that began
    at [elapsed] with file system [fs], when the earlier tests found nothing:
    the host has acted during each of the [n] sleeps in between. *)
Fixpoint poll_state (elapsed : Z) (fs : FS) (n : nat) : FS :=
  match n with
  | 0 => fs
  | S n => poll_state (elapsed + pollInterval) (host elapsed fs) n
  end.

End Wait.

(** ** The [schedule_task] tool *)

Inductive TriggerSource := TriggerUser | TriggerEmail | TriggerScheduledTask.

(** [interface IpcMcpContext] *)
Record IpcMcpContext := mkIpcMcpContext {
  chatJid       : string;
  groupFolder   : string;
  isMain        : bool;
  triggerSource : TriggerSource;
  emailEnabled  : bool;
}.

(** [z.enum(['cron', 'interval', 'once'])] *)
Inductive ScheduleType := Cron | Interval | Once.

(** [z.enum(['group', 'isolated']).default('group')] *)
Inductive ContextMode := Group | Isolated.

(** The arguments of [schedule_task] as the handler receives them, after the
    schema has been applied. *)
Record ScheduleTaskArgs := mkScheduleTaskArgs {
  prompt         : string;
  schedule_type  : ScheduleType;
  schedule_value : string;
  context_mode   : ContextMode;
  target_group   : option string;
}.

(** What a tool handler returns: the text of its single content item, and
    the [isError] flag (absent is [false]). *)
Record ToolResult := mkToolResult {
  text    : string;
  isError : bool;
}.

Definition schedule_type_name (t : ScheduleType) : string :=
  match t with Cron => "cron" | Interval => "interval" | Once => "once" end.

(** [args.context_mode || 'group']: both names are non-empty, so the
    default never applies. *)
Definition context_mode_name (m : ContextMode) : string :=
  match m with Group => "group" | Isolated => "isolated" end.

Definition dq : string := String (ascii_of_nat 34) "".

Section Tools.

(** [CronExpressionParser.parse(value)] returns rather than throws. *)
Variable cron_parses : string → bool.

(** [!isNaN(new Date(value).getTime())] *)
Variable date_valid : string → bool.

(** The validation block at the head of the handler: the error text it
    returns, or [None] when it falls through. *)
Definition schedule_value_error (args : ScheduleTaskArgs) : option string :=
  let value := schedule_value args in
  match schedule_type args with
  | Cron =>
      if cron_parses value then None
      else Some ("Invalid cron: " +:+ dq +:+ value +:+ dq +:+ ". Use format like "
                 +:+ dq +:+ "0 9 * * *" +:+ dq +:+ " (daily 9am) or "
                 +:+ dq +:+ "*/5 * * * *" +:+ dq +:+ " (every 5 min).")
  | Interval =>
      let ms := parseInt value in
      (* [isNaN(ms) || ms <= 0] *)
      if match ms with None => true | Some n => bool_decide (n ≤ 0)%Z end
      then Some ("Invalid interval: " +:+ dq +:+ value +:+ dq
                 +:+ ". Must be positive milliseconds (e.g., "
                 +:+ dq +:+ "300000" +:+ dq +:+ " for 5 min).")
      else None
  | Once =>
      if date_valid value then None
      else Some ("Invalid timestamp: " +:+ dq +:+ value +:+ dq
                 +:+ ". Use ISO 8601 format like "
                 +:+ dq +:+ "2026-02-01T15:30:00.000Z" +:+ dq +:+ ".")
  end.

(** [isMain && args.target_group ? args.target_group : groupFolder]:
    an absent or empty [target_group] is falsy. *)
Definition targetGroup (ctx : IpcMcpContext) (args : ScheduleTaskArgs) : string :=
  match target_group args with
  | Some tg => if isMain ctx && negb (String.eqb tg "") then tg else groupFolder ctx
  | None => groupFolder ctx
  end.

(** The [data] object of the handler; [isoNow] is
    [new Date().toISOString()]. *)
Definition schedule_task_data (ctx : IpcMcpContext) (args : ScheduleTaskArgs)
    (isoNow : string) : json :=
  JObj [ ("type", JStr "schedule_task");
         ("prompt", JStr (prompt args));
         ("schedule_type", JStr (schedule_type_name (schedule_type args)));
         ("schedule_value", JStr (schedule_value args));
         ("context_mode", JStr (context_mode_name (context_mode args)));
         ("groupFolder", JStr (targetGroup ctx args));
         ("chatJid", JStr (chatJid ctx));
         ("createdBy", JStr (groupFolder ctx));
         ("timestamp", JStr isoNow) ].

(** The handler of [schedule_task]. *)
Definition schedule_task (ctx : IpcMcpContext) (args : ScheduleTaskArgs)
    (nowMs : Z) (rnd isoNow : string) : Fs ToolResult :=
  match schedule_value_error args with
  | Some message => ret (mkToolResult message true)
  | None =>
      let data := schedule_task_data ctx args isoNow in
      filename <- writeIpcFile TASKS_DIR data nowMs rnd ;;
      ret (mkToolResult
             ("Task scheduled (" +:+ filename +:+ "): "
              +:+ schedule_type_name (schedule_type args) +:+ " - " +:+ schedule_value args)
             false)
  end.

End Tools.

(** ** The [send_message] tool *)

(** One inline keyboard button, [{ text, callback?, url? }]. *)
Record Button := mkButton {
  label    : string;
  callback : option string;
  url      : option string;
}.

(** The arguments of [send_message]: the text and the optional rows of
    buttons. *)
Record SendMessageArgs := mkSendMessageArgs {
  message_text : string;
  buttons      : option (list (list Button));
}.

(** A key of an object literal whose value may be [undefined]: it is left
    out of the JSON text. *)
Definition optional_field (key : string) (value : option string) : list (string * json) :=
  match value with
  | Some v => [(key, JStr v)]
  | None => []
  end.

Definition button_json (b : Button) : json :=
  JObj ([("text", JStr (label b))]
        ++ optional_field "callback" (callback b)
        ++ optional_field "url" (url b)).

Definition buttons_json (rows : list (list Button)) : json :=
  JArr (map (λ row, JArr (map button_json row)) rows).

(** The [data] object of the handler: [buttons] is added only under
    [args.buttons && args.buttons.length > 0]. *)
Definition send_message_data (ctx : IpcMcpContext) (args : SendMessageArgs)
    (isoNow : string) : json :=
  JObj ([ ("type", JStr "message");
          ("chatJid", JStr (chatJid ctx));
          ("text", JStr (message_text args));
          ("groupFolder", JStr (groupFolder ctx));
          ("timestamp", JStr isoNow) ]
        ++ match buttons args with
           | Some rows => if bool_decide (0 < length rows) then [("buttons", buttons_json rows)]
                          else []
           | None => []
           end).

(** The handler of [send_message]; an array is truthy even when empty, so
    the answer mentions the keyboard whenever [args.buttons] is there. *)
Definition send_message (ctx : IpcMcpContext) (args : SendMessageArgs)
    (nowMs : Z) (rnd isoNow : string) : Fs ToolResult :=
  let data := send_message_data ctx args isoNow in
  filename <- writeIpcFile MESSAGES_DIR data nowMs rnd ;;
  ret (mkToolResult
         ("Message queued for delivery (" +:+ filename +:+ ")"
          +:+ match buttons args with Some _ => " with inline keyboard" | None => "" end)
         false).

(** ** The [register_group] tool *)

Record RegisterGroupArgs := mkRegisterGroupArgs {
  reg_jid     : string;
  reg_name    : string;
  reg_folder  : string;
  reg_trigger : string;
}.

Definition register_group_data (args : RegisterGroupArgs) (isoNow : string) : json :=
  JObj [ ("type", JStr "register_group");
         ("jid", JStr (reg_jid args));
         ("name", JStr (reg_name args));
         ("folder", JStr (reg_folder args));
         ("trigger", JStr (reg_trigger args));
         ("timestamp", JStr isoNow) ].

(** The handler of [register_group]. *)
Definition register_group (ctx : IpcMcpContext) (args : RegisterGroupArgs)
    (nowMs : Z) (rnd isoNow : string) : Fs ToolResult :=
  if negb (isMain ctx)
  then ret (mkToolResult "Only the main group can register new groups." true)
  else
    (writeIpcFile TASKS_DIR (register_group_data args isoNow) nowMs rnd ;;
     ret (mkToolResult
            ("Group " +:+ dq +:+ reg_name args +:+ dq
             +:+ " registered. It will start receiving messages immediately.")
            false)).

(** ** The email tools: [list_email_folders] *)

(** [generateRequestId()] *)
Definition generateRequestId (nowMs : Z) (rnd : string) : string :=
  pretty nowMs +:+ "-" +:+ rnd.

(** Truthiness of a value; [None] is [undefined]. *)
Definition js_truthy (v : option json) : bool :=
  match v with
  | None => false
  | Some JNull => false
  | Some (JBool b) => b
  | Some (JNum n) => negb (n =? 0)%Z
  | Some (JStr s) => negb (String.eqb s "")
  | Some (JArr _) => true
  | Some (JObj _) => true
  end.

Fixpoint join_commas (parts : list string) : string :=
  match parts with
  | [] => ""
  | [x] => x
  | x :: rest => x +:+ "," +:+ join_commas rest
  end.

(** [String(v)], as a template literal renders a value: an array is its
    elements joined by commas with [null] rendered empty, an object is
    ["[object Object]"]. *)
Fixpoint js_string (v : json) : string :=
  match v with
  | JNull => "null"
  | JBool true => "true"
  | JBool false => "false"
  | JNum n => pretty n
  | JStr s => s
  | JArr items =>
      join_commas (map (λ item, match item with JNull => "" | _ => js_string item end) items)
  | JObj _ => "[object Object]"
  end.

Definition js_string_opt (v : option json) : string :=
  match v with
  | Some v => js_string v
  | None => "undefined"
  end.

(** [result.key]: reading a property of [null] throws, reading one of any
    other parsed value gives the field or [undefined]. *)
Definition js_get (key : string) (v : json) : Outcome (option json) :=
  match v with
  | JNull => Throw ("TypeError: Cannot read properties of null (reading '" +:+ key +:+ "')")
  | _ => Ok (json_field key v)
  end.

(** What an email tool answers: [text] may be [undefined], as
    [JSON.stringify(undefined)] is. *)
Record EmailToolResult := mkEmailToolResult {
  email_text    : option string;
  email_isError : bool;
}.

Section EmailTools.
Variable JSON_parse : string → Outcome json.
Variable host : Z → FS → FS.

(** The request of [list_email_folders]. *)
Definition list_email_folders_data (ctx : IpcMcpContext) (requestId isoNow : string) : json :=
  JObj [ ("type", JStr "list_email_folders");
         ("requestId", JStr requestId);
         ("groupFolder", JStr (groupFolder ctx));
         ("timestamp", JStr isoNow) ].

(** The part every email tool shares after the wait: the error answer under
    [!result.success], here followed by [list_email_folders]' own success
    answer. *)
Definition list_email_folders_answer (result : json) : Outcome EmailToolResult :=
  match js_get "success" result with
  | Throw err => Throw err
  | Ok success =>
      if negb (js_truthy success)
      then match js_get "error" result with
           | Throw err => Throw err
           | Ok error =>
               Ok (mkEmailToolResult (Some ("Error: " +:+ js_string_opt error)) true)
           end
      else match js_get "data" result with
           | Throw err => Throw err
           | Ok data => Ok (mkEmailToolResult (JSON_stringify <$> data) false)
           end
  end.

(** The handler of [list_email_folders]: [idMs], [idRnd] are the clock and
    the random text [generateRequestId] reads, [nowMs], [rnd] those
    [writeIpcFile] reads. *)
Definition list_email_folders (ctx : IpcMcpContext)
    (idMs : Z) (idRnd : string) (nowMs : Z) (rnd isoNow : string) : Fs EmailToolResult :=
  let requestId := generateRequestId idMs idRnd in
  writeIpcFile MESSAGES_DIR (list_email_folders_data ctx requestId isoNow) nowMs rnd ;;
  result <- waitForEmailResult JSON_parse host requestId 30000 ;;
  (λ fs, mkRun (list_email_folders_answer result) fs []).

End EmailTools.

(** ** The specification's reading of a valid interval

    "interval must be a positive integer": the text is a non-empty run of
    decimal digits and the number it writes is greater than zero. *)
Fixpoint all_digits (s : string) : bool :=
  match s with
  | EmptyString => true
  | String c s => bool_decide (is_Some (digit_value c)) && all_digits s
  end.

Definition positive_integer_text (s : string) : bool :=
  negb (String.eqb s "") && all_digits s
  && match read_digits None s with Some n => bool_decide (0 < n)%Z | None => false end.

(** ** Sample inputs *)

Definition emptyFS : FS := mkFS ∅ ∅.

Definition sampleCtx : IpcMcpContext :=
  mkIpcMcpContext "67890@g.us" "family" false TriggerUser false.

Definition sampleNowMs : Z := 1769959800000.
Definition sampleRnd : string := "k3x9ab".
Definition sampleIso : string := "2026-02-01T15:30:00.000Z".

(** A stand-in for [JSON.parse] that knows one document. *)
Definition sampleParse (text : string) : Outcome json :=
  if String.eqb text "{}" then Ok (JObj [])
  else Throw "SyntaxError: Unexpected token".

Definition sampleResultFile : string := "/workspace/ipc/email_results/req-1.json".

(** A host that answers request [req-1] during the second sleep. *)
Definition sampleHost (text : string) (elapsed : Z) (fs : FS) : FS :=
  if (elapsed =? 500)%Z then set_files (<[sampleResultFile := text]>) fs else fs.

(** A host that never answers. *)
Definition silentHost (elapsed : Z) (fs : FS) : FS := fs.

(** A request for a task every "5 minutes". *)
Definition sampleIntervalArgs : ScheduleTaskArgs :=
  mkScheduleTaskArgs "check mail" Interval "5 minutes" Group None.

Definition sampleTaskFile : string := "/workspace/ipc/tasks/1769959800000-k3x9ab.json".

(** A stand-in for [JSON.parse] that knows the text of one value. *)
Definition knownParse (value : json) (text : string) : Outcome json :=
  if String.eqb text (JSON_stringify value) then Ok value
  else Throw "SyntaxError: Unexpected token".

(** A host that puts [text] at [path] during the sleep that starts [at]
    milliseconds into the wait. *)
Definition answeringHost (at_ms : Z) (path text : string) (elapsed : Z) (fs : FS) : FS :=
  if (elapsed =? at_ms)%Z then set_files (<[path := text]>) fs else fs.

Definition sampleRequestId : string := generateRequestId sampleNowMs "r7q2zz".

Definition sampleFolders : json :=
  JObj [("success", JBool true); ("data", JArr [JStr "INBOX"; JStr "Archive"])].

(** Stand-ins for the cron and date parsers, for inputs that reach neither. *)
Definition noCron (value : string) : bool := false.
Definition noDate (value : string) : bool := false.

End Ipc.

(* ===================================================================== *)
(** * Task store ([src/db.ts])                                           *)
(* ===================================================================== *)

Module Db.

(** A row of [scheduled_tasks], with the columns [createTask] inserts and
    [updateTaskAfterRun] sets.  [TEXT] columns are strings, [NULL] is [None]. *)
Record ScheduledTask := mkScheduledTask {
  id             : string;
  group_folder   : string;
  chat_jid       : string;
  prompt         : string;
  schedule_type  : string;
  schedule_value : string;
  context_mode   : string;
  next_run       : option string;
  last_run       : option string;
  last_result    : option string;
  status         : string;
  created_at     : string;
}.

(** A row of [task_run_logs], with the columns [logTaskRun] inserts. *)
Record TaskRunLog := mkTaskRunLog {
  task_id     : string;
  run_at      : string;
  duration_ms : Z;
  run_status  : string;
  result      : option string;
  error       : option string;
}.

(** The two tables of the database the task functions touch, rows in
    storage order. *)
Record Database := mkDatabase {
  scheduled_tasks : list ScheduledTask;
  task_run_logs   : list TaskRunLog;
}.

(** ** SQL comparison of [TEXT] values

    SQLite compares [TEXT] with the [BINARY] collation: byte by byte, a proper
    prefix first.  That is the order of [String.compare], which [String.le]
    packages. *)
Definition text_le (a b : string) : Prop := String.le a b.

#[global] Instance text_le_dec a b : Decision (text_le a b).
Proof. unfold text_le. apply _. Defined.

(** Ascending [ORDER BY] on a nullable [TEXT] column: [NULL]s first. *)
Definition nullable_le (a b : option string) : Prop :=
  match a, b with
  | None, _ => True
  | Some _, None => False
  | Some x, Some y => text_le x y
  end.

#[global] Instance nullable_le_dec a b : Decision (nullable_le a b).
Proof. destruct a, b; simpl; apply _. Defined.

(** [ORDER BY next_run] *)
Definition by_next_run (t1 t2 : ScheduledTask) : Prop :=
  nullable_le (next_run t1) (next_run t2).

#[global] Instance by_next_run_dec t1 t2 : Decision (by_next_run t1 t2).
Proof. unfold by_next_run. apply _. Defined.

(** [ORDER BY run_at DESC] *)
Definition by_run_at_desc (l1 l2 : TaskRunLog) : Prop := text_le (run_at l2) (run_at l1).

#[global] Instance by_run_at_desc_dec l1 l2 : Decision (by_run_at_desc l1 l2).
Proof. unfold by_run_at_desc. apply _. Defined.

(** [LIMIT n]: a negative limit is no limit. *)
Definition sql_limit {A} (n : Z) (rows : list A) : list A :=
  if bool_decide (n < 0)%Z then rows else take (Z.to_nat n) rows.

(** ** The task functions *)

(** [getTaskById(id)]: [.get()] gives the first row of the result set, or
    [undefined]. *)
Definition getTaskById (i : string) (db : Database) : option ScheduledTask :=
  head (filter (λ t, id t = i) (scheduled_tasks db)).

(** [deleteTask(id)]: the run logs of the task first, then the task. *)
Definition deleteTask (i : string) (db : Database) : Database :=
  let db := mkDatabase (scheduled_tasks db)
                       (filter (λ l, task_id l ≠ i) (task_run_logs db)) in
  mkDatabase (filter (λ t, id t ≠ i) (scheduled_tasks db)) (task_run_logs db).

(** The [WHERE] clause of [getDueTasks]:
    [status = 'active' AND next_run IS NOT NULL AND next_run <= ?]. *)
Definition is_due (now : string) (t : ScheduledTask) : Prop :=
  status t = "active" ∧ ∃ nr, next_run t = Some nr ∧ text_le nr now.

#[global] Instance is_due_dec now t : Decision (is_due now t).
Proof.
  unfold is_due. destruct (next_run t) as [nr|].
  - destruct (decide (status t = "active" ∧ text_le nr now)) as [[H1 H2]|Hn].
    + left. eauto.
    + right. intros (H1 & nr' & [= <-] & H2). tauto.
  - right. intros (_ & nr & [=] & _).
Defined.

(** [getDueTasks()]; [now] is [new Date().toISOString()]. *)
Definition getDueTasks (now : string) (db : Database) : list ScheduledTask :=
  merge_sort by_next_run (filter (is_due now) (scheduled_tasks db)).

(** The [SET] clause of [updateTaskAfterRun]. *)
Definition after_run (nextRun : option string) (now lastResult : string)
    (t : ScheduledTask) : ScheduledTask :=
  mkScheduledTask (id t) (group_folder t) (chat_jid t) (prompt t)
    (schedule_type t) (schedule_value t) (context_mode t)
    nextRun (Some now) (Some lastResult)
    (match nextRun with None => "completed" | Some _ => status t end)
    (created_at t).

(** [updateTaskAfterRun(id, nextRun, lastResult)]; [now] is
    [new Date().toISOString()]. *)
Definition updateTaskAfterRun (i : string) (nextRun : option string)
    (lastResult : string) (now : string) (db : Database) : Database :=
  mkDatabase
    (map (λ t, if decide (id t = i) then after_run nextRun now lastResult t else t)
         (scheduled_tasks db))
    (task_run_logs db).

(** [logTaskRun(log)] *)
Definition logTaskRun (log : TaskRunLog) (db : Database) : Database :=
  mkDatabase (scheduled_tasks db) (task_run_logs db ++ [log]).

(** [getTaskRunLogs(taskId, limit = 10)] *)
Definition getTaskRunLogs (taskId : string) (limit : Z) (db : Database) : list TaskRunLog :=
  sql_limit limit
    (merge_sort by_run_at_desc (filter (λ l, task_id l = taskId) (task_run_logs db))).

(** ** The other task functions *)

(** SQL [<] on [TEXT]. *)
Definition text_lt (a b : string) : Prop := String.compare a b = Lt.

#[global] Instance text_lt_dec a b : Decision (text_lt a b).
Proof. unfold text_lt. apply _. Defined.

(** The row [createTask] inserts: [last_run] and [last_result] are not among
    the columns it names, so they are [NULL]; an absent or empty
    [context_mode] becomes ['isolated']. *)
Definition new_task_row (task : ScheduledTask) : ScheduledTask :=
  mkScheduledTask (id task) (group_folder task) (chat_jid task) (prompt task)
    (schedule_type task) (schedule_value task)
    (if String.eqb (context_mode task) "" then "isolated" else context_mode task)
    (next_run task) None None (status task) (created_at task).

(** [createTask(task)].  The migrations that declare the table are not among
    the sources; [id] is taken to be its key, as [getTaskById] and
    [deleteTask] use it, so inserting a second row with an id already there
    throws ([None]) and changes nothing. *)
Definition createTask (task : ScheduledTask) (db : Database) : option Database :=
  if bool_decide (Exists (λ t, id t = id task) (scheduled_tasks db)) then None
  else Some (mkDatabase (scheduled_tasks db ++ [new_task_row task]) (task_run_logs db)).

(** The [updates] argument of [updateTask]: a field left out is [None]; for
    [next_run], [Some None] is an explicit [null]. *)
Record TaskUpdates := mkTaskUpdates {
  upd_prompt         : option string;
  upd_schedule_type  : option string;
  upd_schedule_value : option string;
  upd_next_run       : option (option string);
  upd_status         : option string;
}.

Definition noUpdates : TaskUpdates := mkTaskUpdates None None None None None.

(** The [SET] list [updateTask] assembles. *)
Definition apply_updates (u : TaskUpdates) (t : ScheduledTask) : ScheduledTask :=
  mkScheduledTask (id t) (group_folder t) (chat_jid t)
    (default (prompt t) (upd_prompt u))
    (default (schedule_type t) (upd_schedule_type u))
    (default (schedule_value t) (upd_schedule_value u))
    (context_mode t)
    (default (next_run t) (upd_next_run u))
    (last_run t) (last_result t)
    (default (status t) (upd_status u))
    (created_at t).

(** [fields.length === 0] *)
Definition no_fields (u : TaskUpdates) : bool :=
  match upd_prompt u, upd_schedule_type u, upd_schedule_value u, upd_next_run u, upd_status u with
  | None, None, None, None, None => true
  | _, _, _, _, _ => false
  end.

(** [updateTask(id, updates)] *)
Definition updateTask (i : string) (u : TaskUpdates) (db : Database) : Database :=
  if no_fields u then db
  else mkDatabase
         (map (λ t, if decide (id t = i) then apply_updates u t else t) (scheduled_tasks db))
         (task_run_logs db).

(** [ORDER BY created_at DESC] *)
Definition by_created_at_desc (t1 t2 : ScheduledTask) : Prop :=
  text_le (created_at t2) (created_at t1).

#[global] Instance by_created_at_desc_dec t1 t2 : Decision (by_created_at_desc t1 t2).
Proof. unfold by_created_at_desc. apply _. Defined.

(** [getAllTasks()] *)
Definition getAllTasks (db : Database) : list ScheduledTask :=
  merge_sort by_created_at_desc (scheduled_tasks db).

(** [getTasksForGroup(groupFolder)] *)
Definition getTasksForGroup (groupFolder : string) (db : Database) : list ScheduledTask :=
  merge_sort by_created_at_desc
    (filter (λ t, group_folder t = groupFolder) (scheduled_tasks db)).

(** [deleteOldTaskRunLogs(cutoff)]: the number of rows deleted ([.changes])
    and the database left. *)
Definition deleteOldTaskRunLogs (cutoff : string) (db : Database) : nat * Database :=
  (length (filter (λ l, text_lt (run_at l) cutoff) (task_run_logs db)),
   mkDatabase (scheduled_tasks db)
              (filter (λ l, ¬ text_lt (run_at l) cutoff) (task_run_logs db))).

(** ** A sample database *)

Definition sampleOnce : ScheduledTask :=
  mkScheduledTask "task-1" "main" "12345@g.us" "remind me" "once" "2026-02-01T15:30:00"
    "group" (Some "2026-02-01T15:30:00.000Z") None None "active" "2026-01-31T10:00:00.000Z".

Definition sampleInterval : ScheduledTask :=
  mkScheduledTask "task-2" "family" "67890@g.us" "check mail" "interval" "300000"
    "isolated" (Some "2026-02-01T15:00:00.000Z") None None "active" "2026-01-31T11:00:00.000Z".

Definition samplePaused : ScheduledTask :=
  mkScheduledTask "task-3" "family" "67890@g.us" "water plants" "cron" "0 9 * * *"
    "group" (Some "2026-02-01T09:00:00.000Z") None None "paused" "2026-01-31T12:00:00.000Z".

Definition sampleLogs : list TaskRunLog :=
  [ mkTaskRunLog "task-2" "2026-02-01T14:55:00.000Z" 1200 "success" (Some "ok") None;
    mkTaskRunLog "task-1" "2026-02-01T14:00:00.000Z" 800 "error" None (Some "timeout");
    mkTaskRunLog "task-2" "2026-02-01T14:50:00.000Z" 900 "success" (Some "ok") None ].

Definition sampleDb : Database :=
  mkDatabase [sampleOnce; sampleInterval; samplePaused] sampleLogs.

Definition sampleRun : TaskRunLog :=
  mkTaskRunLog "task-2" "2026-02-01T15:00:04.000Z" 4000 "success" (Some "3 new mails") None.

Definition sampleNew : ScheduledTask :=
  mkScheduledTask "task-9" "family" "67890@g.us" "weekly summary" "cron" "0 18 * * 5"
    "" (Some "2026-02-06T18:00:00.000Z") None None "active" "2026-02-01T16:00:00.000Z".

End Db.

(* ===================================================================== *)
(** * Chat metadata ([src/db.ts], table [chats])                         *)
(* ===================================================================== *)

Module Chats.

(** A row of [chats] as [getAllChats] selects it. *)
Record ChatInfo := mkChatInfo {
  jid               : string;
  name              : string;
  last_message_time : string;
}.

(** The table.  It is keyed by [jid]: the upserts name [jid] as their conflict
    target, which SQLite accepts only for a column with a uniqueness
    constraint.  Each [jid] maps to its [name] and [last_message_time]. *)
Record ChatRow := mkChatRow {
  row_name : string;
  row_time : string;
}.

Abbreviation Table := (gmap string ChatRow).

(** SQL scalar [MAX(X, Y)] on two [TEXT] values. *)
Definition text_max (a b : string) : string :=
  if decide (Db.text_le a b) then b else a.

(** [INSERT ... ON CONFLICT(jid) DO UPDATE SET ...]: [ins] is the row
    inserted when the [jid] is new, [upd] the update of the row in place. *)
Definition upsert (chatJid : string) (ins : ChatRow) (upd : ChatRow → ChatRow)
    (chats : Table) : Table :=
  match chats !! chatJid with
  | None => <[chatJid := ins]> chats
  | Some row => <[chatJid := upd row]> chats
  end.

(** [if (name)]: a name that is given and not empty. *)
Definition given (name : option string) : option string :=
  match name with
  | Some (String c n) => Some (String c n)
  | _ => None
  end.

(** [storeChatMetadata(chatJid, timestamp, name?)] *)
Definition storeChatMetadata (chatJid timestamp : string) (name : option string)
    (chats : Table) : Table :=
  match given name with
  | Some n =>
      upsert chatJid (mkChatRow n timestamp)
        (λ row, mkChatRow n (text_max (row_time row) timestamp)) chats
  | None =>
      upsert chatJid (mkChatRow chatJid timestamp)
        (λ row, mkChatRow (row_name row) (text_max (row_time row) timestamp)) chats
  end.

(** [updateChatName(chatJid, name)]; [now] is [new Date().toISOString()]. *)
Definition updateChatName (chatJid name now : string) (chats : Table) : Table :=
  upsert chatJid (mkChatRow name now) (λ row, mkChatRow name (row_time row)) chats.

(** [ORDER BY last_message_time DESC] *)
Definition by_time_desc (c1 c2 : ChatInfo) : Prop :=
  Db.text_le (last_message_time c2) (last_message_time c1).

#[global] Instance by_time_desc_dec c1 c2 : Decision (by_time_desc c1 c2).
Proof. unfold by_time_desc. apply _. Defined.

Definition chat_info (kv : string * ChatRow) : ChatInfo :=
  mkChatInfo kv.1 (row_name kv.2) (row_time kv.2).

(** [getAllChats()] *)
Definition getAllChats (chats : Table) : list ChatInfo :=
  merge_sort by_time_desc (chat_info <$> map_to_list chats).

(** [getLastGroupSync()]: [row?.last_message_time || null], so an empty
    time reads as [null]. *)
Definition getLastGroupSync (chats : Table) : option string :=
  match chats !! "__group_sync__" with
  | Some row => if String.eqb (row_time row) "" then None else Some (row_time row)
  | None => None
  end.

(** [setLastGroupSync()]: [INSERT OR REPLACE] puts the row in place of the
    one with the same [jid]; [now] is [new Date().toISOString()]. *)
Definition setLastGroupSync (now : string) (chats : Table) : Table :=
  <["__group_sync__" := mkChatRow "__group_sync__" now]> chats.

(** ** A sample table *)

Definition sampleChats : Table :=
  <["12345@g.us" := mkChatRow "Family" "2026-02-01T10:00:00.000Z"]>
  (<["555@s.whatsapp.net" := mkChatRow "555@s.whatsapp.net" "2026-01-30T08:00:00.000Z"]> ∅).

End Chats.

(* ===================================================================== *)
(** * Messages ([src/db.ts], table [messages])                           *)
(* ===================================================================== *)

Module Messages.

(** A row of [messages], with the columns the message functions name;
    [is_from_me] is stored as 0 or 1. *)
Record NewMessage := mkNewMessage {
  id          : string;
  chat_jid    : string;
  sender      : string;
  sender_name : string;
  content     : string;
  timestamp   : string;
  is_from_me  : Z;
}.

(** [ORDER BY timestamp] *)
Definition by_timestamp (m1 m2 : NewMessage) : Prop :=
  Db.text_le (timestamp m1) (timestamp m2).

#[global] Instance by_timestamp_dec m1 m2 : Decision (by_timestamp m1 m2).
Proof. unfold by_timestamp. apply _. Defined.

(** The [WHERE] clause the three compaction queries share:
    [chat_jid = ? AND timestamp < ? AND sender_name != '[compacted]']. *)
Definition old_message (chatJid cutoff : string) (m : NewMessage) : Prop :=
  chat_jid m = chatJid ∧ Db.text_lt (timestamp m) cutoff ∧ sender_name m ≠ "[compacted]".

#[global] Instance old_message_dec chatJid cutoff m : Decision (old_message chatJid cutoff m).
Proof. unfold old_message. apply _. Defined.

(** [getChatsWithOldMessages(cutoff)]: [SELECT DISTINCT chat_jid]. *)
Definition getChatsWithOldMessages (cutoff : string) (msgs : list NewMessage) : list string :=
  remove_dups
    (chat_jid <$> filter (λ m, Db.text_lt (timestamp m) cutoff ∧ sender_name m ≠ "[compacted]") msgs).

(** [getOldMessages(chatJid, cutoff)] *)
Definition getOldMessages (chatJid cutoff : string) (msgs : list NewMessage) : list NewMessage :=
  merge_sort by_timestamp (filter (old_message chatJid cutoff) msgs).

(** [getCompactionSummaries(chatJid)] *)
Definition getCompactionSummaries (chatJid : string) (msgs : list NewMessage) : list NewMessage :=
  merge_sort by_timestamp
    (filter (λ m, chat_jid m = chatJid ∧ sender_name m = "[compacted]") msgs).

(** SQL aggregate [MAX(timestamp)]: [NULL] over no rows. *)
Definition sql_max (ts : list string) : option string :=
  foldr (λ t acc, Some (match acc with None => t | Some a => Chats.text_max a t end)) None ts.

Section WithSqlite.

(** SQLite's [LIKE] operator, [like pattern text]. *)
Variable like : string → string → bool.

(** The constraints of [messages].  The migrations that declare them are
    not among the sources.  [conflict r1 r2] stands for its uniqueness
    constraints: the two rows cannot both be in the table.  [admissible r]
    stands for its other constraints (foreign keys into tables not modelled
    here, checks): whether they accept the row. *)
Variable conflict : NewMessage → NewMessage → bool.
Variable admissible : NewMessage → bool.

(** [INSERT OR REPLACE]: the rows in conflict with the new one are deleted;
    a row that is not admissible makes the statement throw ([None]). *)
Definition insert_or_replace (row : NewMessage) (msgs : list NewMessage)
    : option (list NewMessage) :=
  if admissible row then Some (filter (λ m, conflict row m = false) msgs ++ [row]) else None.

(** [INSERT]: throws ([None]) on a conflict too. *)
Definition insert (row : NewMessage) (msgs : list NewMessage) : option (list NewMessage) :=
  if admissible row && negb (existsb (conflict row) msgs) then Some (msgs ++ [row]) else None.

(** [storeGenericMessage(id, chatJid, sender, senderName, content, timestamp, isFromMe)] *)
Definition storeGenericMessage (i chatJid sndr senderName cont ts : string) (isFromMe : bool)
    (msgs : list NewMessage) : option (list NewMessage) :=
  insert_or_replace (mkNewMessage i chatJid sndr senderName cont ts (if isFromMe then 1 else 0)) msgs.

(** [content NOT LIKE ?] with the pattern [`${botPrefix}:%`]. *)
Definition not_from_bot (botPrefix : string) (m : NewMessage) : Prop :=
  like (botPrefix +:+ ":%") (content m) = false.

#[global] Instance not_from_bot_dec botPrefix m : Decision (not_from_bot botPrefix m).
Proof. unfold not_from_bot. apply _. Defined.

(** The loop of [getNewMessages] over the rows:
    [if (row.timestamp > newTimestamp) newTimestamp = row.timestamp].
    JavaScript compares strings by code unit and SQLite by byte; both are
    [String.compare] here, which is either of them on ASCII text such as the
    ISO timestamps stored. *)
Definition advance (newTimestamp : string) (row : NewMessage) : string :=
  if decide (Db.text_lt newTimestamp (timestamp row)) then timestamp row else newTimestamp.

(** [getNewMessages(jids, lastTimestamp, botPrefix)]: the [messages] and the
    [newTimestamp] of the object returned. *)
Definition getNewMessages (jids : list string) (lastTimestamp botPrefix : string)
    (msgs : list NewMessage) : list NewMessage * string :=
  match jids with
  | [] => ([], lastTimestamp)
  | _ =>
      let rows :=
        merge_sort by_timestamp
          (filter (λ m, Db.text_lt lastTimestamp (timestamp m) ∧ chat_jid m ∈ jids
                        ∧ not_from_bot botPrefix m) msgs) in
      (rows, foldl advance lastTimestamp rows)
  end.

(** [getMessagesSince(chatJid, sinceTimestamp, botPrefix)] *)
Definition getMessagesSince (chatJid sinceTimestamp botPrefix : string)
    (msgs : list NewMessage) : list NewMessage :=
  merge_sort by_timestamp
    (filter (λ m, chat_jid m = chatJid ∧ Db.text_lt sinceTimestamp (timestamp m)
                  ∧ not_from_bot botPrefix m) msgs).

(** The row [compactOldMessages] inserts; [nowMs] is [Date.now()]. *)
Definition summary_row (chatJid summaryContent ts : string) (nowMs : Z) : NewMessage :=
  mkNewMessage ("compacted-" +:+ pretty nowMs) chatJid "system" "[compacted]"
    summaryContent ts 0.

(** [compactOldMessages(chatJid, cutoff, summaryContent)], one transaction:
    nothing happens when there is no old message ([!latest.ts], which an
    empty timestamp satisfies too); when the [INSERT] throws, the [DELETE]
    is rolled back and the call throws ([None]). *)
Definition compactOldMessages (chatJid cutoff summaryContent : string) (nowMs : Z)
    (msgs : list NewMessage) : option (list NewMessage) :=
  match sql_max (timestamp <$> filter (old_message chatJid cutoff) msgs) with
  | None | Some "" => Some msgs
  | Some ts =>
      insert (summary_row chatJid summaryContent ts nowMs)
        (filter (λ m, ¬ old_message chatJid cutoff m) msgs)
  end.

End WithSqlite.

(** ** Sample data *)

(** A [LIKE] for patterns that end in their only wildcard [%], on ASCII
    text: the text starts with the rest of the pattern, letters compared
    without case. *)
Definition ascii_lower (c : ascii) : ascii :=
  let n := nat_of_ascii c in
  if ((65 <=? n) && (n <=? 90))%nat then ascii_of_nat (n + 32) else c.

Fixpoint prefix_like (pattern text : string) : bool :=
  match pattern, text with
  | "%", _ => true
  | String p pattern, String c text =>
      if Ascii.eqb (ascii_lower p) (ascii_lower c) then prefix_like pattern text else false
  | _, _ => false
  end.

(** The key [(id, chat_jid)]. *)
Definition same_id_and_chat (r1 r2 : NewMessage) : bool :=
  String.eqb (id r1) (id r2) && String.eqb (chat_jid r1) (chat_jid r2).

(** A foreign key: messages belong to one of two known chats. *)
Definition known_chat (r : NewMessage) : bool :=
  String.eqb (chat_jid r) "12345@g.us" || String.eqb (chat_jid r) "67890@g.us".

Definition sampleAsk : NewMessage :=
  mkNewMessage "m1" "12345@g.us" "alice@s.whatsapp.net" "Alice" "@Andy what is for dinner?"
    "2026-01-01T10:00:00.000Z" 0.

Definition sampleReply : NewMessage :=
  mkNewMessage "m2" "12345@g.us" "me@s.whatsapp.net" "Me" "Andy: pasta"
    "2026-01-01T10:00:05.000Z" 1.

Definition sampleHello : NewMessage :=
  mkNewMessage "m3" "67890@g.us" "bob@s.whatsapp.net" "Bob" "hello"
    "2026-01-02T09:00:00.000Z" 0.

Definition sampleThanks : NewMessage :=
  mkNewMessage "m4" "12345@g.us" "alice@s.whatsapp.net" "Alice" "thanks"
    "2026-02-01T12:00:00.000Z" 0.

Definition sampleEdited : NewMessage :=
  mkNewMessage "m4" "12345@g.us" "alice@s.whatsapp.net" "Alice" "thanks!"
    "2026-02-01T12:00:00.000Z" 0.

Definition sampleMessages : list NewMessage :=
  [sampleAsk; sampleReply; sampleHello; sampleThanks].

End Messages.

(* ===================================================================== *)
(** * The compaction cycle ([unnamed/part_000])                          *)
(* ===================================================================== *)

Module Compaction.
Import Messages.

(** A row of [processed_emails]. *)
Record ProcessedEmail := mkProcessedEmail {
  message_id   : string;
  folder       : string;
  processed_at : string;
}.

(** [deleteOldProcessedEmails(cutoff)] of [src/db.ts]: the number of rows
    deleted and the rows left. *)
Definition deleteOldProcessedEmails (cutoff : string) (emails : list ProcessedEmail)
    : nat * list ProcessedEmail :=
  (length (filter (λ e, Db.text_lt (processed_at e) cutoff) emails),
   filter (λ e, ¬ Db.text_lt (processed_at e) cutoff) emails).

(** The tables a cycle reads and writes. *)
Record Store := mkStore {
  messages         : list NewMessage;
  tasks            : Db.Database;
  processed_emails : list ProcessedEmail;
}.

(** Every message carries a timestamp. *)
Definition dated (st : Store) : Prop := Forall (λ m, timestamp m ≠ "") (messages st).

(** What a call leaves: it returned, or it threw, with the store as it
    was at that moment. *)
Inductive Result :=
  | Returned (st : Store)
  | Threw (st : Store).

Definition store_of (r : Result) : Store :=
  match r with Returned st | Threw st => st end.

(** The line feed of ['\n']. *)
Definition nl : string := String (ascii_of_nat 10) EmptyString.

(** [parts.join(sep)] *)
Definition join (sep : string) (parts : list string) : string :=
  match parts with
  | [] => ""
  | p :: rest => foldl (λ acc q, acc +:+ sep +:+ q) p rest
  end.

(** [s.split('T')[0]]: the text before the first ['T']. *)
Fixpoint before_T (s : string) : string :=
  match s with
  | EmptyString => EmptyString
  | String c rest => if Ascii.eqb c "T" then EmptyString else String c (before_T rest)
  end.

(** [`[${m.timestamp}] ${m.sender_name}: ${m.content}`] *)
Definition format_message (m : NewMessage) : string :=
  "[" +:+ timestamp m +:+ "] " +:+ sender_name m +:+ ": " +:+ content m.

(** The prompt [compactChat] builds. *)
Definition compaction_prompt (oldest newest : string)
    (msgs previousSummaries : list NewMessage) : string :=
  let prompt :=
    "Summarize the following conversation messages concisely. Preserve key information, decisions, action items, and important context. Group by topic where natural."
    +:+ nl +:+ nl +:+ "Messages from " +:+ oldest +:+ " to " +:+ newest +:+ ":"
    +:+ nl +:+ nl +:+ join nl (format_message <$> msgs) in
  match previousSummaries with
  | [] => prompt
  | _ =>
      prompt +:+ nl +:+ nl
      +:+ "Previous compaction summaries (older history) for context:" +:+ nl
      +:+ join (nl +:+ "---" +:+ nl) (content <$> previousSummaries)
      +:+ nl +:+ nl
      +:+ "Also briefly note what changed or evolved compared to the older summaries."
  end.

(** [`[Compacted: ${periodLabel}, ${messages.length} messages]\n\n${summary}`] *)
Definition summary_content (oldest newest : string) (count : nat) (summary : string) : string :=
  "[Compacted: " +:+ before_T oldest +:+ " to " +:+ before_T newest +:+ ", "
  +:+ pretty (Z.of_nat count) +:+ " messages]" +:+ nl +:+ nl +:+ summary.

Section WithEnvironment.

Variable conflict : NewMessage → NewMessage → bool.
Variable admissible : NewMessage → bool.

(** [await callClaude(apiKey, prompt)]: the summary the API gives for the
    prompt, [None] when the call throws, and the store as it is when the
    call is over: while [compactChat] waits, the rest of the process runs. *)
Variable callClaude : string → Store → option string * Store.

(** What the rest of the process does to the store between the return of
    a [compactChat] and the loop going on after its [await]. *)
Variable yield : Store → Store.

(** [Date.now()] at the [k]-th compaction of a cycle. *)
Variable clock : nat → Z.

(** Some call to the API or some insert throws. *)
Definition failed : Prop :=
  (∃ prompt st, (callClaude prompt st).1 = None)
  ∨ (∃ row msgs, insert conflict admissible row msgs = None).

(** [compactChat(chatJid, cutoff, apiKey)]; [k] counts the chats of the
    cycle. *)
Definition compactChat (chatJid cutoff : string) (k : nat) (st : Store) : Result :=
  let msgs := getOldMessages chatJid cutoff (messages st) in
  match msgs with
  | [] => Returned st
  | first :: _ =>
      let oldest := timestamp first in
      let newest := timestamp (List.last msgs first) in
      let prompt := compaction_prompt oldest newest msgs
                      (getCompactionSummaries chatJid (messages st)) in
      match callClaude prompt st with
      | (None, st') => Threw st'
      | (Some summary, st') =>
          let content := summary_content oldest newest (length msgs) summary in
          match compactOldMessages conflict admissible chatJid cutoff content (clock k)
                  (messages st') with
          | None => Threw st'
          | Some msgs' => Returned (mkStore msgs' (tasks st') (processed_emails st'))
          end
      end
  end.

(** [for (const chatJid of chats) await compactChat(chatJid, cutoffStr, apiKey)] *)
Fixpoint compactChats (chats : list string) (cutoff : string) (k : nat) (st : Store) : Result :=
  match chats with
  | [] => Returned st
  | chatJid :: rest =>
      match compactChat chatJid cutoff k st with
      | Returned st' => compactChats rest cutoff (S k) (yield st')
      | Threw st' => Threw st'
      end
  end.

(** The cleanup of the tables that need no summary. *)
Definition ttl_cleanup (cutoff : string) (st : Store) : Store :=
  mkStore (messages st)
          (Db.deleteOldTaskRunLogs cutoff (tasks st)).2
          (deleteOldProcessedEmails cutoff (processed_emails st)).2.

(** [runCompaction(apiKey)]; [cutoffStr] is the ISO time
    [MESSAGE_RETENTION_DAYS] days before now.  Whatever is thrown inside is
    caught and logged, so the cycle itself always returns. *)
Definition runCompaction (cutoffStr : string) (st : Store) : Store :=
  match compactChats (getChatsWithOldMessages cutoffStr (messages st)) cutoffStr 0 st with
  | Returned st' => ttl_cleanup cutoffStr st'
  | Threw st' => st'
  end.

End WithEnvironment.

(** ** Sample data *)

Definition sampleEmails : list ProcessedEmail :=
  [ mkProcessedEmail "<a1@mail>" "INBOX" "2026-01-02T08:00:00.000Z";
    mkProcessedEmail "<b2@mail>" "INBOX" "2026-02-01T08:00:00.000Z" ].

Definition sampleStore : Store := mkStore sampleMessages Db.sampleDb sampleEmails.

Definition sampleCompacted : Store :=
  mkStore
    [sampleHello; sampleThanks;
     summary_row "12345@g.us"
       (summary_content "2026-01-01T10:00:00.000Z" "2026-01-01T10:00:05.000Z" 2
          "They talked about dinner.")
       "2026-01-01T10:00:05.000Z" 1770000000000]
    Db.sampleDb sampleEmails.

(** An API that answers every prompt, and one that is down. *)
Definition answering (prompt : string) (st : Store) : option string * Store :=
  (Some "They talked about dinner.", st).

Definition down (prompt : string) (st : Store) : option string * Store := (None, st).

Definition sampleClock (k : nat) : Z := 1770000000000 + Z.of_nat k.

(** A process that does nothing else meanwhile. *)
Definition quiet (st : Store) : Store := st.

End Compaction.

(* ===================================================================== *)
(** * Properties of the container pool                                   *)
(* ===================================================================== *)

Module PoolSpec.
Import Pool.

Section WithConfig.
Variable MAX_IDLE : Z.

Local Abbreviation warmContainer := (Pool.warmContainer MAX_IDLE).
Local Abbreviation reachable := (Pool.reachable MAX_IDLE).
Local Abbreviation apply_event := (Pool.apply_event MAX_IDLE).

Lemma pool_has_true g w : pool_has g w = true ↔ is_Some (pool w !! g).
Proof. unfold pool_has. apply bool_decide_eq_true. Qed.

Lemma pool_has_false g w : pool_has g w = false ↔ pool w !! g = None.
Proof.
  unfold pool_has. rewrite bool_decide_eq_false, eq_None_not_Some. done.
Qed.

Lemma warmContainer_has g args now w : pool_has g (warmContainer g args now w) = true.
Proof.
  unfold Pool.warmContainer. destruct (pool_has g w) eqn:E; [done|].
  apply pool_has_true. simpl. rewrite lookup_insert_eq. eauto.
Qed.

(** ** Field-wise behaviour of the primitives *)

Lemma pool_get_Some g w r e :
  pool_get g w = Some (r, e) ↔ pool w !! g = Some r ∧ heap w !! r = Some e.
Proof.
  unfold pool_get. destruct (pool w !! g) as [r'|]; [|by intuition].
  destruct (heap w !! r') as [e'|] eqn:E.
  - split; [intros [= -> ->]; done|]. intros [[= ->] He]. congruence.
  - split; [done|]. intros [[= ->] He]. congruence.
Qed.

Lemma pool_clearIdleTimer e w : pool (clearIdleTimer e w) = pool w.
Proof. unfold clearIdleTimer. by destruct (idleTimer e). Qed.

Lemma heap_clearIdleTimer e w : heap (clearIdleTimer e w) = heap w.
Proof. unfold clearIdleTimer. by destruct (idleTimer e). Qed.

Lemma procs_clearIdleTimer e w : procs (clearIdleTimer e w) = procs w.
Proof. unfold clearIdleTimer. by destruct (idleTimer e). Qed.

Lemma timers_clearIdleTimer e w :
  timers (clearIdleTimer e w) =
    match idleTimer e with Some t => delete t (timers w) | None => timers w end.
Proof. unfold clearIdleTimer. by destruct (idleTimer e). Qed.

Lemma timers_clearIdleTimer_subseteq e w : timers (clearIdleTimer e w) ⊆ timers w.
Proof.
  rewrite timers_clearIdleTimer. destruct (idleTimer e); [apply delete_subseteq|done].
Qed.

(** ** The wiring invariant holds in every reachable world *)

Lemma wired_empty : wired emptyWorld.
Proof. split; simpl; intros *; [rewrite lookup_empty|]; done. Qed.

Lemma wired_warm g args now w : wired w → wired (warmContainer g args now w).
Proof.
  intros [Hp Hq]. unfold Pool.warmContainer.
  destruct (pool_has g w) eqn:Hhas; [by split|].
  apply pool_has_false in Hhas.
  split; simpl.
  - intros g' r'. destruct (decide (g = g')) as [<-|Hne].
    + rewrite lookup_insert_eq. intros [= <-].
      eexists _, _. rewrite lookup_app_r, Nat.sub_diag by lia. simpl.
      split; [done|]. simpl. rewrite lookup_app_r, Nat.sub_diag by lia. done.
    + rewrite lookup_insert_ne by done. intros Hg'.
      destruct (Hp _ _ Hg') as (e & p & He & Hd & Hpr & Henv).
      exists e, p. split_and!; try done.
      * apply lookup_app_l_Some; done.
      * apply lookup_app_l_Some; done.
  - intros pid p Hpid. apply lookup_app_Some in Hpid as [Hpid|[Hlen Hpid]].
    + destruct (Hq _ _ Hpid) as (e & He & Hpe).
      exists e. split; [|done]. by apply lookup_app_l_Some.
    + destruct (pid - length (procs w)) as [|k] eqn:Hk; simpl in Hpid; [|done].
      injection Hpid as <-. simpl.
      rewrite lookup_app_r, Nat.sub_diag by lia. simpl.
      eexists; split; [done|]. simpl. lia.
Qed.

(** Deleting pool entries and clearing timers keeps the wiring. *)
Lemma wired_shrink w w' :
  pool w' ⊆ pool w → heap w' = heap w → procs w' = procs w →
  wired w → wired w'.
Proof.
  intros Hsub Hh Hpr [Hp Hq]. split; rewrite Hh, Hpr; [|done].
  intros g r Hg. apply Hp. eapply lookup_weaken; done.
Qed.

(** Updating a process without touching its listeners keeps the wiring. *)
Lemma wired_alter_proc f pid w :
  (∀ p, listenerEnv (f p) = listenerEnv p) →
  wired w → wired (set_procs (alter f pid) w).
Proof.
  intros Hf [Hp Hq]. split; simpl.
  - intros g r Hg. destruct (Hp _ _ Hg) as (e & p & He & Hd & Hpr & Henv).
    destruct (decide (pid = process e)) as [->|Hne].
    + exists e, (f p). split_and!; try done.
      * by rewrite list_lookup_alter_eq, Hpr.
      * by rewrite Hf.
    + exists e, p. split_and!; try done. by rewrite list_lookup_alter_ne.
  - intros pid' p'. destruct (decide (pid = pid')) as [->|Hne].
    + rewrite list_lookup_alter_eq. destruct (procs w !! pid') as [p|] eqn:E; [|done].
      simpl. intros [= <-]. rewrite Hf. by apply Hq.
    + rewrite list_lookup_alter_ne by done. apply Hq.
Qed.

Lemma wired_evict g w : wired w → wired (evict g w).
Proof.
  intros Hw. unfold evict. destruct (pool_get g w) as [[r e]|]; [|done].
  assert (wired (pool_delete g (clearIdleTimer e w))) as Hw'.
  { eapply wired_shrink; [| | |exact Hw]; simpl.
    - rewrite pool_clearIdleTimer. apply delete_subseteq.
    - apply heap_clearIdleTimer.
    - apply procs_clearIdleTimer. }
  destruct (dead e); [done|].
  unfold kill, stdin_end. by do 2 (apply wired_alter_proc; [done|]).
Qed.

Lemma wired_acquire g w : wired w → wired (acquireWarmContainer g w).2.
Proof.
  intros Hw. unfold acquireWarmContainer.
  destruct (pool_get g w) as [[r e]|]; [|done].
  destruct (dead e); simpl.
  - eapply wired_shrink; [| | |exact Hw]; simpl; [apply delete_subseteq|done..].
  - eapply wired_shrink; [| | |exact Hw]; simpl.
    + rewrite pool_clearIdleTimer. apply delete_subseteq.
    + apply heap_clearIdleTimer.
    + apply procs_clearIdleTimer.
Qed.

Lemma wired_on_close pid w : wired w → wired (on_close pid w).
Proof.
  intros Hw. unfold on_close. destruct (procs w !! pid) as [p|]; [|done].
  destruct (listenerEnv p) as [g r]. destruct (pool_holds g r w); [|done].
  eapply wired_shrink; [| | |exact Hw]; simpl; [apply delete_subseteq|done..].
Qed.

Lemma wired_on_error pid w : wired w → wired (on_error pid w).
Proof.
  intros [Hp Hq]. unfold on_error. destruct (procs w !! pid) as [p|] eqn:Hpid; [|by split].
  destruct (listenerEnv p) as [g r] eqn:Henv.
  destruct (Hq _ _ Hpid) as (e0 & He0 & Hpe0). rewrite Henv in He0. simpl in He0.
  set (mark := λ e, mkWarmEntry (process e) (createdAt e) (idleTimer e) true).
  (* the only pool key that can hold [r] is [g] *)
  assert (∀ g', pool w !! g' = Some r → g' = g) as Huniq.
  { intros g' Hg'. destruct (Hp _ _ Hg') as (e & p' & He & _ & Hpr & Henv').
    assert (e = e0) as -> by congruence. rewrite Hpe0, Hpid in Hpr.
    injection Hpr as <-. congruence. }
  assert (∀ w', heap w' = alter mark r (heap w) → procs w' = procs w →
            (∀ g' r', pool w' !! g' = Some r' → pool w !! g' = Some r' ∧ r' ≠ r) →
            wired w') as Hgen.
  { intros w' Hh Hpr Hpool. split; rewrite Hh, Hpr.
    - intros g' r' Hg'. destruct (Hpool _ _ Hg') as [Hold Hne].
      destruct (Hp _ _ Hold) as (e & p' & He & Hd & Hpe & Henv').
      exists e, p'. split_and!; try done. by rewrite list_lookup_alter_ne.
    - intros pid' p' Hpid'. destruct (Hq _ _ Hpid') as (e & He & Hpe).
      destruct (decide (r = (listenerEnv p').2)) as [Heq|Hne].
      + exists (mark e). rewrite <- Heq in *.
        by rewrite list_lookup_alter_eq, He.
      + exists e. by rewrite list_lookup_alter_ne. }
  unfold pool_holds; simpl. case_bool_decide as Hhold.
  - apply Hgen; simpl; [done..|].
    intros g' r' Hg'. apply lookup_delete_Some in Hg' as [Hne Hg'].
    split; [done|]. intros ->. by apply Hne, eq_sym, Huniq.
  - apply Hgen; simpl; [done..|].
    intros g' r' Hg'. split; [done|]. intros ->.
    apply Hhold. by rewrite <- (Huniq _ Hg').
Qed.

Lemma wired_fire_timer t w : wired w → wired (fire_timer t w).
Proof.
  intros Hw. unfold fire_timer. destruct (timers w !! t); [|done].
  apply wired_evict. by eapply wired_shrink; [| | |exact Hw].
Qed.

Lemma wired_shutdown w : wired w → wired (shutdownPool w).
Proof.
  unfold shutdownPool. generalize (map fst (map_to_list (pool w))) as gs.
  intros gs. revert w. induction gs as [|g gs IH]; intros w Hw; simpl; [done|].
  by apply IH, wired_evict.
Qed.

Lemma wired_apply_event ev w : wired w → wired (apply_event ev w).
Proof.
  destruct ev; simpl;
    eauto using wired_warm, wired_acquire, wired_shutdown, wired_fire_timer,
                wired_on_close, wired_on_error.
Qed.

Lemma reachable_wired w : reachable w → wired w.
Proof. induction 1; eauto using wired_empty, wired_apply_event. Qed.

(** ** warmContainer *)

Lemma warmContainer_idem g args1 args2 now1 now2 w :
  warmContainer g args2 now2 (warmContainer g args1 now1 w) = warmContainer g args1 now1 w.
Proof.
  generalize (warmContainer_has g args1 now1 w).
  generalize (warmContainer g args1 now1 w). intros w1 Hhas.
  unfold Pool.warmContainer. by rewrite Hhas.
Qed.

Lemma filter_key_singleton (m : gmap string nat) g r :
  m !! g = Some r → filter (λ kv, kv.1 = g) m = {[g := r]}.
Proof.
  intros Hg. apply map_eq. intros k. apply option_eq. intros x.
  rewrite map_lookup_filter_Some, lookup_singleton_Some. simpl.
  split; [intros [Hk ->]|intros [<- <-]]; split; congruence.
Qed.

(** C1: warming a group twice in a row, with whatever arguments, gives the
    world the first call gave: the second call finds the slot and returns.
    The pool then holds exactly one entry under the group key and, of the two
    calls, only the first can have spawned a process (none when a slot was
    already there, exactly one otherwise; it runs the first call's arguments
    and the entry the pool holds refers to it). *)
Theorem warmContainer_twice_single_slot
    (g : string) (args1 args2 : list string) (now1 now2 : Z) (w : World) :
  let w1 := warmContainer g args1 now1 w in
  let w2 := warmContainer g args2 now2 w1 in
  w2 = w1
  ∧ size (filter (λ kv, kv.1 = g) (pool w2)) = 1
  ∧ procs w2 =
      (if pool_has g w then procs w
       else procs w ++ [mkChildProcess args1 false [] (g, length (heap w))])
  ∧ length (spawned_for g w2) =
      length (spawned_for g w) + (if pool_has g w then 0 else 1)
  ∧ (if pool_has g w then pool w2 !! g = pool w !! g
     else ∃ e, pool_get g w2 = Some (length (heap w), e)
               ∧ process e = length (procs w) ∧ dead e = false).
Proof.
  cbv zeta. rewrite warmContainer_idem.
  split; [done|].
  split.
  { pose proof (warmContainer_has g args1 now1 w) as Hhas.
    apply pool_has_true in Hhas as [r Hr].
    rewrite (filter_key_singleton _ _ _ Hr). apply map_size_singleton. }
  unfold Pool.warmContainer, spawned_for.
  destruct (pool_has g w) eqn:Hhas; simpl.
  { split_and!; [done|lia|done]. }
  split; [done|]. split.
  - rewrite filter_app, length_app. f_equal.
    rewrite filter_cons_True by done. done.
  - eexists. unfold pool_get; simpl.
    rewrite lookup_insert_eq, lookup_app_r, Nat.sub_diag by lia. simpl.
    split_and!; done.
Qed.

(** ** acquireWarmContainer *)

Lemma acquire_live g w r e :
  pool w !! g = Some r → heap w !! r = Some e → dead e = false →
  acquireWarmContainer g w =
    (Some (process e),
     mkWorld (delete g (pool w)) (heap w) (procs w)
             (match idleTimer e with Some t => delete t (timers w) | None => timers w end)
             (nextTimer w)).
Proof.
  intros Hg Hr Hd. unfold acquireWarmContainer, pool_get. rewrite Hg, Hr, Hd.
  unfold clearIdleTimer. by destruct (idleTimer e).
Qed.

Lemma acquire_dead g w r e :
  pool w !! g = Some r → heap w !! r = Some e → dead e = true →
  acquireWarmContainer g w = (None, set_pool (delete g) w).
Proof.
  intros Hg Hr Hd. unfold acquireWarmContainer, pool_get. by rewrite Hg, Hr, Hd.
Qed.

Lemma acquire_absent g w : pool w !! g = None → acquireWarmContainer g w = (None, w).
Proof. intros Hg. unfold acquireWarmContainer, pool_get. by rewrite Hg. Qed.

Lemma acquire_Some g w pid :
  (acquireWarmContainer g w).1 = Some pid →
  ∃ r e, pool w !! g = Some r ∧ heap w !! r = Some e ∧ dead e = false ∧ process e = pid.
Proof.
  unfold acquireWarmContainer. destruct (pool_get g w) as [[r e]|] eqn:E; [|done].
  apply pool_get_Some in E as [Hg Hr].
  destruct (dead e) eqn:Hd; [done|]. simpl. intros [= <-]. eauto 10.
Qed.

Lemma pool_get_None_acquire g w : pool_get g w = None → (acquireWarmContainer g w).1 = None.
Proof. intros E. unfold acquireWarmContainer. by rewrite E. Qed.

Lemma pool_get_absent g w : pool w !! g = None → pool_get g w = None.
Proof. intros E. unfold pool_get. by rewrite E. Qed.

Lemma pool_get_evict g w : pool_get g (evict g w) = None.
Proof.
  unfold evict. destruct (pool_get g w) as [[r e]|] eqn:E; [|done].
  apply pool_get_absent.
  destruct (dead e); simpl; rewrite pool_clearIdleTimer; apply lookup_delete_eq.
Qed.

Lemma acquire_after_exit g r e w :
  wired w → pool w !! g = Some r → heap w !! r = Some e →
  pool (on_close (process e) w) !! g = None ∧ pool (on_error (process e) w) !! g = None.
Proof.
  intros [Hp _] Hg Hr. destruct (Hp _ _ Hg) as (e' & p & He' & _ & Hpr & Henv).
  assert (e' = e) as -> by congruence.
  unfold on_close, on_error. rewrite Hpr, Henv. unfold pool_holds. simpl.
  rewrite !bool_decide_eq_true_2 by done. simpl. by rewrite lookup_delete_eq.
Qed.

(** C2: what [acquireWarmContainer] returns and what it leaves behind.
    - With a live slot it returns the slot's process and the only changes to
      the world are that the slot is gone from the pool and its idle timer, if
      any, is no longer pending.
    - With no slot it returns [null] and changes nothing.
    - With a slot flagged dead it returns [null] and removes the slot.
    - Whenever it returns a process, that process came from a slot that was
      in the pool and not flagged dead.
    - Right after an eviction of the group (direct or by timer expiry) it
      returns [null]; and in every world the host can reach, it returns
      [null] right after the pooled process closed or reported an error, and
      no slot in the pool is flagged dead. *)
Theorem acquireWarmContainer_correct (g : string) (w : World) :
  (∀ r e, pool w !! g = Some r → heap w !! r = Some e → dead e = false →
     acquireWarmContainer g w =
       (Some (process e),
        mkWorld (delete g (pool w)) (heap w) (procs w)
                (match idleTimer e with
                 | Some t => delete t (timers w)
                 | None => timers w
                 end)
                (nextTimer w)))
  ∧ (pool w !! g = None → acquireWarmContainer g w = (None, w))
  ∧ (∀ r e, pool w !! g = Some r → heap w !! r = Some e → dead e = true →
       acquireWarmContainer g w = (None, set_pool (delete g) w))
  ∧ (∀ pid, (acquireWarmContainer g w).1 = Some pid →
       ∃ r e, pool w !! g = Some r ∧ heap w !! r = Some e
              ∧ dead e = false ∧ process e = pid)
  ∧ (acquireWarmContainer g (evict g w)).1 = None
  ∧ (∀ t, timers w !! t = Some g → (acquireWarmContainer g (fire_timer t w)).1 = None)
  ∧ (reachable w →
       (∀ g' r e, pool w !! g' = Some r → heap w !! r = Some e → dead e = false)
       ∧ (∀ r e, pool w !! g = Some r → heap w !! r = Some e →
            (acquireWarmContainer g (on_close (process e) w)).1 = None
            ∧ (acquireWarmContainer g (on_error (process e) w)).1 = None)).
Proof.
  split_and!.
  - apply acquire_live.
  - apply acquire_absent.
  - apply acquire_dead.
  - apply acquire_Some.
  - apply pool_get_None_acquire, pool_get_evict.
  - intros t Ht. unfold fire_timer. rewrite Ht.
    apply pool_get_None_acquire, pool_get_evict.
  - intros Hreach. pose proof (reachable_wired _ Hreach) as Hw. split.
    + intros g' r e Hg Hr. destruct (wired_pool _ Hw _ _ Hg) as (e' & p & He' & Hd & _).
      congruence.
    + intros r e Hg Hr. destruct (acquire_after_exit _ _ _ _ Hw Hg Hr) as [Hc He].
      split; by apply pool_get_None_acquire, pool_get_absent.
Qed.

(** ** evict *)

Lemma evict_live g w r e :
  pool w !! g = Some r → heap w !! r = Some e → dead e = false →
  evict g w =
    mkWorld (delete g (pool w)) (heap w) (alter terminated (process e) (procs w))
            (match idleTimer e with Some t => delete t (timers w) | None => timers w end)
            (nextTimer w).
Proof.
  intros Hg Hr Hd. unfold evict, pool_get. rewrite Hg, Hr, Hd.
  unfold kill, stdin_end, set_procs, pool_delete, set_pool. simpl.
  rewrite pool_clearIdleTimer, heap_clearIdleTimer, procs_clearIdleTimer,
    timers_clearIdleTimer.
  rewrite list_alter_alter_eq. f_equal.
  unfold clearIdleTimer. by destruct (idleTimer e).
Qed.

Lemma procs_evict g w :
  procs (evict g w) = procs w ∨ ∃ pid, procs (evict g w) = alter terminated pid (procs w).
Proof.
  unfold evict. destruct (pool_get g w) as [[r e]|] eqn:E; [|by left].
  apply pool_get_Some in E as [Hg Hr].
  destruct (dead e) eqn:Hd.
  - left. simpl. apply procs_clearIdleTimer.
  - right. exists (process e).
    pose proof (evict_live _ _ _ _ Hg Hr Hd) as Hev.
    unfold evict, pool_get in Hev. rewrite Hg, Hr, Hd in Hev. by rewrite Hev.
Qed.

Lemma timers_evict g w : timers (evict g w) ⊆ timers w.
Proof.
  unfold evict. destruct (pool_get g w) as [[r e]|]; [|done].
  destruct (dead e); simpl; apply timers_clearIdleTimer_subseteq.
Qed.

Lemma only_SIGTERM_evict g w : only_SIGTERM w → only_SIGTERM (evict g w).
Proof.
  intros Hw pid p. destruct (procs_evict g w) as [->|[pid' ->]]; [apply Hw|].
  destruct (decide (pid' = pid)) as [->|Hne].
  - rewrite list_lookup_alter_eq. destruct (procs w !! pid) as [p0|] eqn:E; [|done].
    simpl. intros [= <-]. simpl. apply Forall_app. split; [by eapply Hw|].
    by constructor.
  - rewrite list_lookup_alter_ne by done. apply Hw.
Qed.

Lemma only_SIGTERM_apply_event ev w : only_SIGTERM w → only_SIGTERM (apply_event ev w).
Proof.
  intros Hw. destruct ev as [g args now|g| |t|pid|pid]; simpl.
  - unfold Pool.warmContainer. destruct (pool_has g w); [done|].
    intros pid p; simpl. intros Hpid.
    apply lookup_app_Some in Hpid as [Hpid|[_ Hpid]]; [by eapply Hw|].
    destruct (pid - length (procs w)); simpl in Hpid; [|done].
    injection Hpid as <-. simpl. constructor.
  - unfold acquireWarmContainer. destruct (pool_get g w) as [[r e]|]; [|done].
    destruct (dead e); simpl; [done|]. intros pid p. simpl.
    rewrite procs_clearIdleTimer. apply Hw.
  - unfold shutdownPool. generalize (map fst (map_to_list (pool w))) as gs.
    intros gs. revert w Hw. induction gs as [|g gs IH]; intros w Hw; simpl; [done|].
    by apply IH, only_SIGTERM_evict.
  - unfold fire_timer. destruct (timers w !! t); [|done]. by apply only_SIGTERM_evict.
  - unfold on_close. destruct (procs w !! pid) as [p|]; [|done].
    destruct (listenerEnv p) as [g r]. by destruct (pool_holds g r w).
  - unfold on_error. destruct (procs w !! pid) as [p|]; [|done].
    destruct (listenerEnv p) as [g r].
    match goal with |- context [if ?b then _ else _] => by destruct b end.
Qed.

Lemma reachable_only_SIGTERM w : reachable w → only_SIGTERM w.
Proof.
  induction 1 as [|w ev _ IH]; [|by apply only_SIGTERM_apply_event].
  intros pid p. done.
Qed.

Lemma only_SIGTERM_events evs w :
  only_SIGTERM w → only_SIGTERM (foldl (λ w ev, apply_event ev w) w evs).
Proof.
  revert w. induction evs as [|ev evs IH]; intros w Hw; simpl; [done|].
  by apply IH, only_SIGTERM_apply_event.
Qed.

(** C9, as the code has it: evicting a group with a live slot removes the
    slot from the pool, cancels the slot's idle timer, closes the standard
    input of the slot's process and sends that process one [SIGTERM].  Nothing
    else changes; in particular no new timer is pending afterwards, so no
    follow-up signal is scheduled.  No run of the pool ever sends a process
    anything but [SIGTERM]. *)
Theorem evict_removes_slot_and_sends_SIGTERM (g : string) (w : World) (r : nat) (e : WarmEntry) :
  pool w !! g = Some r → heap w !! r = Some e → dead e = false →
  evict g w =
    mkWorld (delete g (pool w)) (heap w) (alter terminated (process e) (procs w))
            (match idleTimer e with Some t => delete t (timers w) | None => timers w end)
            (nextTimer w)
  ∧ pool (evict g w) !! g = None
  ∧ timers (evict g w) ⊆ timers w
  ∧ (∀ p, procs w !! process e = Some p →
          procs (evict g w) !! process e =
            Some (mkChildProcess (spawnargs p) true (signals p ++ [SIGTERM]) (listenerEnv p)))
  ∧ (reachable w →
       ∀ evs pid p,
         procs (foldl (λ w ev, apply_event ev w) (evict g w) evs) !! pid = Some p →
         SIGKILL ∉ signals p).
Proof.
  intros Hg Hr Hd. pose proof (evict_live _ _ _ _ Hg Hr Hd) as Hev.
  split; [done|]. split; [|split; [|split]].
  - rewrite Hev. simpl. apply lookup_delete_eq.
  - apply timers_evict.
  - intros p Hp. rewrite Hev. simpl. by rewrite list_lookup_alter_eq, Hp.
  - intros Hreach evs pid p Hp HK.
    pose proof (only_SIGTERM_events evs _
                  (only_SIGTERM_evict g _ (reachable_only_SIGTERM _ Hreach))) as Honly.
    specialize (Honly _ _ Hp). rewrite Forall_forall in Honly.
    by specialize (Honly _ HK).
Qed.

End WithConfig.

(** ** The properties at the sample world *)

Lemma sampleWorld_reachable : reachable sampleIdle sampleWorld.
Proof.
  exact (reachable_step sampleIdle emptyWorld (EvWarm "main" sampleArgs 1000)
           (reachable_init sampleIdle)).
Qed.

(** Warming ["main"] twice from the empty pool, the second time with other
    arguments: one entry, one process, running the first call's arguments. *)
Lemma warmContainer_twice_single_slot_witness :
  warmContainer sampleIdle "main" ["run"; "other"] 2000 sampleWorld = sampleWorld
  ∧ procs (warmContainer sampleIdle "main" ["run"; "other"] 2000 sampleWorld) = [sampleProc]
  ∧ length (spawned_for "main"
              (warmContainer sampleIdle "main" ["run"; "other"] 2000 sampleWorld)) = 1.
Proof.
  destruct (warmContainer_twice_single_slot sampleIdle "main" sampleArgs ["run"; "other"]
              1000 2000 emptyWorld) as (Hsame & _ & Hprocs & Hcount & _).
  split; [exact Hsame|]. split; [exact Hprocs|exact Hcount].
Defined.

(** At the sample world, acquiring ["main"] hands out process 0 and leaves an
    empty pool with no pending timer; after the process reported an error the
    pool has nothing to hand out. *)
Lemma acquireWarmContainer_correct_witness :
  acquireWarmContainer "main" sampleWorld =
    (Some 0, mkWorld ∅ [sampleEntry] [sampleProc] ∅ 1)
  ∧ (acquireWarmContainer "main" (on_error 0 sampleWorld)).1 = None
  ∧ (acquireWarmContainer "main" sampleDeadWorld).1 = None.
Proof.
  destruct (acquireWarmContainer_correct sampleIdle "main" sampleWorld)
    as (Hlive & _ & _ & _ & _ & _ & Hreach).
  destruct (acquireWarmContainer_correct sampleIdle "main" sampleDeadWorld)
    as (_ & _ & Hdead & _).
  split; [|split].
  - rewrite (Hlive 0 sampleEntry); [|reflexivity..]. vm_compute. reflexivity.
  - destruct (Hreach sampleWorld_reachable) as [_ Hexit].
    exact (proj2 (Hexit 0 sampleEntry eq_refl eq_refl)).
  - rewrite (Hdead 0 (mkWarmEntry 0 1000 (Some 0) true)); reflexivity.
Defined.

(** At the sample world, evicting ["main"] empties the pool, cancels the
    timer, and leaves process 0 with its input closed and one [SIGTERM]. *)
Lemma evict_removes_slot_and_sends_SIGTERM_witness :
  evict "main" sampleWorld =
    mkWorld ∅ [sampleEntry] [mkChildProcess sampleArgs true [SIGTERM] ("main", 0)] ∅ 1
  ∧ pool (evict "main" sampleWorld) !! "main" = None.
Proof.
  destruct (evict_removes_slot_and_sends_SIGTERM sampleIdle "main" sampleWorld 0 sampleEntry
              eq_refl eq_refl eq_refl) as (Hev & Hgone & _).
  split; [|exact Hgone].
  rewrite Hev. vm_compute. reflexivity.
Defined.

(** C9 as stated fails: the sample world holds a live idle slot for
    ["main"]; evicting it sends process 0 a [SIGTERM] and leaves no timer
    pending, and whatever happens afterwards the process is never sent
    [SIGKILL]. *)
Lemma evict_never_escalates :
  pool_get "main" sampleWorld = Some (0, sampleEntry)
  ∧ procs (evict "main" sampleWorld) =
      [mkChildProcess sampleArgs true [SIGTERM] ("main", 0)]
  ∧ timers (evict "main" sampleWorld) = ∅
  ∧ ¬ escalates_to_SIGKILL sampleIdle (evict "main" sampleWorld) 0.
Proof.
  split; [reflexivity|]. split; [reflexivity|]. split; [reflexivity|].
  intros (evs & p & Hp & HK).
  pose proof (only_SIGTERM_events sampleIdle evs _
                (only_SIGTERM_evict "main" _
                   (reachable_only_SIGTERM _ _ sampleWorld_reachable))) as Honly.
  specialize (Honly _ _ Hp). rewrite Forall_forall in Honly.
  by specialize (Honly _ HK).
Qed.

End PoolSpec.

(* ===================================================================== *)
(** * Properties of the IPC tools                                        *)
(* ===================================================================== *)

Module IpcSpec.
Import Ipc.
Local Open Scope fs_scope.

#[local] Arguments ipc_filename : simpl never.
#[local] Arguments JSON_stringify : simpl never.
#[local] Arguments path_join : simpl never.
#[local] Arguments String.length : simpl never.
#[local] Arguments substring : simpl never.

(** ** writeIpcFile *)

Lemma string_length_app (a b : string) :
  String.length (a +:+ b) = String.length a + String.length b.
Proof.
  induction a as [|c a IH]; [done|].
  change (S (String.length (a +:+ b)) = S (String.length a + String.length b)).
  by rewrite IH.
Qed.

Lemma temp_path_fresh (filepath : string) : filepath +:+ ".tmp" ≠ filepath.
Proof.
  intros Heq. apply (f_equal String.length) in Heq.
  rewrite string_length_app in Heq.
  change (String.length ".tmp") with 4 in Heq. lia.
Qed.

(** The states [writeIpcFile] takes the file system through: the directory
    is made, the temporary file grows to the full content, the rename makes
    it the final file. *)
Lemma writeIpcFile_run dir data nowMs rnd fs :
  let filename := ipc_filename nowMs rnd in
  let filepath := path_join dir filename in
  let tempPath := filepath +:+ ".tmp" in
  let content := JSON_stringify data in
  let fs1 := mkFS (files fs) ({[dir]} ∪ dirs fs) in
  let fs2 := set_files (<[tempPath := content]>) fs1 in
  let fs3 := set_files (λ m, <[filepath := content]> (delete tempPath m)) fs2 in
  writeIpcFile dir data nowMs rnd fs =
    mkRun (Ok filename) fs3
      ([fs1]
       ++ (((λ k, set_files (<[tempPath := substring 0 k content]>) fs1)
              <$> seq 0 (String.length content)) ++ [fs2])
       ++ [fs3] ++ []).
Proof.
  cbv zeta. unfold writeIpcFile, bind, mkdirSync, writeFileSync, renameSync, ret.
  cbn [outcome final seen files dirs set_files].
  rewrite lookup_insert_eq. cbn [outcome final seen files dirs set_files]. done.
Qed.

(** C4: [writeIpcFile] returns the file name it picked and leaves the final
    path holding the complete JSON text, with the temporary file gone.  In
    every state the file system goes through on the way, the final path holds
    either what it held before the call or the complete text, never a part of
    it: up to and including the state in which the temporary file is complete
    the final path is as before the call, and the one state after that is the
    result of the rename.  No path other than the final and the temporary one
    changes. *)
Theorem writeIpcFile_atomic (dir : string) (data : json) (nowMs : Z) (rnd : string) (fs : FS) :
  let r := writeIpcFile dir data nowMs rnd fs in
  let filepath := path_join dir (ipc_filename nowMs rnd) in
  let tempPath := filepath +:+ ".tmp" in
  let content := JSON_stringify data in
  outcome r = Ok (ipc_filename nowMs rnd)
  ∧ files (final r) = <[filepath := content]> (delete tempPath (files fs))
  ∧ files (final r) !! filepath = Some content
  ∧ files (final r) !! tempPath = None
  ∧ Forall (λ fs', files fs' !! filepath = files fs !! filepath
                   ∨ files fs' !! filepath = Some content) (seen r)
  ∧ (∃ before ready,
       seen r = before ++ [ready; final r]
       ∧ Forall (λ fs', files fs' !! filepath = files fs !! filepath) (before ++ [ready])
       ∧ files ready !! tempPath = Some content)
  ∧ Forall (λ fs', ∀ path, path ≠ filepath → path ≠ tempPath →
                           files fs' !! path = files fs !! path) (seen r).
Proof.
  intros r filepath tempPath content. subst r.
  rewrite writeIpcFile_run. cbv zeta.
  fold filepath. fold tempPath. fold content.
  pose proof (temp_path_fresh filepath) as Hfresh. fold tempPath in Hfresh.
  clearbody content tempPath filepath.
  cbn [outcome final seen files dirs set_files].
  assert (∀ c, (<[tempPath := c]> (files fs) : gmap string string) !! filepath
               = files fs !! filepath) as Hkeep.
  { intros c. by rewrite lookup_insert_ne. }
  split; [reflexivity|]. split.
  { by rewrite delete_insert_eq. }
  split; [by rewrite lookup_insert_eq|]. split.
  { rewrite lookup_insert_ne by done. by rewrite lookup_delete_eq. }
  split.
  { constructor; [by left|]. apply Forall_app. split.
    - apply Forall_app. split.
      + apply Forall_fmap, Forall_forall. intros k _. simpl. left. apply Hkeep.
      + constructor; [|done]. left. apply Hkeep.
    - constructor; [|done]. right. simpl. by rewrite lookup_insert_eq. }
  split.
  { exists ({| files := files fs; dirs := {[dir]} ∪ dirs fs |}
             :: ((λ k, set_files (<[tempPath := substring 0 k content]>)
                         {| files := files fs; dirs := {[dir]} ∪ dirs fs |})
                   <$> seq 0 (String.length content))),
           (set_files (<[tempPath := content]>)
              {| files := files fs; dirs := {[dir]} ∪ dirs fs |}).
    split; [|split].
    - simpl. by rewrite <- app_assoc.
    - rewrite <- app_comm_cons. constructor; [done|].
      apply Forall_app. split.
      + apply Forall_fmap, Forall_forall. intros k _. simpl. apply Hkeep.
      + constructor; [|done]. apply Hkeep.
    - simpl. by rewrite lookup_insert_eq. }
  constructor; [done|]. apply Forall_app. split.
  - apply Forall_app. split.
    + apply Forall_fmap, Forall_forall. intros k _ path _ Hp. simpl.
      by rewrite lookup_insert_ne.
    + constructor; [|done]. intros path _ Hp. simpl. by rewrite lookup_insert_ne.
  - constructor; [|done]. intros path Hp1 Hp2. simpl.
    rewrite lookup_insert_ne by done. rewrite lookup_delete_ne by done.
    by rewrite lookup_insert_ne.
Qed.

(** Writing a one-field envelope into the empty file system: the file ends
    up under its final name with the whole text, the temporary file is gone,
    and the last state before the rename has the temporary file complete. *)
Lemma writeIpcFile_atomic_witness :
  outcome (writeIpcFile TASKS_DIR (JObj [("type", JStr "pause_task")])
             sampleNowMs sampleRnd emptyFS)
    = Ok "1769959800000-k3x9ab.json"
  ∧ files (final (writeIpcFile TASKS_DIR (JObj [("type", JStr "pause_task")])
                    sampleNowMs sampleRnd emptyFS)) !! sampleTaskFile
    = Some (JSON_stringify (JObj [("type", JStr "pause_task")]))
  ∧ files (final (writeIpcFile TASKS_DIR (JObj [("type", JStr "pause_task")])
                    sampleNowMs sampleRnd emptyFS)) !! (sampleTaskFile +:+ ".tmp")
    = None
  ∧ Forall (λ fs', files fs' !! sampleTaskFile = None
                   ∨ files fs' !! sampleTaskFile
                     = Some (JSON_stringify (JObj [("type", JStr "pause_task")])))
           (seen (writeIpcFile TASKS_DIR (JObj [("type", JStr "pause_task")])
                    sampleNowMs sampleRnd emptyFS)).
Proof.
  destruct (writeIpcFile_atomic TASKS_DIR (JObj [("type", JStr "pause_task")])
              sampleNowMs sampleRnd emptyFS) as (Hout & _ & Hfile & Htemp & Hseen & _).
  split; [exact Hout|]. split; [exact Hfile|]. split; [exact Htemp|exact Hseen].
Defined.

(** ** waitForEmailResult *)

Section Wait.
Variable JSON_parse : string → Outcome json.
Variable host : Z → FS → FS.

Local Abbreviation waitLoop := (Ipc.waitLoop JSON_parse host).
Local Abbreviation waitForEmailResult := (Ipc.waitForEmailResult JSON_parse host).
Local Abbreviation consumeResult := (Ipc.consumeResult JSON_parse).
Local Abbreviation poll_state := (Ipc.poll_state host).

Lemma waitLoop_expired f maxWait elapsed fs :
  ¬ (elapsed < maxWait)%Z →
  waitLoop f maxWait elapsed fs = mkRun (Ok (failure "Request timed out")) fs [].
Proof.
  intros Hge. rewrite waitLoop_equation_1. destruct (decide (elapsed < maxWait)%Z); done.
Qed.

Lemma waitLoop_found f maxWait elapsed fs text :
  (elapsed < maxWait)%Z → files fs !! f = Some text →
  waitLoop f maxWait elapsed fs = consumeResult f fs.
Proof.
  intros Hlt Hf. rewrite waitLoop_equation_1.
  destruct (decide (elapsed < maxWait)%Z); [|done]. simpl.
  unfold bind at 1, existsSync. cbn [outcome final seen].
  rewrite bool_decide_eq_true_2 by (rewrite Hf; eauto).
  by destruct (consumeResult f fs).
Qed.

Lemma waitLoop_sleep f maxWait elapsed fs :
  (elapsed < maxWait)%Z → files fs !! f = None →
  waitLoop f maxWait elapsed fs =
    let r := waitLoop f maxWait (elapsed + pollInterval) (host elapsed fs) in
    mkRun (outcome r) (final r) (host elapsed fs :: seen r).
Proof.
  intros Hlt Hf. rewrite waitLoop_equation_1.
  destruct (decide (elapsed < maxWait)%Z); [|done]. simpl.
  unfold bind, existsSync, sleep. cbn [outcome final seen].
  rewrite bool_decide_eq_false_2 by (rewrite Hf; by intros [? ?]).
  cbn [outcome final seen]. done.
Qed.

Lemma consumeResult_parsed f fs text result :
  files fs !! f = Some text → JSON_parse text = Ok result →
  consumeResult f fs =
    mkRun (Ok result) (set_files (delete f) fs) [set_files (delete f) fs].
Proof.
  intros Hf Hparse.
  unfold Ipc.consumeResult, try_catch, bind, readFileSync, parse, unlinkSync, ret.
  rewrite Hf. cbn [outcome final seen]. rewrite Hparse. cbn [outcome final seen].
  rewrite Hf. done.
Qed.

Lemma consumeResult_malformed f fs text err :
  files fs !! f = Some text → JSON_parse text = Throw err →
  consumeResult f fs =
    mkRun (Ok (failure ("Failed to read result: " +:+ err))) fs [].
Proof.
  intros Hf Hparse.
  unfold Ipc.consumeResult, try_catch, bind, readFileSync, parse, unlinkSync, ret.
  rewrite Hf. cbn [outcome final seen]. rewrite Hparse. done.
Qed.

(** While the file is absent the loop goes on from the next state. *)
Lemma waitLoop_skip f maxWait (n : nat) : ∀ elapsed fs,
  (elapsed + pollInterval * Z.of_nat n < maxWait)%Z →
  (∀ k, k < n → files (poll_state elapsed fs k) !! f = None) →
  outcome (waitLoop f maxWait elapsed fs)
    = outcome (waitLoop f maxWait (elapsed + pollInterval * Z.of_nat n) (poll_state elapsed fs n))
  ∧ final (waitLoop f maxWait elapsed fs)
    = final (waitLoop f maxWait (elapsed + pollInterval * Z.of_nat n) (poll_state elapsed fs n)).
Proof.
  unfold pollInterval.
  induction n as [|n IH]; intros elapsed fs Hlt Habsent.
  - simpl. by replace (elapsed + 500 * Z.of_nat 0)%Z with elapsed by lia.
  - rewrite waitLoop_sleep; [|lia|exact (Habsent 0 ltac:(lia))].
    cbv zeta. cbn [outcome final].
    replace (elapsed + 500 * Z.of_nat (S n))%Z with ((elapsed + pollInterval) + 500 * Z.of_nat n)%Z
      by (unfold pollInterval; lia).
    simpl. apply IH; [unfold pollInterval; lia|].
    intros k Hk. exact (Habsent (S k) ltac:(lia)).
Qed.

Lemma waitLoop_never_found f maxWait : ∀ (n : nat) elapsed fs,
  (maxWait - elapsed ≤ pollInterval * Z.of_nat n)%Z →
  (∀ k : nat, (elapsed + pollInterval * Z.of_nat k < maxWait)%Z →
              files (poll_state elapsed fs k) !! f = None) →
  outcome (waitLoop f maxWait elapsed fs) = Ok (failure "Request timed out").
Proof.
  unfold pollInterval.
  induction n as [|n IH]; intros elapsed fs Hn Habsent.
  - rewrite waitLoop_expired by lia. done.
  - destruct (decide (elapsed < maxWait)%Z) as [Hlt|Hge].
    + rewrite waitLoop_sleep; [|done|exact (Habsent 0 ltac:(lia))].
      cbv zeta. cbn [outcome]. apply IH; [unfold pollInterval; lia|].
      intros k Hk. apply (Habsent (S k)). unfold pollInterval in Hk. lia.
    + rewrite waitLoop_expired by done. done.
Qed.

Lemma consumeResult_returns f fs : ∃ v, outcome (consumeResult f fs) = Ok v.
Proof.
  unfold Ipc.consumeResult, try_catch, bind, readFileSync, parse, unlinkSync, ret.
  destruct (files fs !! f) as [text|] eqn:Hf; cbn [outcome final seen]; [|eauto].
  destruct (JSON_parse text) as [v|err]; cbn [outcome final seen]; [|eauto].
  rewrite Hf. cbn [outcome]. eauto.
Qed.

Lemma waitLoop_returns f maxWait : ∀ (n : nat) elapsed fs,
  (maxWait - elapsed ≤ pollInterval * Z.of_nat n)%Z →
  ∃ v, outcome (waitLoop f maxWait elapsed fs) = Ok v.
Proof.
  unfold pollInterval.
  induction n as [|n IH]; intros elapsed fs Hn.
  - rewrite waitLoop_expired by lia. eauto.
  - destruct (decide (elapsed < maxWait)%Z) as [Hlt|Hge];
      [|rewrite waitLoop_expired by done; eauto].
    destruct (files fs !! f) as [text|] eqn:Hf.
    + rewrite (waitLoop_found _ _ _ _ _ Hlt Hf). apply consumeResult_returns.
    + rewrite waitLoop_sleep by done. cbv zeta. cbn [outcome].
      apply IH. unfold pollInterval. lia.
Qed.

(** C3: the wait for the result of request [requestId], with the host
    acting between the polls.  Suppose the result file is absent at the first
    [n] polls and present at the next one, which starts before [maxWait] has
    elapsed.  If its content parses, the parsed value is returned and the file
    is deleted: it no longer exists afterwards and nothing else changed.  If
    its content does not parse, a failure reporting the read error is returned
    (the file stays).  If the file is absent at every poll that starts before
    [maxWait], the failure "Request timed out" is returned.  In every case the
    wait ends and returns a value; it never throws. *)
Theorem waitForEmailResult_outcomes (requestId : string) (maxWait : Z) (fs : FS) :
  let resultFile := path_join EMAIL_RESULTS_DIR (requestId +:+ ".json") in
  let r := waitForEmailResult requestId maxWait fs in
  (∀ (n : nat) text,
     (pollInterval * Z.of_nat n < maxWait)%Z →
     (∀ k, k < n → files (poll_state 0 fs k) !! resultFile = None) →
     files (poll_state 0 fs n) !! resultFile = Some text →
     match JSON_parse text with
     | Ok result =>
         outcome r = Ok result
         ∧ final r = set_files (delete resultFile) (poll_state 0 fs n)
         ∧ files (final r) !! resultFile = None
     | Throw err =>
         outcome r = Ok (failure ("Failed to read result: " +:+ err))
         ∧ final r = poll_state 0 fs n
     end)
  ∧ ((∀ k : nat, (pollInterval * Z.of_nat k < maxWait)%Z →
                 files (poll_state 0 fs k) !! resultFile = None) →
     outcome r = Ok (failure "Request timed out"))
  ∧ (∃ v, outcome r = Ok v).
Proof.
  intros resultFile r. subst r. unfold Ipc.waitForEmailResult. fold resultFile.
  clearbody resultFile. split; [|split].
  - intros n text Hlt Habsent Hfound.
    destruct (waitLoop_skip resultFile maxWait n 0 fs ltac:(lia) Habsent) as [Ho Hf].
    rewrite Ho, Hf. rewrite (waitLoop_found _ _ _ _ text) by (done || lia).
    destruct (JSON_parse text) as [result|err] eqn:Hparse.
    + rewrite (consumeResult_parsed _ _ _ _ Hfound Hparse). cbn [outcome final].
      split_and!; [done..|]. cbn. apply lookup_delete_eq.
    + rewrite (consumeResult_malformed _ _ _ _ Hfound Hparse). by cbn [outcome final].
  - intros Habsent.
    apply (waitLoop_never_found _ _ (Z.to_nat maxWait)).
    + unfold pollInterval. lia.
    + intros k Hk. apply Habsent. lia.
  - apply (waitLoop_returns _ _ (Z.to_nat maxWait)). unfold pollInterval. lia.
Qed.

End Wait.

(** At the sample inputs: a host that answers during the second sleep with a
    document that parses, one that answers with a document that does not, and
    one that never answers. *)
Lemma waitForEmailResult_outcomes_witness :
  (outcome (waitForEmailResult sampleParse (sampleHost "{}") "req-1" 30000 emptyFS)
     = Ok (JObj [])
   ∧ files (final (waitForEmailResult sampleParse (sampleHost "{}") "req-1" 30000 emptyFS))
       !! sampleResultFile = None)
  ∧ outcome (waitForEmailResult sampleParse (sampleHost "{oops") "req-1" 30000 emptyFS)
      = Ok (failure "Failed to read result: SyntaxError: Unexpected token")
  ∧ outcome (waitForEmailResult sampleParse silentHost "req-1" 30000 emptyFS)
      = Ok (failure "Request timed out").
Proof.
  split; [|split].
  - destruct (waitForEmailResult_outcomes sampleParse (sampleHost "{}") "req-1" 30000 emptyFS)
      as (Hfound & _).
    specialize (Hfound 2 "{}").
    destruct Hfound as (Ho & _ & Hgone); [unfold pollInterval; lia| |reflexivity|].
    + intros [|[|k]] Hk; [reflexivity|reflexivity|lia].
    + split; [exact Ho|exact Hgone].
  - destruct (waitForEmailResult_outcomes sampleParse (sampleHost "{oops") "req-1" 30000 emptyFS)
      as (Hfound & _).
    specialize (Hfound 2 "{oops").
    destruct Hfound as (Ho & _); [unfold pollInterval; lia| |reflexivity|].
    + intros [|[|k]] Hk; [reflexivity|reflexivity|lia].
    + exact Ho.
  - destruct (waitForEmailResult_outcomes sampleParse silentHost "req-1" 30000 emptyFS)
      as (_ & Htimeout & _).
    apply Htimeout. intros k _. generalize 0%Z.
    induction k as [|k IH]; intros elapsed; [reflexivity|]. apply IH.
Defined.

(** ** schedule_task *)

Section Tools.
Variable cron_parses : string → bool.
Variable date_valid : string → bool.

Local Abbreviation schedule_task := (Ipc.schedule_task cron_parses date_valid).
Local Abbreviation schedule_value_error := (Ipc.schedule_value_error cron_parses date_valid).

(** A value the validation block rejects is answered with an error and
    nothing touches the file system. *)
Lemma schedule_task_invalid ctx args nowMs rnd isoNow fs message :
  schedule_value_error args = Some message →
  schedule_task ctx args nowMs rnd isoNow fs = mkRun (Ok (mkToolResult message true)) fs [].
Proof. intros Herr. unfold Ipc.schedule_task. by rewrite Herr. Qed.

(** A value the validation block lets through is written to the tasks
    directory as one envelope. *)
Lemma schedule_task_valid ctx args nowMs rnd isoNow fs :
  schedule_value_error args = None →
  outcome (schedule_task ctx args nowMs rnd isoNow fs)
    = Ok (mkToolResult
            ("Task scheduled (" +:+ ipc_filename nowMs rnd +:+ "): "
             +:+ schedule_type_name (schedule_type args) +:+ " - " +:+ schedule_value args)
            false)
  ∧ files (final (schedule_task ctx args nowMs rnd isoNow fs))
      !! path_join TASKS_DIR (ipc_filename nowMs rnd)
    = Some (JSON_stringify (schedule_task_data ctx args isoNow)).
Proof.
  intros Hok. unfold Ipc.schedule_task. rewrite Hok.
  unfold bind. rewrite writeIpcFile_run. cbv zeta.
  cbn [outcome final seen files set_files ret]. split; [done|].
  apply lookup_insert_eq.
Qed.

(** Which interval values the validation block lets through: those whose
    leading digits, after optional white space and sign, write a number
    greater than zero. *)
Lemma interval_accepted args :
  schedule_type args = Interval →
  schedule_value_error args = None ↔
  ∃ n, parseInt (schedule_value args) = Some n ∧ (0 < n)%Z.
Proof.
  intros Hty. unfold Ipc.schedule_value_error. rewrite Hty.
  destruct (parseInt (schedule_value args)) as [n|].
  - case_bool_decide as Hn; split; try done.
    + intros (n' & [= <-] & Hpos). lia.
    + intros _. exists n. split; [done|lia].
  - split; [done|]. by intros (n & [=] & _).
Qed.

(** Every positive integer is let through: the validation only errs on the
    side of accepting too much. *)
Lemma parseInt_digits s :
  all_digits s = true → parseInt s = read_digits None s.
Proof.
  destruct s as [|c s]; [done|]. intros Hall.
  apply andb_true_iff in Hall as [Hc _].
  apply bool_decide_eq_true in Hc as [d Hd].
  destruct c as [[] [] [] [] [] [] [] []]; try discriminate Hd; reflexivity.
Qed.

Lemma positive_integer_accepted args :
  schedule_type args = Interval →
  positive_integer_text (schedule_value args) = true →
  schedule_value_error args = None.
Proof.
  intros Hty Hpos. apply interval_accepted; [done|].
  unfold positive_integer_text in Hpos.
  apply andb_true_iff in Hpos as [Hpos Hval].
  apply andb_true_iff in Hpos as [_ Hall].
  rewrite (parseInt_digits _ Hall).
  destruct (read_digits None (schedule_value args)) as [n|]; [|done].
  apply bool_decide_eq_true in Hval. eauto.
Qed.

Lemma targetGroup_non_main ctx args :
  isMain ctx = false → targetGroup ctx args = groupFolder ctx.
Proof.
  intros Hmain. unfold targetGroup. rewrite Hmain. by destruct (target_group args).
Qed.

(** C10: when the caller is not the main group, the [target_group] argument
    has no influence at all: two calls that differ only in it run identically
    (same answer, same file system afterwards, same states on the way), the
    [groupFolder] field of the envelope is the caller's own group folder, and
    when the schedule value passes validation that envelope is what the file
    written to the tasks directory holds. *)
Theorem schedule_task_non_main_own_group
    (ctx : IpcMcpContext) (prompt : string) (ty : ScheduleType) (value : string)
    (mode : ContextMode) (target1 target2 : option string)
    (nowMs : Z) (rnd isoNow : string) (fs : FS) :
  isMain ctx = false →
  let args1 := mkScheduleTaskArgs prompt ty value mode target1 in
  let args2 := mkScheduleTaskArgs prompt ty value mode target2 in
  schedule_task ctx args1 nowMs rnd isoNow fs = schedule_task ctx args2 nowMs rnd isoNow fs
  ∧ json_field "groupFolder" (schedule_task_data ctx args1 isoNow)
      = Some (JStr (groupFolder ctx))
  ∧ (schedule_value_error args1 = None →
       files (final (schedule_task ctx args1 nowMs rnd isoNow fs))
         !! path_join TASKS_DIR (ipc_filename nowMs rnd)
       = Some (JSON_stringify (schedule_task_data ctx args1 isoNow))).
Proof.
  intros Hmain args1 args2.
  assert (schedule_task_data ctx args1 isoNow = schedule_task_data ctx args2 isoNow) as Hdata.
  { unfold schedule_task_data. by rewrite !targetGroup_non_main. }
  split; [|split].
  - unfold Ipc.schedule_task. rewrite Hdata. done.
  - unfold schedule_task_data. rewrite targetGroup_non_main by done. reflexivity.
  - intros Hok. by apply schedule_task_valid.
Qed.

End Tools.

(** At the sample context (the non-main group ["family"]): asking for
    ["main"] as target changes nothing, and the envelope written names
    ["family"]. *)
Lemma schedule_task_non_main_own_group_witness :
  schedule_task noCron noDate sampleCtx
    (mkScheduleTaskArgs "check mail" Interval "300000" Group (Some "main"))
    sampleNowMs sampleRnd sampleIso emptyFS
  = schedule_task noCron noDate sampleCtx
      (mkScheduleTaskArgs "check mail" Interval "300000" Group None)
      sampleNowMs sampleRnd sampleIso emptyFS
  ∧ json_field "groupFolder"
      (schedule_task_data sampleCtx
         (mkScheduleTaskArgs "check mail" Interval "300000" Group (Some "main")) sampleIso)
    = Some (JStr "family").
Proof.
  destruct (schedule_task_non_main_own_group noCron noDate sampleCtx "check mail" Interval
              "300000" Group (Some "main") None sampleNowMs sampleRnd sampleIso emptyFS
              eq_refl) as (Hsame & Hfield & _).
  split; [exact Hsame|exact Hfield].
Defined.

(** C7 fails for intervals: the value ["5 minutes"] is not a positive
    integer, yet the handler reads it as 5, reports success, and writes an
    envelope carrying the text ["5 minutes"] to the tasks directory. *)
Theorem schedule_task_accepts_malformed_interval :
  positive_integer_text "5 minutes" = false
  ∧ parseInt "5 minutes" = Some 5%Z
  ∧ outcome (schedule_task noCron noDate sampleCtx sampleIntervalArgs
               sampleNowMs sampleRnd sampleIso emptyFS)
    = Ok (mkToolResult
            "Task scheduled (1769959800000-k3x9ab.json): interval - 5 minutes" false)
  ∧ files (final (schedule_task noCron noDate sampleCtx sampleIntervalArgs
                    sampleNowMs sampleRnd sampleIso emptyFS)) !! sampleTaskFile
    = Some (JSON_stringify (schedule_task_data sampleCtx sampleIntervalArgs sampleIso))
  ∧ json_field "schedule_value" (schedule_task_data sampleCtx sampleIntervalArgs sampleIso)
    = Some (JStr "5 minutes").
Proof. split_and!; vm_compute; reflexivity. Qed.

End IpcSpec.

(* ===================================================================== *)
(** * Properties of the task store                                       *)
(* ===================================================================== *)

Module DbSpec.
Import Db.

(** ** [text_le] is a total preorder *)

#[global] Instance text_le_trans : Transitive text_le.
Proof. unfold text_le. apply _. Qed.

#[global] Instance text_le_total : Total text_le.
Proof. unfold text_le. apply _. Qed.

#[global] Instance nullable_le_trans : Transitive nullable_le.
Proof.
  intros [a|] [b|] [c|]; simpl; try done. apply text_le_trans.
Qed.

#[global] Instance nullable_le_total : Total nullable_le.
Proof. intros [a|] [b|]; simpl; auto. apply text_le_total. Qed.

#[global] Instance by_next_run_trans : Transitive by_next_run.
Proof. intros t1 t2 t3. unfold by_next_run. apply nullable_le_trans. Qed.

#[global] Instance by_next_run_total : Total by_next_run.
Proof. intros t1 t2. unfold by_next_run. apply nullable_le_total. Qed.

(** ** getDueTasks *)

(** C6: the rows [getDueTasks] returns are, up to order, the rows of
    [scheduled_tasks] that are ['active'] with a non-null [next_run] at or
    before [now] (each as often as the table has it), and they come earliest
    [next_run] first: a row never precedes one with a smaller [next_run]. *)
Theorem getDueTasks_due_and_sorted (now : string) (db : Database) :
  getDueTasks now db ≡ₚ filter (is_due now) (scheduled_tasks db)
  ∧ (∀ t, t ∈ getDueTasks now db ↔
          t ∈ scheduled_tasks db ∧ status t = "active"
          ∧ ∃ nr, next_run t = Some nr ∧ text_le nr now)
  ∧ StronglySorted by_next_run (getDueTasks now db)
  ∧ (∀ i j ti tj, i < j →
       getDueTasks now db !! i = Some ti → getDueTasks now db !! j = Some tj →
       ∃ a b, next_run ti = Some a ∧ next_run tj = Some b ∧ text_le a b).
Proof.
  assert (getDueTasks now db ≡ₚ filter (is_due now) (scheduled_tasks db)) as Hperm
    by apply merge_sort_Permutation.
  assert (∀ t, t ∈ getDueTasks now db ↔
               t ∈ scheduled_tasks db ∧ status t = "active"
               ∧ ∃ nr, next_run t = Some nr ∧ text_le nr now) as Hmem.
  { intros t. rewrite Hperm, list_elem_of_filter. unfold is_due. tauto. }
  assert (StronglySorted by_next_run (getDueTasks now db)) as Hsorted
    by apply (StronglySorted_merge_sort _).
  split_and!; try done.
  intros i j ti tj Hij Hi Hj.
  assert (by_next_run ti tj) as Hle.
  { clear Hperm Hmem. revert i j Hij Hi Hj.
    induction Hsorted as [|t l _ IH Hall]; intros i j Hij Hi Hj; [done|].
    destruct j as [|j]; [lia|]. destruct i as [|i]; simpl in *.
    - injection Hi as ->. rewrite Forall_forall in Hall.
      apply Hall. by eapply list_elem_of_lookup_2.
    - eapply (IH i j); [lia|done..]. }
  destruct (proj1 (Hmem ti) (list_elem_of_lookup_2 _ _ _ Hi)) as (_ & _ & a & Ha & _).
  destruct (proj1 (Hmem tj) (list_elem_of_lookup_2 _ _ _ Hj)) as (_ & _ & b & Hb & _).
  exists a, b. unfold by_next_run in Hle. rewrite Ha, Hb in Hle. done.
Qed.

(** At the sample database, evaluated at 15:30: the interval task (due since
    15:00) comes before the one-shot task (due at 15:30); the paused task is
    left out. *)
Lemma getDueTasks_due_and_sorted_witness :
  getDueTasks "2026-02-01T15:30:00.000Z" sampleDb = [sampleInterval; sampleOnce]
  ∧ ∃ a b, next_run sampleInterval = Some a ∧ next_run sampleOnce = Some b ∧ text_le a b.
Proof.
  split; [vm_compute; reflexivity|].
  destruct (getDueTasks_due_and_sorted "2026-02-01T15:30:00.000Z" sampleDb)
    as (_ & _ & _ & Hord).
  apply (Hord 0 1); [lia|vm_compute; reflexivity..].
Defined.

(** ** updateTaskAfterRun *)

Lemma head_filter_map_update {A} (P : A → Prop) `{∀ x, Decision (P x)} (f : A → A) l :
  (∀ x, P (f x) ↔ P x) →
  head (filter P (map (λ x, if decide (P x) then f x else x) l)) = f <$> head (filter P l).
Proof.
  intros Hf. induction l as [|x l IH]; simpl; [done|].
  destruct (decide (P x)) as [Hx|Hx].
  - rewrite !filter_cons_True by (done || by apply Hf). done.
  - rewrite !filter_cons_False by done. exact IH.
Qed.

Lemma head_filter_map_other {A} (P Q : A → Prop)
    `{∀ x, Decision (P x)} `{∀ x, Decision (Q x)} (f : A → A) l :
  (∀ x, Q x → ¬ P x) → (∀ x, Q x → ¬ P (f x)) →
  head (filter P (map (λ x, if decide (Q x) then f x else x) l)) = head (filter P l).
Proof.
  intros HQ HQf. induction l as [|x l IH]; simpl; [done|].
  destruct (decide (Q x)) as [Hx|Hx].
  - rewrite !filter_cons_False by auto. exact IH.
  - destruct (decide (P x)).
    + by rewrite !filter_cons_True by done.
    + by rewrite !filter_cons_False by done.
Qed.

(** C5: for a task [i] the store holds, [updateTaskAfterRun] leaves the task
    with [next_run] as given, [last_run] the time of the update and
    [last_result] as given, whatever the result text says; its [status]
    becomes ['completed'] when the given [next_run] is null and stays as it
    was otherwise; its other columns are as before.  No row with id [i]
    escapes the update, every other task and the run logs are untouched. *)
Theorem updateTaskAfterRun_sets_run_fields
    (i : string) (nextRun : option string) (lastResult now : string)
    (db : Database) (t : ScheduledTask) :
  getTaskById i db = Some t →
  let db' := updateTaskAfterRun i nextRun lastResult now db in
  (∃ t', getTaskById i db' = Some t'
         ∧ next_run t' = nextRun
         ∧ status t' = match nextRun with None => "completed" | Some _ => status t end
         ∧ last_run t' = Some now
         ∧ last_result t' = Some lastResult
         ∧ (id t', group_folder t', chat_jid t', prompt t',
            schedule_type t', schedule_value t', context_mode t', created_at t')
           = (id t, group_folder t, chat_jid t, prompt t,
              schedule_type t, schedule_value t, context_mode t, created_at t))
  ∧ Forall (λ t', id t' = i →
              next_run t' = nextRun ∧ last_run t' = Some now
              ∧ last_result t' = Some lastResult
              ∧ (nextRun = None → status t' = "completed"))
           (scheduled_tasks db')
  ∧ (∀ j, j ≠ i → getTaskById j db' = getTaskById j db)
  ∧ task_run_logs db' = task_run_logs db.
Proof.
  intros Hget. cbv zeta. unfold getTaskById, updateTaskAfterRun in *. simpl.
  split_and!.
  - exists (after_run nextRun now lastResult t).
    rewrite (head_filter_map_update (λ t, id t = i)) by done.
    rewrite Hget. done.
  - apply Forall_forall. intros t' Hin.
    apply list_elem_of_fmap in Hin as (t0 & -> & _).
    destruct (decide (id t0 = i)) as [_|Hne]; [|done].
    intros _. simpl. split_and!; try done. by intros ->.
  - intros j Hj.
    apply (head_filter_map_other (λ t, id t = j) (λ t, id t = i)); simpl; congruence.
  - done.
Qed.

(** At the sample database: after its run the one-shot task is completed
    with no next run, whether the run succeeded or failed; the interval task
    gets its next run and stays active. *)
Lemma updateTaskAfterRun_sets_run_fields_witness :
  (∃ t', getTaskById "task-1"
           (updateTaskAfterRun "task-1" None "Error: timeout" "2026-02-01T15:31:00.000Z" sampleDb)
         = Some t'
         ∧ next_run t' = None ∧ status t' = "completed")
  ∧ (∃ t', getTaskById "task-2"
             (updateTaskAfterRun "task-2" (Some "2026-02-01T15:05:00.000Z") "ok"
                "2026-02-01T15:00:02.000Z" sampleDb)
           = Some t'
           ∧ next_run t' = Some "2026-02-01T15:05:00.000Z" ∧ status t' = "active").
Proof.
  split.
  - destruct (updateTaskAfterRun_sets_run_fields "task-1" None "Error: timeout"
                "2026-02-01T15:31:00.000Z" sampleDb sampleOnce eq_refl)
      as ((t' & Hget & Hnr & Hst & _) & _).
    exists t'. split_and!; done.
  - destruct (updateTaskAfterRun_sets_run_fields "task-2" (Some "2026-02-01T15:05:00.000Z")
                "ok" "2026-02-01T15:00:02.000Z" sampleDb sampleInterval eq_refl)
      as ((t' & Hget & Hnr & Hst & _) & _).
    exists t'. split_and!; done.
Defined.

(** ** deleteTask *)

Lemma filter_filter_None {A} (P Q : A → Prop)
    `{∀ x, Decision (P x)} `{∀ x, Decision (Q x)} (l : list A) :
  (∀ x, P x → Q x → False) → filter P (filter Q l) = [].
Proof.
  intros HPQ. induction l as [|x l IH]; [done|].
  destruct (decide (Q x)).
  - rewrite (filter_cons_True Q) by done.
    rewrite (filter_cons_False P) by eauto. exact IH.
  - by rewrite (filter_cons_False Q).
Qed.

Lemma filter_filter_keep {A} (P Q : A → Prop)
    `{∀ x, Decision (P x)} `{∀ x, Decision (Q x)} (l : list A) :
  (∀ x, P x → Q x) → filter P (filter Q l) = filter P l.
Proof.
  intros HPQ. induction l as [|x l IH]; [done|].
  destruct (decide (P x)).
  - rewrite (filter_cons_True Q), !(filter_cons_True P) by eauto. by f_equal.
  - rewrite (filter_cons_False P) by done. destruct (decide (Q x)).
    + rewrite (filter_cons_True Q), (filter_cons_False P) by done. exact IH.
    + by rewrite (filter_cons_False Q).
Qed.

(** C8: after [deleteTask(i)] no row of [scheduled_tasks] has id [i] and no
    row of [task_run_logs] has task id [i]; [getTaskById(i)] is [undefined]
    and [getTaskRunLogs(i)] is empty for every limit.  Other tasks and their
    logs are read as before. *)
Theorem deleteTask_removes_task_and_logs (i : string) (db : Database) :
  let db' := deleteTask i db in
  getTaskById i db' = None
  ∧ (∀ limit, getTaskRunLogs i limit db' = [])
  ∧ Forall (λ t, id t ≠ i) (scheduled_tasks db')
  ∧ Forall (λ l, task_id l ≠ i) (task_run_logs db')
  ∧ (∀ j limit, j ≠ i →
       getTaskById j db' = getTaskById j db
       ∧ getTaskRunLogs j limit db' = getTaskRunLogs j limit db).
Proof.
  cbv zeta. unfold getTaskById, getTaskRunLogs, deleteTask. simpl.
  split_and!.
  - rewrite (filter_filter_None (λ t, id t = i)); [done|]. simpl. tauto.
  - intros limit. rewrite (filter_filter_None (λ l, task_id l = i)); [|simpl; tauto].
    change (merge_sort by_run_at_desc []) with (@nil TaskRunLog).
    unfold sql_limit. case_bool_decide; [done|]. apply take_nil.
  - apply Forall_forall. intros t Ht. by apply list_elem_of_filter in Ht as [? _].
  - apply Forall_forall. intros l Hl. by apply list_elem_of_filter in Hl as [? _].
  - intros j limit Hj. split.
    + rewrite (filter_filter_keep (λ t, id t = j)); [done|]. simpl. congruence.
    + rewrite (filter_filter_keep (λ l, task_id l = j)); [done|]. simpl. congruence.
Qed.

(** At the sample database: cancelling ["task-2"] leaves neither the task nor
    its two run logs, and keeps the log of ["task-1"]. *)
Lemma deleteTask_removes_task_and_logs_witness :
  getTaskById "task-2" sampleDb = Some sampleInterval
  ∧ length (getTaskRunLogs "task-2" 10 sampleDb) = 2
  ∧ getTaskById "task-2" (deleteTask "task-2" sampleDb) = None
  ∧ getTaskRunLogs "task-2" 10 (deleteTask "task-2" sampleDb) = []
  ∧ length (getTaskRunLogs "task-1" 10 (deleteTask "task-2" sampleDb)) = 1.
Proof.
  destruct (deleteTask_removes_task_and_logs "task-2" sampleDb)
    as (Hget & Hlogs & _ & _ & Hother).
  split_and!; [reflexivity|reflexivity|exact Hget|exact (Hlogs 10%Z)|].
  rewrite (proj2 (Hother "task-1" 10%Z ltac:(discriminate))). reflexivity.
Defined.

End DbSpec.

(* ===================================================================== *)
(** * Further properties of the container pool                           *)
(* ===================================================================== *)

Module PoolMore.
Import Pool PoolSpec.

Section WithConfig.
Variable MAX_IDLE : Z.

Local Abbreviation warmContainer := (Pool.warmContainer MAX_IDLE).
Local Abbreviation reachable := (Pool.reachable MAX_IDLE).
Local Abbreviation apply_event := (Pool.apply_event MAX_IDLE).
Local Abbreviation eviction_pending := (Pool.eviction_pending MAX_IDLE).

(** ** One process per slot *)

(** X1: in every world the pool can reach, two slots never share a process
    or an entry object: if the entries held under two group keys run the same
    process, the keys are the same.  Each pooled entry's process exists and
    its listeners close over the entry's own group. *)
Theorem pooled_processes_distinct (w : World) (g1 g2 : string) (r1 r2 : nat)
    (e1 e2 : WarmEntry) :
  reachable w →
  pool w !! g1 = Some r1 → heap w !! r1 = Some e1 →
  pool w !! g2 = Some r2 → heap w !! r2 = Some e2 →
  (process e1 = process e2 → g1 = g2)
  ∧ (r1 = r2 → g1 = g2)
  ∧ ∃ p, procs w !! process e1 = Some p ∧ listenerEnv p = (g1, r1).
Proof.
  intros Hreach Hg1 Hr1 Hg2 Hr2.
  pose proof (reachable_wired _ _ Hreach) as [Hp _].
  destruct (Hp _ _ Hg1) as (e1' & p1 & He1 & _ & Hp1 & Henv1).
  destruct (Hp _ _ Hg2) as (e2' & p2 & He2 & _ & Hp2 & Henv2).
  assert (e1' = e1) as -> by congruence. assert (e2' = e2) as -> by congruence.
  split; [|split].
  - intros Heq. rewrite Heq, Hp2 in Hp1. injection Hp1 as ->. congruence.
  - intros ->. congruence.
  - eauto.
Qed.

(** ** Ownership after [acquireWarmContainer] *)

Lemma released_shrink pid r w w' :
  pool w' ⊆ pool w → heap w' = heap w → procs w' = procs w →
  released pid r w → released pid r w'.
Proof.
  intros Hsub Hh Hp (H1 & H2 & H3 & H4). unfold released. rewrite Hh, Hp.
  split_and!; [done..| |].
  - intros g Hg. apply (H3 g). by eapply lookup_weaken.
  - intros g r' e Hg. apply (H4 g). by eapply lookup_weaken.
Qed.

Lemma released_alter_proc f pid' pid r w :
  pid' ≠ pid → released pid r w →
  released pid r (set_procs (alter f pid') w)
  ∧ procs (set_procs (alter f pid') w) !! pid = procs w !! pid.
Proof.
  intros Hne (H1 & H2 & H3 & H4). split; [|by apply list_lookup_alter_ne].
  unfold released. simpl. rewrite length_alter. done.
Qed.

Lemma released_evict g pid r w :
  released pid r w →
  released pid r (evict g w) ∧ procs (evict g w) !! pid = procs w !! pid.
Proof.
  intros Hrel. unfold evict. destruct (pool_get g w) as [[r' e]|] eqn:E; [|done].
  apply pool_get_Some in E as [Hg Hr].
  assert (process e ≠ pid) as Hne by (by eapply Hrel).
  assert (released pid r (pool_delete g (clearIdleTimer e w))) as Hrel'.
  { eapply released_shrink; [| | |exact Hrel]; simpl.
    - rewrite pool_clearIdleTimer. apply delete_subseteq.
    - apply heap_clearIdleTimer.
    - apply procs_clearIdleTimer. }
  assert (procs (pool_delete g (clearIdleTimer e w)) = procs w) as Hprocs
    by apply procs_clearIdleTimer.
  destruct (dead e); [by rewrite Hprocs|].
  unfold kill, stdin_end.
  destruct (released_alter_proc
              (λ p, mkChildProcess (spawnargs p) true (signals p) (listenerEnv p))
              _ _ _ _ Hne Hrel') as [Hrel1 Hp1].
  destruct (released_alter_proc
              (λ p, mkChildProcess (spawnargs p) (stdinEnded p) (signals p ++ [SIGTERM])
                                   (listenerEnv p))
              _ _ _ _ Hne Hrel1) as [Hrel2 Hp2].
  split; [done|]. by rewrite Hp2, Hp1, Hprocs.
Qed.

Lemma released_apply_event ev pid r w :
  released pid r w →
  released pid r (apply_event ev w) ∧ procs (apply_event ev w) !! pid = procs w !! pid.
Proof.
  intros Hrel. destruct ev as [g args now|g| |t|pid'|pid']; simpl.
  - unfold Pool.warmContainer. destruct (pool_has g w) eqn:Hhas; [done|].
    destruct Hrel as (H1 & H2 & H3 & H4). split.
    + unfold released. simpl. rewrite !length_app. simpl. split_and!; [lia..| |].
      * intros g'. destruct (decide (g = g')) as [<-|Hne].
        -- rewrite lookup_insert_eq. intros [= Heq]. lia.
        -- rewrite lookup_insert_ne by done. apply H3.
      * intros g' r' e'. destruct (decide (g = g')) as [<-|Hne].
        -- rewrite lookup_insert_eq. intros [= <-].
           rewrite lookup_app_r, Nat.sub_diag by lia. simpl. intros [= <-]. simpl. lia.
        -- rewrite lookup_insert_ne by done. intros Hg' Hr'.
           apply lookup_app_Some in Hr' as [Hr'|[Hlen Hr']]; [by eapply H4|].
           destruct (r' - length (heap w)) eqn:Hk; simpl in Hr'; [|done].
           injection Hr' as <-. simpl. lia.
    + simpl. by apply lookup_app_l.
  - unfold acquireWarmContainer. destruct (pool_get g w) as [[r' e]|]; [|done].
    destruct (dead e); simpl.
    + split; [|done]. eapply released_shrink; [| | |exact Hrel]; simpl;
        [apply delete_subseteq|done..].
    + rewrite procs_clearIdleTimer. split; [|done].
      eapply released_shrink; [| | |exact Hrel]; simpl.
      * rewrite pool_clearIdleTimer. apply delete_subseteq.
      * apply heap_clearIdleTimer.
      * apply procs_clearIdleTimer.
  - unfold shutdownPool. generalize (map fst (map_to_list (pool w))) as gs.
    intros gs. revert w Hrel. induction gs as [|g gs IH]; intros w Hrel; simpl; [done|].
    destruct (released_evict g _ _ _ Hrel) as [Hrel' Hp'].
    destruct (IH _ Hrel') as [Hrel'' Hp'']. split; [done|]. by rewrite Hp''.
  - unfold fire_timer. destruct (timers w !! t); [|done].
    apply (released_evict _ pid r (set_timers (delete t) w)).
    by eapply released_shrink; [| | |exact Hrel].
  - unfold on_close. destruct (procs w !! pid') as [p|]; [|done].
    destruct (listenerEnv p) as [g r']. destruct (pool_holds g r' w); [|done].
    split; [|done]. eapply released_shrink; [| | |exact Hrel]; simpl;
      [apply delete_subseteq|done..].
  - unfold on_error. destruct (procs w !! pid') as [p|]; [|done].
    destruct (listenerEnv p) as [g r'].
    set (mark := λ e, mkWarmEntry (process e) (createdAt e) (idleTimer e) true).
    assert (released pid r (set_heap (alter mark r') w)) as Hrel'.
    { destruct Hrel as (H1 & H2 & H3 & H4). unfold released. simpl.
      rewrite length_alter. split_and!; [done..|].
      intros g' r'' e' Hg' Hr''.
      destruct (decide (r' = r'')) as [->|Hne].
      - rewrite list_lookup_alter_eq in Hr''.
        destruct (heap w !! r'') as [e0|] eqn:E0; [|done].
        injection Hr'' as <-. simpl. by eapply H4.
      - rewrite list_lookup_alter_ne in Hr'' by done. by eapply H4. }
    match goal with |- context [if ?b then _ else _] => destruct b end; [|done].
    split; [|done]. eapply released_shrink; [| | |exact Hrel']; simpl;
      [apply delete_subseteq|done..].
Qed.

Lemma released_events evs pid r w :
  released pid r w →
  released pid r (foldl (λ w ev, apply_event ev w) w evs)
  ∧ procs (foldl (λ w ev, apply_event ev w) w evs) !! pid = procs w !! pid.
Proof.
  revert w. induction evs as [|ev evs IH]; intros w Hrel; simpl; [done|].
  destruct (released_apply_event ev _ _ _ Hrel) as [Hrel' Hp'].
  destruct (IH _ Hrel') as [Hrel'' Hp'']. split; [done|]. by rewrite Hp''.
Qed.

Lemma released_after_acquire g r e w :
  wired w → pool w !! g = Some r → heap w !! r = Some e →
  acquireWarmContainer g w
    = (Some (process e),
       mkWorld (delete g (pool w)) (heap w) (procs w)
               (match idleTimer e with Some t => delete t (timers w) | None => timers w end)
               (nextTimer w))
  ∧ released (process e) r (acquireWarmContainer g w).2
  ∧ ∃ p, procs w !! process e = Some p ∧ listenerEnv p = (g, r).
Proof.
  intros [Hp Hq] Hg Hr.
  destruct (Hp _ _ Hg) as (e' & p & He' & Hd & Hpr & Henv).
  assert (e' = e) as -> by congruence.
  rewrite (acquire_live _ _ _ _ Hg Hr Hd). split; [done|]. split; [|eauto].
  unfold released. simpl. split_and!.
  - by eapply lookup_lt_Some.
  - by eapply lookup_lt_Some.
  - intros g' Hg'. apply lookup_delete_Some in Hg' as [Hne Hg'].
    destruct (Hp _ _ Hg') as (e2 & p2 & He2 & _ & Hp2 & Henv2).
    assert (e2 = e) as -> by congruence. rewrite Hpr in Hp2. injection Hp2 as <-.
    congruence.
  - intros g' r' e2 Hg' Hr' Heq. apply lookup_delete_Some in Hg' as [Hne Hg'].
    destruct (Hp _ _ Hg') as (e2' & p2 & He2 & _ & Hp2 & Henv2).
    assert (e2' = e2) as -> by congruence. rewrite Heq, Hpr in Hp2.
    injection Hp2 as <-. congruence.
Qed.

(** X2: once [acquireWarmContainer] has handed out a slot's process, the
    pool never touches that process again: whatever happens to the pool
    afterwards (warming, acquiring, eviction by timer, shutdown, exits and
    errors of any process), the process has been sent no signal and its
    standard input has not been closed by the pool. *)
Theorem acquired_process_untouched (w : World) (g : string) (r : nat) (e : WarmEntry)
    (evs : list Event) :
  reachable w → pool w !! g = Some r → heap w !! r = Some e →
  (acquireWarmContainer g w).1 = Some (process e)
  ∧ procs (foldl (λ w ev, apply_event ev w) (acquireWarmContainer g w).2 evs) !! process e
    = procs w !! process e.
Proof.
  intros Hreach Hg Hr.
  destruct (released_after_acquire _ _ _ _ (reachable_wired _ _ Hreach) Hg Hr)
    as (Hacq & Hrel & _).
  split; [by rewrite Hacq|].
  destruct (released_events evs _ _ _ Hrel) as [_ Hp]. rewrite Hp.
  by rewrite Hacq.
Qed.

(** X3: the ['close'] and ['error'] listeners of a process that was handed
    out never remove a slot: at any later time, whatever the pool holds then
    (a slot warmed again for the same group included) stays in the pool when
    the old process exits or fails. *)
Theorem acquired_process_exit_keeps_pool (w : World) (g : string) (r : nat)
    (e : WarmEntry) (evs : list Event) :
  reachable w → pool w !! g = Some r → heap w !! r = Some e →
  let w' := foldl (λ w ev, apply_event ev w) (acquireWarmContainer g w).2 evs in
  on_close (process e) w' = w'
  ∧ pool (on_error (process e) w') = pool w'
  ∧ procs (on_error (process e) w') = procs w'
  ∧ timers (on_error (process e) w') = timers w'.
Proof.
  intros Hreach Hg Hr w'.
  destruct (released_after_acquire _ _ _ _ (reachable_wired _ _ Hreach) Hg Hr)
    as (Hacq & Hrel & p & Hp & Henv).
  destruct (released_events evs _ _ _ Hrel) as [(_ & _ & Hnot & _) Hp']. fold w' in Hnot, Hp'.
  rewrite Hacq in Hp'. simpl in Hp'. rewrite Hp in Hp'.
  unfold on_close, on_error. rewrite Hp', Henv. unfold pool_holds. simpl.
  rewrite !bool_decide_eq_false_2 by apply Hnot. done.
Qed.

(** ** Timers *)

Lemma nextTimer_evict g w : nextTimer (evict g w) = nextTimer w.
Proof.
  unfold evict. destruct (pool_get g w) as [[r e]|]; [|done].
  assert (nextTimer (clearIdleTimer e w) = nextTimer w) as Hn
    by (unfold clearIdleTimer; by destruct (idleTimer e)).
  by destruct (dead e).
Qed.

Lemma timers_fresh_shrink w w' :
  timers w' ⊆ timers w → nextTimer w' = nextTimer w → timers_fresh w → timers_fresh w'.
Proof.
  intros Hsub Hn Hw t g Ht. rewrite Hn. eapply Hw. by eapply lookup_weaken.
Qed.

Lemma timers_fresh_evict g w : timers_fresh w → timers_fresh (evict g w).
Proof.
  apply timers_fresh_shrink; [apply timers_evict|apply nextTimer_evict].
Qed.

Lemma timers_fresh_apply_event ev w : timers_fresh w → timers_fresh (apply_event ev w).
Proof.
  intros Hw. destruct ev as [g args now|g| |t|pid|pid]; simpl.
  - unfold Pool.warmContainer. destruct (pool_has g w); [done|].
    intros t g'. simpl. case_bool_decide; [|apply Hw].
    destruct (decide (nextTimer w = t)) as [<-|Hne]; [lia|].
    rewrite lookup_insert_ne by done. intros Ht. specialize (Hw _ _ Ht). lia.
  - unfold acquireWarmContainer. destruct (pool_get g w) as [[r e]|]; [|done].
    destruct (dead e); simpl; [done|].
    eapply timers_fresh_shrink; [| |exact Hw]; simpl.
    + apply timers_clearIdleTimer_subseteq.
    + unfold clearIdleTimer. by destruct (idleTimer e).
  - unfold shutdownPool. generalize (map fst (map_to_list (pool w))) as gs.
    intros gs. revert w Hw. induction gs as [|g gs IH]; intros w Hw; simpl; [done|].
    by apply IH, timers_fresh_evict.
  - unfold fire_timer. destruct (timers w !! t); [|done].
    apply timers_fresh_evict.
    eapply timers_fresh_shrink; [| |exact Hw]; simpl; [apply delete_subseteq|done].
  - unfold on_close. destruct (procs w !! pid) as [p|]; [|done].
    destruct (listenerEnv p) as [g r]. by destruct (pool_holds g r w).
  - unfold on_error. destruct (procs w !! pid) as [p|]; [|done].
    destruct (listenerEnv p) as [g r].
    match goal with |- context [if ?b then _ else _] => by destruct b end.
Qed.

Lemma reachable_timers_fresh w : reachable w → timers_fresh w.
Proof.
  induction 1 as [|w ev _ IH]; [|by apply timers_fresh_apply_event].
  intros t g. simpl. by rewrite lookup_empty.
Qed.

(** X4: warming a group and acquiring it at once is a round trip for the
    pool: in a reachable world without a slot for the group, the acquire
    hands out exactly the process the warm spawned (with the warm's
    arguments), and the pool map and the pending timers are what they were
    before the warm. *)
Theorem warm_then_acquire (w : World) (g : string) (args : list string) (now : Z) :
  reachable w → pool w !! g = None →
  let r := acquireWarmContainer g (warmContainer g args now w) in
  r.1 = Some (length (procs w))
  ∧ procs r.2 = procs w ++ [mkChildProcess args false [] (g, length (heap w))]
  ∧ pool r.2 = pool w
  ∧ timers r.2 = timers w.
Proof.
  intros Hreach Hg r. subst r.
  pose proof (reachable_timers_fresh _ Hreach) as Hfresh.
  unfold Pool.warmContainer. rewrite (proj2 (pool_has_false g w) Hg).
  erewrite acquire_live; simpl.
  2: { apply lookup_insert_eq. }
  2: { rewrite lookup_app_r, Nat.sub_diag by lia. reflexivity. }
  2: { reflexivity. }
  simpl. split_and!; [done|done| |].
  - rewrite delete_insert_eq. by apply delete_id.
  - case_bool_decide; [|done]. rewrite delete_insert_eq. apply delete_id.
    destruct (timers w !! nextTimer w) as [g'|] eqn:E; [|done].
    specialize (Hfresh _ _ E). lia.
Qed.

Lemma timers_on_close pid w : timers (on_close pid w) = timers w.
Proof.
  unfold on_close. destruct (procs w !! pid) as [p|]; [|done].
  destruct (listenerEnv p) as [g r]. by destruct (pool_holds g r w).
Qed.

Lemma timers_on_error pid w : timers (on_error pid w) = timers w.
Proof.
  unfold on_error. destruct (procs w !! pid) as [p|]; [|done].
  destruct (listenerEnv p) as [g r].
  match goal with |- context [if ?b then _ else _] => by destruct b end.
Qed.

(** X5: the listeners that remove a slot when its process exits or fails
    leave the slot's idle timer pending, and [evict] looks the slot up by
    group only.  So when a timer armed for a group expires, the live slot
    the group holds at that moment is evicted (removed, input closed,
    [SIGTERM]), whichever slot armed the timer; the slot's own timer is
    cancelled too. *)
Theorem timer_expiry_evicts_current_slot (w : World) (t : nat) (g : string)
    (r : nat) (e : WarmEntry) :
  timers w !! t = Some g →
  pool w !! g = Some r → heap w !! r = Some e → dead e = false →
  fire_timer t w =
    mkWorld (delete g (pool w)) (heap w) (alter terminated (process e) (procs w))
            (match idleTimer e with
             | Some t' => delete t' (delete t (timers w))
             | None => delete t (timers w)
             end)
            (nextTimer w)
  ∧ (∀ pid, timers (on_close pid w) = timers w ∧ timers (on_error pid w) = timers w).
Proof.
  intros Ht Hg Hr Hd. split.
  - unfold fire_timer. rewrite Ht.
    by rewrite (evict_live g (set_timers (delete t) w) r e).
  - intros pid. split; [apply timers_on_close|apply timers_on_error].
Qed.

Lemma eviction_pending_shrink w w' :
  (∀ g r, pool w' !! g = Some r → pool w !! g = Some r) →
  (∀ r e', heap w' !! r = Some e' →
           ∃ e, heap w !! r = Some e ∧ idleTimer e' = idleTimer e) →
  (∀ g r e' t, pool w' !! g = Some r → heap w' !! r = Some e' →
               timers w !! t = Some g → timers w' !! t = Some g) →
  eviction_pending w → eviction_pending w'.
Proof.
  intros Hpool Hheap Htimers Hw g r e' Hg Hr.
  destruct (Hheap _ _ Hr) as (e & He & Hidle).
  specialize (Hw g r e (Hpool _ _ Hg) He). rewrite Hidle.
  case_bool_decide; [|done]. destruct Hw as (t & Ht & Hpending).
  exists t. split; [done|]. by eapply Htimers.
Qed.

Lemma eviction_pending_evict_from (w0 w : World) g :
  pool w0 = pool w → heap w0 = heap w → timers w0 ⊆ timers w →
  (∀ t g', g' ≠ g → timers w !! t = Some g' → timers w0 !! t = Some g') →
  eviction_pending w → eviction_pending (evict g w0).
Proof.
  intros Hpool Hheap Hsub Hkeep Hw.
  unfold evict. destruct (pool_get g w0) as [[r e]|] eqn:E.
  - apply pool_get_Some in E as [Hg Hr].
    assert (eviction_pending (pool_delete g (clearIdleTimer e w0))) as Hw'.
    { eapply eviction_pending_shrink; [| | |exact Hw]; simpl.
      - rewrite pool_clearIdleTimer, Hpool. intros g' r' Hg'.
        by apply lookup_delete_Some in Hg' as [_ ?].
      - rewrite heap_clearIdleTimer, Hheap. eauto.
      - rewrite pool_clearIdleTimer, heap_clearIdleTimer, timers_clearIdleTimer.
        intros g' r' e' t Hg' Hr' Ht.
        apply lookup_delete_Some in Hg' as [Hne Hg'].
        pose proof (Hkeep _ _ (not_eq_sym Hne) Ht) as Ht0.
        destruct (idleTimer e) as [te|] eqn:Hte; [|done].
        rewrite lookup_delete_ne; [done|]. intros ->.
        rewrite Hpool in Hg. rewrite Hheap in Hr.
        specialize (Hw g r e Hg Hr). rewrite Hte in Hw.
        case_bool_decide.
        + destruct Hw as (t' & [= <-] & Hpend). congruence.
        + done. }
    destruct (dead e); [done|].
    unfold kill, stdin_end.
    eapply eviction_pending_shrink; [| | |exact Hw']; simpl; eauto.
  - eapply eviction_pending_shrink; [| | |exact Hw]; simpl.
    + by rewrite Hpool.
    + rewrite Hheap. eauto.
    + intros g' r e' t Hg' Hr' Ht.
      destruct (decide (g' = g)) as [->|Hne]; [|by eapply Hkeep].
      unfold pool_get in E. rewrite Hg', Hr' in E. done.
Qed.

Lemma eviction_pending_evict g w : eviction_pending w → eviction_pending (evict g w).
Proof. intros Hw. by apply (eviction_pending_evict_from w w g). Qed.

Lemma eviction_pending_apply_event ev w :
  wired w → timers_fresh w → eviction_pending w → eviction_pending (apply_event ev w).
Proof.
  intros Hwired Hfresh Hw. destruct ev as [g args now|g| |t|pid|pid]; simpl.
  - unfold Pool.warmContainer. destruct (pool_has g w) eqn:Hhas; [done|].
    apply pool_has_false in Hhas.
    intros g' r' e'. simpl. destruct (decide (g = g')) as [<-|Hne].
    + rewrite lookup_insert_eq. intros [= <-].
      rewrite lookup_app_r, Nat.sub_diag by lia. simpl. intros [= <-]. simpl.
      case_bool_decide; [|done]. eexists. split; [done|]. apply lookup_insert_eq.
    + rewrite lookup_insert_ne by done. intros Hg' Hr'.
      destruct (wired_pool _ Hwired _ _ Hg') as (e0 & _ & He0 & _).
      rewrite (lookup_app_l_Some _ _ _ _ He0) in Hr'. injection Hr' as <-.
      specialize (Hw _ _ _ Hg' He0). case_bool_decide; [|done].
      destruct Hw as (t & Ht & Hpend). exists t. split; [done|].
      rewrite lookup_insert_ne; [done|]. specialize (Hfresh _ _ Hpend). lia.
  - unfold acquireWarmContainer. destruct (pool_get g w) as [[r e]|] eqn:E; [|done].
    apply pool_get_Some in E as [Hg Hr].
    destruct (dead e); simpl.
    + eapply eviction_pending_shrink; [| | |exact Hw]; simpl; eauto.
      * intros g' r' Hg'. by apply lookup_delete_Some in Hg' as [_ ?].
    + eapply eviction_pending_shrink; [| | |exact Hw]; simpl.
      * rewrite pool_clearIdleTimer. intros g' r' Hg'.
        by apply lookup_delete_Some in Hg' as [_ ?].
      * rewrite heap_clearIdleTimer. eauto.
      * rewrite pool_clearIdleTimer, heap_clearIdleTimer, timers_clearIdleTimer.
        intros g' r' e' t Hg' Hr' Ht.
        apply lookup_delete_Some in Hg' as [Hne Hg'].
        destruct (idleTimer e) as [te|] eqn:Hte; [|done].
        rewrite lookup_delete_ne; [done|]. intros ->.
        specialize (Hw g r e Hg Hr). rewrite Hte in Hw.
        case_bool_decide; [|done].
        destruct Hw as (t' & [= <-] & Hpend). congruence.
  - unfold shutdownPool. generalize (map fst (map_to_list (pool w))) as gs.
    intros gs. clear Hwired Hfresh. revert w Hw.
    induction gs as [|g gs IH]; intros w Hw; simpl; [done|].
    by apply IH, eviction_pending_evict.
  - unfold fire_timer. destruct (timers w !! t) as [g|] eqn:Ht; [|done].
    apply (eviction_pending_evict_from _ w g); simpl; [done|done|apply delete_subseteq| |done].
    intros t' g' Hne Ht'. rewrite lookup_delete_ne; [done|]. intros ->. congruence.
  - unfold on_close. destruct (procs w !! pid) as [p|]; [|done].
    destruct (listenerEnv p) as [g r]. destruct (pool_holds g r w); [|done].
    eapply eviction_pending_shrink; [| | |exact Hw]; simpl; eauto.
    intros g' r' Hg'. by apply lookup_delete_Some in Hg' as [_ ?].
  - unfold on_error. destruct (procs w !! pid) as [p|]; [|done].
    destruct (listenerEnv p) as [g r].
    set (mark := λ e, mkWarmEntry (process e) (createdAt e) (idleTimer e) true).
    assert (∀ r' e', alter mark r (heap w) !! r' = Some e' →
                     ∃ e, heap w !! r' = Some e ∧ idleTimer e' = idleTimer e) as Hheap.
    { intros r' e'. destruct (decide (r = r')) as [->|Hne].
      - rewrite list_lookup_alter_eq. destruct (heap w !! r') as [e0|]; [|done].
        intros [= <-]. eauto.
      - rewrite list_lookup_alter_ne by done. eauto. }
    match goal with |- context [if ?b then _ else _] => destruct b end.
    + eapply eviction_pending_shrink; [| | |exact Hw]; simpl; eauto.
      intros g' r' Hg'. by apply lookup_delete_Some in Hg' as [_ ?].
    + eapply eviction_pending_shrink; [| | |exact Hw]; simpl; eauto.
Qed.

(** X6: in every world the pool can reach, each slot in the pool has its
    eviction pending: when a positive idle limit is configured the slot's
    idle timer is among the pending timers and is armed for the slot's own
    group, so no slot stays in the pool without a deadline; with no limit
    configured, no slot carries a timer and no timer is ever pending. *)
Theorem pooled_slot_has_eviction_pending (w : World) :
  reachable w →
  (∀ g r e, pool w !! g = Some r → heap w !! r = Some e →
     if bool_decide (0 < MAX_IDLE)%Z
     then ∃ t, idleTimer e = Some t ∧ timers w !! t = Some g
     else idleTimer e = None)
  ∧ (¬ (0 < MAX_IDLE)%Z → timers w = ∅).
Proof.
  intros Hreach. split.
  - induction Hreach as [|w ev Hreach IH].
    + intros g r e. simpl. by rewrite lookup_empty.
    + apply eviction_pending_apply_event;
        [by apply (reachable_wired MAX_IDLE)|by apply reachable_timers_fresh|exact IH].
  - intros Hoff. induction Hreach as [|w ev Hreach IH]; [done|].
    apply map_empty. intros t. apply eq_None_not_Some. intros [g Ht].
    assert (timers (apply_event ev w) ⊆ timers w) as Hsub.
    { destruct ev as [g' args now|g'| |t'|pid|pid]; simpl.
      - unfold Pool.warmContainer. destruct (pool_has g' w); [done|]. simpl.
        by rewrite bool_decide_eq_false_2.
      - unfold acquireWarmContainer. destruct (pool_get g' w) as [[r e]|]; [|done].
        destruct (dead e); simpl; [done|]. apply timers_clearIdleTimer_subseteq.
      - unfold shutdownPool. generalize (map fst (map_to_list (pool w))) as gs.
        intros gs. generalize w. induction gs as [|g0 gs IHgs]; intros w0; simpl; [done|].
        etrans; [apply IHgs|apply timers_evict].
      - unfold fire_timer. destruct (timers w !! t'); [|done].
        etrans; [apply timers_evict|]. simpl. apply delete_subseteq.
      - by rewrite timers_on_close.
      - by rewrite timers_on_error. }
    pose proof (lookup_weaken _ _ _ _ Ht Hsub) as Ht'. rewrite IH in Ht'.
    by rewrite lookup_empty in Ht'.
Qed.

(** ** shutdownPool *)

Lemma evict_wired g w :
  wired w →
  (pool w !! g = None ∧ evict g w = w)
  ∨ (∃ r e, pool w !! g = Some r ∧ heap w !! r = Some e
            ∧ evict g w =
                mkWorld (delete g (pool w)) (heap w)
                        (alter terminated (process e) (procs w))
                        (match idleTimer e with
                         | Some t => delete t (timers w)
                         | None => timers w
                         end)
                        (nextTimer w)).
Proof.
  intros Hw. destruct (pool w !! g) as [r|] eqn:Hg.
  - right. destruct (wired_pool _ Hw _ _ Hg) as (e & p & He & Hd & _).
    exists r, e. split_and!; [done..|]. by apply (evict_live g w r e).
  - left. split; [done|]. unfold evict, pool_get. by rewrite Hg.
Qed.

Lemma evict_all gs : ∀ w,
  wired w → NoDup gs →
  let w' := foldl (λ w g, evict g w) w gs in
  (∀ g, pool w' !! g = if decide (g ∈ gs) then None else pool w !! g)
  ∧ heap w' = heap w
  ∧ timers w' ⊆ timers w
  ∧ nextTimer w' = nextTimer w
  ∧ (∀ g r e, g ∈ gs → pool w !! g = Some r → heap w !! r = Some e →
       procs w' !! process e = terminated <$> procs w !! process e
       ∧ ∀ t, idleTimer e = Some t → timers w' !! t = None)
  ∧ (∀ pid, (∀ g r e, g ∈ gs → pool w !! g = Some r → heap w !! r = Some e →
                      process e ≠ pid) →
            procs w' !! pid = procs w !! pid).
Proof.
  induction gs as [|g gs IH]; intros w Hw Hnodup; simpl.
  { split_and!; try done. intros g r e Hin. by apply not_elem_of_nil in Hin. }
  apply NoDup_cons in Hnodup as [Hnotin Hnodup].
  pose proof (wired_evict g w Hw) as Hw1.
  destruct (IH _ Hw1 Hnodup) as (Hpool & Hheap & Htimers & Hnext & Hkill & Hkeep).
  clear IH. set (w' := foldl (λ w g, evict g w) (evict g w) gs) in *.
  (* what the first eviction does *)
  assert (∀ g', g' ≠ g → pool (evict g w) !! g' = pool w !! g') as Hpool1.
  { intros g' Hne. destruct (evict_wired g w Hw) as [[_ ->]|(r & e & _ & _ & ->)]; [done|].
    simpl. by rewrite lookup_delete_ne. }
  assert (pool (evict g w) !! g = None) as Hpool1g.
  { destruct (evict_wired g w Hw) as [[Hg ->]|(r & e & _ & _ & ->)]; [done|].
    simpl. apply lookup_delete_eq. }
  assert (heap (evict g w) = heap w) as Hheap1.
  { by destruct (evict_wired g w Hw) as [[_ ->]|(r & e & _ & _ & ->)]. }
  (* distinct groups hold distinct processes *)
  assert (∀ g1 g2 r1 r2 e1 e2,
            pool w !! g1 = Some r1 → heap w !! r1 = Some e1 →
            pool w !! g2 = Some r2 → heap w !! r2 = Some e2 →
            process e1 = process e2 → g1 = g2) as Hdistinct.
  { intros g1 g2 r1 r2 e1 e2 Hg1 Hr1 Hg2 Hr2 Heq.
    destruct (wired_pool _ Hw _ _ Hg1) as (e1' & p1 & He1 & _ & Hp1 & Henv1).
    destruct (wired_pool _ Hw _ _ Hg2) as (e2' & p2 & He2 & _ & Hp2 & Henv2).
    assert (e1' = e1) as -> by congruence. assert (e2' = e2) as -> by congruence.
    rewrite Heq, Hp2 in Hp1. injection Hp1 as ->. congruence. }
  split_and!.
  - intros g'. rewrite Hpool. destruct (decide (g' = g)) as [->|Hne].
    + rewrite (decide_True (P := g ∈ g :: gs)) by apply list_elem_of_here.
      by destruct (decide (g ∈ gs)).
    + rewrite Hpool1 by done. destruct (decide (g' ∈ gs)) as [Hin|Hnin].
      * by rewrite decide_True by (by apply list_elem_of_further).
      * rewrite decide_False; [done|]. intros Hin. apply elem_of_cons in Hin as [?|?]; done.
  - by rewrite Hheap.
  - etrans; [exact Htimers|apply timers_evict].
  - by rewrite Hnext, nextTimer_evict.
  - intros g0 r0 e0 Hin Hg0 Hr0. apply elem_of_cons in Hin as [->|Hin].
    + (* the slot evicted first: later evictions leave its process alone *)
      rewrite Hkeep.
      * destruct (evict_wired g w Hw) as [[Hg _]|(r & e & Hg & Hr & Hev)]; [congruence|].
        assert (r = r0) as -> by congruence. assert (e = e0) as -> by congruence.
        split.
        -- rewrite Hev. simpl. apply list_lookup_alter_eq.
        -- intros t Ht. eapply lookup_weaken_None; [|exact Htimers].
           rewrite Hev. simpl. rewrite Ht. apply lookup_delete_eq.
      * intros g1 r1 e1 Hin1 Hg1 Hr1 Heq.
        assert (g1 ≠ g) as Hne by (intros ->; done).
        rewrite Hpool1 in Hg1 by done. rewrite Hheap1 in Hr1.
        by pose proof (Hdistinct _ _ _ _ _ _ Hg1 Hr1 Hg0 Hr0 Heq).
    + assert (g0 ≠ g) as Hne by (intros ->; done).
      destruct (Hkill g0 r0 e0 Hin) as [Hp Ht];
        [by rewrite Hpool1|by rewrite Hheap1|].
      split; [|exact Ht]. rewrite Hp. f_equal.
      destruct (evict_wired g w Hw) as [[_ ->]|(r & e & Hg & Hr & ->)]; [done|].
      simpl. apply list_lookup_alter_ne. intros Heq.
      by pose proof (Hdistinct _ _ _ _ _ _ Hg Hr Hg0 Hr0 Heq).
  - intros pid Hpid. rewrite Hkeep.
    + destruct (evict_wired g w Hw) as [[_ ->]|(r & e & Hg & Hr & ->)]; [done|].
      simpl. apply list_lookup_alter_ne. eapply Hpid; [apply list_elem_of_here|done..].
    + intros g1 r1 e1 Hin1 Hg1 Hr1.
      assert (g1 ≠ g) as Hne by (intros ->; done).
      rewrite Hpool1 in Hg1 by done. rewrite Hheap1 in Hr1.
      eapply Hpid; [by apply list_elem_of_further|done..].
Qed.

(** X7: [shutdownPool], called in a world the pool can reach, leaves the
    pool empty, so that every later acquire gives [null].  Each slot that was
    in the pool has had its idle timer cancelled and its process terminated
    exactly once (input closed, one [SIGTERM]); every other process is left
    as it was, and no timer is added. *)
Theorem shutdownPool_evicts_all (w : World) :
  reachable w →
  let w' := shutdownPool w in
  pool w' = ∅
  ∧ (∀ g, (acquireWarmContainer g w').1 = None)
  ∧ (∀ g r e, pool w !! g = Some r → heap w !! r = Some e →
       procs w' !! process e = terminated <$> procs w !! process e
       ∧ ∀ t, idleTimer e = Some t → timers w' !! t = None)
  ∧ (∀ pid, (∀ g r e, pool w !! g = Some r → heap w !! r = Some e → process e ≠ pid) →
            procs w' !! pid = procs w !! pid)
  ∧ timers w' ⊆ timers w.
Proof.
  intros Hreach w'. subst w'. unfold shutdownPool.
  pose proof (reachable_wired _ _ Hreach) as Hw.
  assert (NoDup (map fst (map_to_list (pool w)))) as Hnodup
    by apply NoDup_fst_map_to_list.
  assert (∀ g, g ∈ map fst (map_to_list (pool w)) ↔ is_Some (pool w !! g)) as Hkeys.
  { intros g. rewrite list_elem_of_fmap. split.
    - intros ([g' r] & -> & Hin). apply elem_of_map_to_list in Hin. eauto.
    - intros [r Hr]. exists (g, r). split; [done|]. by apply elem_of_map_to_list. }
  destruct (evict_all _ w Hw Hnodup) as (Hpool & _ & Htimers & _ & Hkill & Hkeep).
  set (w' := foldl (λ w g, evict g w) w (map fst (map_to_list (pool w)))) in *.
  assert (pool w' = ∅) as Hempty.
  { apply map_empty. intros g. rewrite Hpool. case_decide as Hin; [done|].
    apply eq_None_not_Some. intros Hsome. by apply Hin, Hkeys. }
  split_and!.
  - exact Hempty.
  - intros g. apply pool_get_None_acquire, pool_get_absent. by rewrite Hempty.
  - intros g r e Hg Hr. apply (Hkill g r e); [|done..]. apply Hkeys. eauto.
  - intros pid Hpid. apply Hkeep. intros g r e _. apply Hpid.
  - exact Htimers.
Qed.

End WithConfig.

(** ** The properties at the sample worlds *)

Lemma sampleTwoGroups_reachable : reachable sampleIdle sampleTwoGroups.
Proof.
  exact (reachable_step sampleIdle _ (EvWarm "family" sampleArgs 3000) sampleWorld_reachable).
Qed.

Lemma sampleRewarmed_reachable : reachable sampleIdle sampleRewarmed.
Proof.
  exact (reachable_step sampleIdle _ (EvWarm "main" sampleArgs 2000)
           (reachable_step sampleIdle _ (EvClose 0) sampleWorld_reachable)).
Qed.

(** With ["main"] and ["family"] warmed, the two slots run processes 0 and
    1, each wired to its own group. *)
Lemma pooled_processes_distinct_witness :
  (process sampleEntry = process (mkWarmEntry 1 3000 (Some 1) false) → "main" = "family")
  ∧ (0 = 1 → "main" = "family")
  ∧ ∃ p, procs sampleTwoGroups !! process sampleEntry = Some p
         ∧ listenerEnv p = ("main", 0).
Proof.
  exact (pooled_processes_distinct sampleIdle sampleTwoGroups "main" "family" 0 1
           sampleEntry (mkWarmEntry 1 3000 (Some 1) false)
           sampleTwoGroups_reachable eq_refl eq_refl eq_refl eq_refl).
Defined.

(** Process 0 is acquired; the group is then warmed again, the new slot's
    timer fires and the pool is shut down: process 0 is as it was spawned. *)
Lemma acquired_process_untouched_witness :
  (acquireWarmContainer "main" sampleWorld).1 = Some 0
  ∧ procs (foldl (λ w ev, apply_event sampleIdle ev w)
             (acquireWarmContainer "main" sampleWorld).2
             [EvWarm "main" sampleArgs 2000; EvTimer 1; EvShutdown]) !! 0
    = Some sampleProc.
Proof.
  exact (acquired_process_untouched sampleIdle sampleWorld "main" 0 sampleEntry
           [EvWarm "main" sampleArgs 2000; EvTimer 1; EvShutdown]
           sampleWorld_reachable eq_refl eq_refl).
Defined.

(** Process 0 is acquired and the group warmed again; when process 0 then
    exits, the new slot is still in the pool. *)
Lemma acquired_process_exit_keeps_pool_witness :
  pool (on_close 0 (warmContainer sampleIdle "main" sampleArgs 2000
                      (acquireWarmContainer "main" sampleWorld).2)) !! "main" = Some 1.
Proof.
  destruct (acquired_process_exit_keeps_pool sampleIdle sampleWorld "main" 0 sampleEntry
              [EvWarm "main" sampleArgs 2000] sampleWorld_reachable eq_refl eq_refl)
    as (Hclose & _).
  simpl in Hclose. rewrite Hclose. reflexivity.
Defined.

(** Warming ["family"] beside ["main"] and acquiring it at once. *)
Lemma warm_then_acquire_witness :
  (acquireWarmContainer "family" sampleTwoGroups).1 = Some 1
  ∧ pool (acquireWarmContainer "family" sampleTwoGroups).2 = pool sampleWorld
  ∧ timers (acquireWarmContainer "family" sampleTwoGroups).2 = timers sampleWorld.
Proof.
  destruct (warm_then_acquire sampleIdle sampleWorld "family" sampleArgs 3000
              sampleWorld_reachable eq_refl) as (Hpid & _ & Hpool & Htimers).
  split; [exact Hpid|]. split; [exact Hpool|exact Htimers].
Defined.

(** The first slot of ["main"] went away when its process exited; its timer
    0 stayed.  The slot warmed afterwards carries timer 1, yet the expiry of
    timer 0 evicts it. *)
Lemma timer_expiry_evicts_current_slot_witness :
  timers sampleRewarmed !! 0 = Some "main"
  ∧ pool_get "main" sampleRewarmed = Some (1, mkWarmEntry 1 2000 (Some 1) false)
  ∧ pool (fire_timer 0 sampleRewarmed) !! "main" = None
  ∧ procs (fire_timer 0 sampleRewarmed) !! 1
    = Some (mkChildProcess sampleArgs true [SIGTERM] ("main", 1)).
Proof.
  destruct (timer_expiry_evicts_current_slot sampleRewarmed 0 "main" 1
              (mkWarmEntry 1 2000 (Some 1) false) eq_refl eq_refl eq_refl eq_refl)
    as (Hfire & _).
  split; [reflexivity|]. split; [reflexivity|].
  rewrite Hfire. split; reflexivity.
Defined.

(** With an idle limit of 30 minutes, both sample slots have their timers
    pending. *)
Lemma pooled_slot_has_eviction_pending_witness :
  (∃ t, idleTimer sampleEntry = Some t ∧ timers sampleTwoGroups !! t = Some "main")
  ∧ ∃ t, idleTimer (mkWarmEntry 1 3000 (Some 1) false) = Some t
         ∧ timers sampleTwoGroups !! t = Some "family".
Proof.
  destruct (pooled_slot_has_eviction_pending sampleIdle sampleTwoGroups
              sampleTwoGroups_reachable) as (Hpending & _).
  split.
  - exact (Hpending "main" 0 sampleEntry eq_refl eq_refl).
  - exact (Hpending "family" 1 (mkWarmEntry 1 3000 (Some 1) false) eq_refl eq_refl).
Defined.

(** Shutting down with ["main"] and ["family"] warmed: the pool is empty and
    both processes were terminated. *)
Lemma shutdownPool_evicts_all_witness :
  pool (shutdownPool sampleTwoGroups) = ∅
  ∧ procs (shutdownPool sampleTwoGroups) !! 0 = Some (terminated sampleProc)
  ∧ procs (shutdownPool sampleTwoGroups) !! 1
    = Some (terminated (mkChildProcess sampleArgs false [] ("family", 1))).
Proof.
  destruct (shutdownPool_evicts_all sampleIdle sampleTwoGroups sampleTwoGroups_reachable)
    as (Hempty & _ & Hkill & _).
  split; [exact Hempty|]. split.
  - exact (proj1 (Hkill "main" 0 sampleEntry eq_refl eq_refl)).
  - exact (proj1 (Hkill "family" 1 (mkWarmEntry 1 3000 (Some 1) false) eq_refl eq_refl)).
Defined.

End PoolMore.

(* ===================================================================== *)
(** * Further properties of the IPC tools                                *)
(* ===================================================================== *)

Module IpcMore.
Import Ipc IpcSpec.
Local Open Scope fs_scope.

#[local] Arguments ipc_filename : simpl never.
#[local] Arguments JSON_stringify : simpl never.
#[local] Arguments path_join : simpl never.
#[local] Arguments String.length : simpl never.
#[local] Arguments substring : simpl never.

(** ** The wait loop *)

Section Wait.
Variable JSON_parse : string → Outcome json.
Variable host : Z → FS → FS.

Local Abbreviation waitLoop := (Ipc.waitLoop JSON_parse host).
Local Abbreviation waitForEmailResult := (Ipc.waitForEmailResult JSON_parse host).
Local Abbreviation poll_state := (Ipc.poll_state host).

Lemma polls_nonpos budget : (budget ≤ 0)%Z → polls budget = 0.
Proof.
  intros Hb. unfold polls.
  assert ((budget + 499) / 500 < 1)%Z; [|lia].
  apply Z.div_lt_upper_bound; lia.
Qed.

Lemma polls_pos budget : (0 < budget)%Z → polls budget = S (polls (budget - 500)).
Proof.
  intros Hb. unfold polls.
  replace (budget + 499)%Z with ((budget - 500 + 499) + 1 * 500)%Z by lia.
  rewrite Z.div_add by lia.
  assert (0 ≤ (budget - 500 + 499) / 500)%Z by (apply Z.div_pos; lia).
  lia.
Qed.

Lemma waitLoop_absent_run f maxWait : ∀ (n : nat) elapsed fs,
  (maxWait - elapsed ≤ pollInterval * Z.of_nat n)%Z →
  (∀ k : nat, (elapsed + pollInterval * Z.of_nat k < maxWait)%Z →
              files (poll_state elapsed fs k) !! f = None) →
  waitLoop f maxWait elapsed fs =
    mkRun (Ok (failure "Request timed out"))
          (poll_state elapsed fs (polls (maxWait - elapsed)))
          ((λ k, poll_state elapsed fs (S k)) <$> seq 0 (polls (maxWait - elapsed))).
Proof.
  unfold pollInterval.
  induction n as [|n IH]; intros elapsed fs Hn Habsent.
  - rewrite waitLoop_expired by lia. by rewrite polls_nonpos by lia.
  - destruct (decide (elapsed < maxWait)%Z) as [Hlt|Hge].
    + rewrite waitLoop_sleep; [|done|exact (Habsent 0 ltac:(lia))].
      cbv zeta. rewrite IH.
      * cbn [outcome final seen]. rewrite (polls_pos (maxWait - elapsed)) by lia.
        replace (maxWait - elapsed - 500)%Z with (maxWait - (elapsed + pollInterval))%Z
          by (unfold pollInterval; lia).
        f_equal. cbn [seq fmap list_fmap]. f_equal.
        rewrite <- fmap_S_seq, <- list_fmap_compose. done.
      * unfold pollInterval. lia.
      * intros k Hk. apply (Habsent (S k)). unfold pollInterval in Hk. lia.
    + rewrite waitLoop_expired by done. by rewrite polls_nonpos by lia.
Qed.

Lemma wait_absent_run (requestId : string) (maxWait : Z) (fs : FS) :
  (∀ k : nat, (pollInterval * Z.of_nat k < maxWait)%Z →
              files (poll_state 0 fs k)
                !! path_join EMAIL_RESULTS_DIR (requestId +:+ ".json") = None) →
  waitForEmailResult requestId maxWait fs =
    mkRun (Ok (failure "Request timed out"))
          (poll_state 0 fs (polls maxWait))
          ((λ k, poll_state 0 fs (S k)) <$> seq 0 (polls maxWait)).
Proof.
  intros Habsent. unfold Ipc.waitForEmailResult.
  rewrite (waitLoop_absent_run _ _ (Z.to_nat maxWait)).
  - by rewrite Z.sub_0_r.
  - unfold pollInterval. lia.
  - intros k Hk. apply Habsent. lia.
Qed.

(** X8: a wait that never finds its result file reports the timeout after
    exactly [⌈maxWait / 500⌉] sleeps (none at all when [maxWait] is zero or
    negative), and does nothing to the file system itself: the states the
    file system goes through are the ones the host produces during those
    sleeps, and the last of them is the final one. *)
Theorem wait_timeout_after_all_polls (requestId : string) (maxWait : Z) (fs : FS) :
  let resultFile := path_join EMAIL_RESULTS_DIR (requestId +:+ ".json") in
  (∀ k : nat, (pollInterval * Z.of_nat k < maxWait)%Z →
              files (poll_state 0 fs k) !! resultFile = None) →
  waitForEmailResult requestId maxWait fs =
    mkRun (Ok (failure "Request timed out"))
          (poll_state 0 fs (polls maxWait))
          ((λ k, poll_state 0 fs (S k)) <$> seq 0 (polls maxWait)).
Proof.
  intros resultFile Habsent. unfold Ipc.waitForEmailResult. fold resultFile.
  rewrite (waitLoop_absent_run _ _ (Z.to_nat maxWait)).
  - by rewrite Z.sub_0_r.
  - unfold pollInterval. lia.
  - intros k Hk. apply Habsent. lia.
Qed.

Lemma poll_state_silent elapsed fs k : Ipc.poll_state silentHost elapsed fs k = fs.
Proof. revert elapsed. induction k as [|k IH]; intros elapsed; [done|]. apply IH. Qed.

Lemma wait_found (requestId : string) (maxWait : Z) (fs : FS) (n : nat) text :
  let resultFile := path_join EMAIL_RESULTS_DIR (requestId +:+ ".json") in
  (pollInterval * Z.of_nat n < maxWait)%Z →
  (∀ k, k < n → files (poll_state 0 fs k) !! resultFile = None) →
  files (poll_state 0 fs n) !! resultFile = Some text →
  outcome (waitForEmailResult requestId maxWait fs)
    = outcome (Ipc.consumeResult JSON_parse resultFile (poll_state 0 fs n))
  ∧ final (waitForEmailResult requestId maxWait fs)
    = final (Ipc.consumeResult JSON_parse resultFile (poll_state 0 fs n)).
Proof.
  intros resultFile Hlt Habsent Hfound. unfold Ipc.waitForEmailResult. fold resultFile.
  destruct (waitLoop_skip JSON_parse host resultFile maxWait n 0 fs ltac:(lia) Habsent)
    as [Ho Hf].
  rewrite Ho, Hf. by rewrite (waitLoop_found _ _ _ _ _ _ text) by (done || lia).
Qed.

End Wait.

(** X9: a result is consumed exactly when it parses.  After a wait that
    returned the parsed result, the result file is gone, so a second wait for
    the same request (nobody answering again) times out.  After a wait that
    found a malformed result, the file is still there, so a second wait fails
    at its first poll with the same read error and again leaves the file. *)
Theorem result_consumed_iff_parsed (JSON_parse : string → Outcome json)
    (host : Z → FS → FS) (requestId : string) (maxWait maxWait' : Z) (fs : FS)
    (n : nat) (text : string) :
  let resultFile := path_join EMAIL_RESULTS_DIR (requestId +:+ ".json") in
  let r1 := waitForEmailResult JSON_parse host requestId maxWait fs in
  let r2 := waitForEmailResult JSON_parse silentHost requestId maxWait' (final r1) in
  (pollInterval * Z.of_nat n < maxWait)%Z →
  (∀ k, k < n → files (poll_state host 0 fs k) !! resultFile = None) →
  files (poll_state host 0 fs n) !! resultFile = Some text →
  (0 < maxWait')%Z →
  match JSON_parse text with
  | Ok result =>
      outcome r1 = Ok result
      ∧ outcome r2 = Ok (failure "Request timed out")
      ∧ final r2 = final r1
  | Throw err =>
      outcome r1 = Ok (failure ("Failed to read result: " +:+ err))
      ∧ outcome r2 = outcome r1
      ∧ final r2 = final r1
      ∧ files (final r2) !! resultFile = Some text
  end.
Proof.
  intros resultFile r1 r2 Hlt Habsent Hfound Hpos.
  destruct (wait_found JSON_parse host requestId maxWait fs n text Hlt Habsent Hfound)
    as [Ho1 Hf1].
  fold resultFile r1 in Ho1, Hf1.
  destruct (JSON_parse text) as [result|err] eqn:Hparse.
  - rewrite (consumeResult_parsed _ _ _ _ _ Hfound Hparse) in Ho1, Hf1.
    cbn [outcome final] in Ho1, Hf1. split; [done|].
    subst r2. rewrite wait_absent_run.
    + cbn [outcome final]. by rewrite poll_state_silent.
    + intros k _. rewrite poll_state_silent, Hf1. cbn. apply lookup_delete_eq.
  - rewrite (consumeResult_malformed _ _ _ _ _ Hfound Hparse) in Ho1, Hf1.
    cbn [outcome final] in Ho1, Hf1. split; [done|].
    assert (files (final r1) !! resultFile = Some text) as Hstill by (by rewrite Hf1).
    destruct (wait_found JSON_parse silentHost requestId maxWait' (final r1) 0 text)
      as [Ho2 Hf2]; [unfold pollInterval; lia|intros k Hk; lia|exact Hstill|].
    fold resultFile r2 in Ho2, Hf2. cbn [Ipc.poll_state] in Ho2, Hf2.
    rewrite (consumeResult_malformed _ _ _ _ _ Hstill Hparse) in Ho2, Hf2.
    cbn [outcome final] in Ho2, Hf2. rewrite Ho2, Hf2, Ho1. done.
Qed.

(** ** Envelopes written one after the other *)

Lemma last_char_app a b : b ≠ "" → last_char (a +:+ b) = last_char b.
Proof.
  intros Hb. induction a as [|c a IH]; [done|].
  change (String c a +:+ b) with (String c (a +:+ b)).
  cbn [last_char]. destruct (a +:+ b) as [|c' s'] eqn:E; [|exact IH].
  destruct a as [|c2 a2]; [done|].
  change (String c2 (a2 +:+ b) = "") in E. discriminate E.
Qed.

Lemma last_char_path dir name ext :
  ext ≠ "" → last_char (path_join dir (name +:+ ext)) = last_char ext.
Proof.
  intros Hext. unfold path_join. rewrite last_char_app.
  - change ("/" +:+ name +:+ ext) with (String "/" name +:+ ext).
    by apply last_char_app.
  - change ("/" +:+ name +:+ ext) with (String "/" (name +:+ ext)). discriminate.
Qed.

Lemma final_path_not_temp dir name1 name2 :
  path_join dir (name1 +:+ ".json") ≠ path_join dir (name2 +:+ ".json") +:+ ".tmp".
Proof.
  intros Heq. apply (f_equal last_char) in Heq.
  rewrite last_char_path in Heq by done.
  rewrite (last_char_app _ ".tmp") in Heq by done. discriminate Heq.
Qed.

Lemma string_app_assoc (a b c : string) : a +:+ b +:+ c = (a +:+ b) +:+ c.
Proof.
  induction a as [|x a IH]; [done|].
  change (String x (a +:+ b +:+ c) = String x ((a +:+ b) +:+ c)). by rewrite IH.
Qed.

Lemma ipc_filename_json nowMs rnd :
  ipc_filename nowMs rnd = (pretty nowMs +:+ "-" +:+ rnd) +:+ ".json".
Proof.
  unfold ipc_filename. by rewrite (string_app_assoc "-"), string_app_assoc.
Qed.

Lemma path_join_inj dir a b : path_join dir a = path_join dir b → a = b.
Proof.
  unfold path_join. intros Heq. apply String.app_inj in Heq.
  by apply (String.app_inj "/") in Heq.
Qed.

(** X10: two envelopes written one after the other into one directory.  When
    [writeIpcFile] picks different names for them, both files are there
    afterwards, each with its own complete text, and no temporary file is
    left; the second write never passes through a state in which the first
    envelope is missing or altered.  When it picks the same name (same
    millisecond, same random suffix), the second envelope replaces the first
    and only one file remains. *)
Theorem writeIpcFile_twice (dir : string) (data1 data2 : json)
    (nowMs1 nowMs2 : Z) (rnd1 rnd2 : string) (fs : FS) :
  let path1 := path_join dir (ipc_filename nowMs1 rnd1) in
  let path2 := path_join dir (ipc_filename nowMs2 rnd2) in
  let r1 := writeIpcFile dir data1 nowMs1 rnd1 fs in
  let r2 := writeIpcFile dir data2 nowMs2 rnd2 (final r1) in
  files (final r2) !! path2 = Some (JSON_stringify data2)
  ∧ files (final r2) !! (path1 +:+ ".tmp") = None
  ∧ files (final r2) !! (path2 +:+ ".tmp") = None
  ∧ (ipc_filename nowMs1 rnd1 ≠ ipc_filename nowMs2 rnd2 →
       files (final r2) !! path1 = Some (JSON_stringify data1)
       ∧ Forall (λ fs', files fs' !! path1 = Some (JSON_stringify data1)) (seen r2))
  ∧ (ipc_filename nowMs1 rnd1 = ipc_filename nowMs2 rnd2 →
       files (final r2) = <[path2 := JSON_stringify data2]> (delete (path2 +:+ ".tmp") (files fs))).
Proof.
  intros path1 path2 r1 r2. subst r1 r2.
  rewrite !writeIpcFile_run. cbv zeta. fold path1 path2.
  cbn [outcome final seen files dirs set_files].
  pose proof (temp_path_fresh path1) as Hf1.
  pose proof (temp_path_fresh path2) as Hf2.
  assert (path1 ≠ path2 +:+ ".tmp") as H12.
  { subst path1 path2. rewrite !ipc_filename_json. apply final_path_not_temp. }
  assert (path2 ≠ path1 +:+ ".tmp") as H21.
  { subst path1 path2. rewrite !ipc_filename_json. apply final_path_not_temp. }
  assert (ipc_filename nowMs1 rnd1 ≠ ipc_filename nowMs2 rnd2 → path1 ≠ path2) as Hne.
  { intros Hn Heq. by apply Hn, (path_join_inj dir). }
  assert (ipc_filename nowMs1 rnd1 = ipc_filename nowMs2 rnd2 → path1 = path2) as Heq'.
  { intros Heq. subst path1 path2. by rewrite Heq. }
  clearbody path1 path2.
  generalize (JSON_stringify data1) (JSON_stringify data2). intros c1 c2.
  split_and!.
  - by rewrite lookup_insert_eq.
  - rewrite lookup_insert_ne by done.
    destruct (decide (path1 +:+ ".tmp" = path2 +:+ ".tmp")) as [->|Hnt].
    + by rewrite lookup_delete_eq.
    + rewrite lookup_delete_ne, lookup_insert_ne by done.
      rewrite lookup_insert_ne by done. by rewrite lookup_delete_eq.
  - rewrite lookup_insert_ne by done. by rewrite lookup_delete_eq.
  - intros Hn. specialize (Hne Hn). clear Heq'.
    assert (∀ m : gmap string string, m !! path1 = Some c1 →
              ∀ c, <[path2 +:+ ".tmp" := c]> m !! path1 = Some c1) as Htmp.
    { intros m Hm c. by rewrite lookup_insert_ne. }
    assert ((<[path1 := c1]> (delete (path1 +:+ ".tmp")
               (<[path1 +:+ ".tmp" := c1]> (files fs))) : gmap string string) !! path1
            = Some c1) as Hbase by apply lookup_insert_eq.
    split.
    + rewrite lookup_insert_ne by done. rewrite lookup_delete_ne by done.
      by apply Htmp.
    + constructor; [done|]. apply Forall_app. split.
      * apply Forall_app. split.
        -- apply Forall_fmap, Forall_forall. intros k _. simpl. by apply Htmp.
        -- constructor; [|done]. simpl. by apply Htmp.
      * constructor; [|done]. simpl.
        rewrite lookup_insert_ne by done. rewrite lookup_delete_ne by done.
        by apply Htmp.
  - intros Heq. specialize (Heq' Heq). subst path2. clear Hne H12 H21 Hf2.
    apply map_eq. intros k.
    destruct (decide (k = path1)) as [->|Hk1]; [by rewrite !lookup_insert_eq|].
    rewrite !(lookup_insert_ne _ path1) by done.
    destruct (decide (k = path1 +:+ ".tmp")) as [->|Hk2]; [by rewrite !lookup_delete_eq|].
    rewrite !lookup_delete_ne by done.
    rewrite lookup_insert_ne by done. rewrite lookup_insert_ne by done.
    rewrite lookup_delete_ne by done. by rewrite lookup_insert_ne.
Qed.

(** ** The tools that write one envelope *)

Lemma write_then_answer {A} dir data nowMs rnd (answer : string → A) fs :
  let path := path_join dir (ipc_filename nowMs rnd) in
  let r := (filename <- writeIpcFile dir data nowMs rnd ;; ret (answer filename)) fs in
  outcome r = Ok (answer (ipc_filename nowMs rnd))
  ∧ files (final r) = <[path := JSON_stringify data]> (delete (path +:+ ".tmp") (files fs))
  ∧ files (final r) !! path = Some (JSON_stringify data)
  ∧ seen r ≠ [].
Proof.
  intros path r. subst r. unfold bind. rewrite writeIpcFile_run. cbv zeta.
  fold path. cbn [outcome final seen files dirs set_files ret].
  split; [done|]. split; [by rewrite delete_insert_eq|].
  split; [apply lookup_insert_eq|done].
Qed.

Section Tools.
Variable cron_parses : string → bool.
Variable date_valid : string → bool.

Local Abbreviation schedule_task := (Ipc.schedule_task cron_parses date_valid).
Local Abbreviation schedule_value_error := (Ipc.schedule_value_error cron_parses date_valid).


End Tools.

(** X12: [send_message] always queues the message: the envelope, carrying
    the caller's chat and group, is in the messages directory under the name
    the answer gives.  The envelope has a [buttons] field exactly when the
    list of button rows is non-empty, while the answer announces an inline
    keyboard whenever a list was passed at all; so for an empty list the
    answer announces a keyboard that the envelope does not carry. *)
Theorem send_message_buttons (ctx : IpcMcpContext) (args : SendMessageArgs)
    (nowMs : Z) (rnd isoNow : string) (fs : FS) :
  let r := send_message ctx args nowMs rnd isoNow fs in
  let data := send_message_data ctx args isoNow in
  outcome r = Ok (mkToolResult
                    ("Message queued for delivery (" +:+ ipc_filename nowMs rnd +:+ ")"
                     +:+ match buttons args with
                         | Some _ => " with inline keyboard"
                         | None => ""
                         end) false)
  ∧ files (final r) !! path_join MESSAGES_DIR (ipc_filename nowMs rnd)
    = Some (JSON_stringify data)
  ∧ json_field "chatJid" data = Some (JStr (chatJid ctx))
  ∧ json_field "groupFolder" data = Some (JStr (groupFolder ctx))
  ∧ json_field "buttons" data
    = match buttons args with
      | Some (row :: rows) => Some (buttons_json (row :: rows))
      | _ => None
      end.
Proof.
  intros r data. subst r. unfold send_message.
  destruct (write_then_answer MESSAGES_DIR (send_message_data ctx args isoNow) nowMs rnd
              (λ filename, mkToolResult
                 ("Message queued for delivery (" +:+ filename +:+ ")"
                  +:+ match buttons args with
                      | Some _ => " with inline keyboard"
                      | None => ""
                      end) false) fs) as (Ho & _ & Hf & _).
  split; [exact Ho|]. split; [exact Hf|].
  subst data. unfold send_message_data.
  split; [reflexivity|]. split; [reflexivity|].
  destruct (buttons args) as [[|row rows]|]; reflexivity.
Qed.

(** X13: [register_group] is for the main group only.  Called from any other
    group it answers with an error and does not touch the file system, so no
    registration request ever reaches the host; called from the main group it
    writes the request to the tasks directory. *)
Theorem register_group_main_only (ctx : IpcMcpContext) (args : RegisterGroupArgs)
    (nowMs : Z) (rnd isoNow : string) (fs : FS) :
  let r := register_group ctx args nowMs rnd isoNow fs in
  (isMain ctx = false →
     r = mkRun (Ok (mkToolResult "Only the main group can register new groups." true)) fs [])
  ∧ (isMain ctx = true →
       files (final r) !! path_join TASKS_DIR (ipc_filename nowMs rnd)
         = Some (JSON_stringify (register_group_data args isoNow))
       ∧ ∃ answer, outcome r = Ok answer ∧ isError answer = false)
  ∧ (final r ≠ fs → isMain ctx = true).
Proof.
  intros r. subst r. unfold register_group. destruct (isMain ctx); cbn [negb].
  - split; [done|]. split; [|done]. intros _.
    destruct (write_then_answer TASKS_DIR (register_group_data args isoNow) nowMs rnd
                (λ _, mkToolResult
                   ("Group " +:+ dq +:+ reg_name args +:+ dq
                    +:+ " registered. It will start receiving messages immediately.")
                   false) fs) as (Ho & _ & Hf & _).
    split; [exact Hf|]. eexists. split; [exact Ho|done].
  - split; [done|]. split; [done|]. cbn [ret final]. done.
Qed.

(** ** An email tool end to end *)

Section EmailTools.
Variable JSON_parse : string → Outcome json.
Variable host : Z → FS → FS.

Local Abbreviation list_email_folders := (Ipc.list_email_folders JSON_parse host).
Local Abbreviation waitForEmailResult := (Ipc.waitForEmailResult JSON_parse host).
Local Abbreviation poll_state := (Ipc.poll_state host).

Lemma list_email_folders_run ctx idMs idRnd nowMs rnd isoNow fs :
  let requestId := generateRequestId idMs idRnd in
  let w := writeIpcFile MESSAGES_DIR (list_email_folders_data ctx requestId isoNow)
             nowMs rnd fs in
  let v := waitForEmailResult requestId 30000 (final w) in
  outcome (list_email_folders ctx idMs idRnd nowMs rnd isoNow fs)
    = match outcome v with
      | Ok result => list_email_folders_answer result
      | Throw err => Throw err
      end
  ∧ final (list_email_folders ctx idMs idRnd nowMs rnd isoNow fs) = final v.
Proof.
  intros requestId w v. unfold Ipc.list_email_folders. fold requestId.
  unfold bind. fold w.
  assert (outcome w = Ok (ipc_filename nowMs rnd)) as ->.
  { subst w. by rewrite writeIpcFile_run. }
  cbv zeta. fold v. by destruct (outcome v).
Qed.


End EmailTools.

(** ** The properties at the sample inputs *)

(** A wait of 1.2 seconds with nobody answering: three sleeps, then the
    timeout, and the file system as it was. *)
Lemma wait_timeout_after_all_polls_witness :
  waitForEmailResult sampleParse silentHost "req-1" 1200 emptyFS
  = mkRun (Ok (failure "Request timed out")) emptyFS [emptyFS; emptyFS; emptyFS].
Proof.
  rewrite wait_timeout_after_all_polls; [reflexivity|].
  intros k _. by rewrite poll_state_silent.
Defined.

(** The host answers request [req-1] during the second sleep, once with a
    document that parses and once with one that does not; then a second wait
    of five seconds is made with nobody answering. *)
Lemma result_consumed_iff_parsed_witness :
  outcome (waitForEmailResult sampleParse silentHost "req-1" 5000
             (final (waitForEmailResult sampleParse (sampleHost "{}") "req-1" 30000 emptyFS)))
    = Ok (failure "Request timed out")
  ∧ outcome (waitForEmailResult sampleParse silentHost "req-1" 5000
               (final (waitForEmailResult sampleParse (sampleHost "{oops") "req-1" 30000
                         emptyFS)))
    = Ok (failure "Failed to read result: SyntaxError: Unexpected token").
Proof.
  split.
  - pose proof (result_consumed_iff_parsed sampleParse (sampleHost "{}") "req-1" 30000 5000
                  emptyFS 2 "{}") as H.
    destruct H as (_ & Ho2 & _); [unfold pollInterval; lia| |reflexivity|lia|exact Ho2].
    intros [|[|k]] Hk; [reflexivity|reflexivity|lia].
  - pose proof (result_consumed_iff_parsed sampleParse (sampleHost "{oops") "req-1" 30000 5000
                  emptyFS 2 "{oops") as H.
    destruct H as (Ho1 & Ho2 & _); [unfold pollInterval; lia| |reflexivity|lia|].
    + intros [|[|k]] Hk; [reflexivity|reflexivity|lia].
    + rewrite Ho2. exact Ho1.
Defined.

(** Two envelopes written a millisecond apart: both are there afterwards. *)
Lemma writeIpcFile_twice_witness :
  files (final (writeIpcFile TASKS_DIR (JObj [("type", JStr "resume_task")])
                  (sampleNowMs + 1) sampleRnd
                  (final (writeIpcFile TASKS_DIR (JObj [("type", JStr "pause_task")])
                            sampleNowMs sampleRnd emptyFS))))
    !! sampleTaskFile
  = Some (JSON_stringify (JObj [("type", JStr "pause_task")])).
Proof.
  destruct (writeIpcFile_twice TASKS_DIR (JObj [("type", JStr "pause_task")])
              (JObj [("type", JStr "resume_task")]) sampleNowMs (sampleNowMs + 1)
              sampleRnd sampleRnd emptyFS) as (_ & _ & _ & Hboth & _).
  refine (proj1 (Hboth _)). vm_compute. discriminate.
Defined.

(** The sample context is not the main group: its registration request is
    refused and nothing is written. *)
Lemma register_group_main_only_witness :
  register_group sampleCtx (mkRegisterGroupArgs "1203@g.us" "Family" "family-chat" "@Andy")
    sampleNowMs sampleRnd sampleIso emptyFS
  = mkRun (Ok (mkToolResult "Only the main group can register new groups." true)) emptyFS [].
Proof.
  exact (proj1 (register_group_main_only sampleCtx
                  (mkRegisterGroupArgs "1203@g.us" "Family" "family-chat" "@Andy")
                  sampleNowMs sampleRnd sampleIso emptyFS) eq_refl).
Defined.


End IpcMore.

(* ===================================================================== *)
(** * Further properties of the task store                               *)
(* ===================================================================== *)

Module DbMore.
Import Db DbSpec.

(** ** Orders *)

Lemma text_lt_not_le a b : text_lt a b ↔ ¬ text_le b a.
Proof.
  unfold text_lt, text_le, String.le, String.leb.
  rewrite (String.compare_antisym b a).
  destruct (String.compare a b); simpl; split; try done; try by intros _ [].
  all: intros H; by destruct H.
Qed.

#[global] Instance by_created_at_desc_trans : Transitive by_created_at_desc.
Proof. intros t1 t2 t3 H12 H23. unfold by_created_at_desc in *. by etrans. Qed.

#[global] Instance by_created_at_desc_total : Total by_created_at_desc.
Proof. intros t1 t2. unfold by_created_at_desc. destruct (total text_le (created_at t1) (created_at t2)); auto. Qed.

#[global] Instance by_run_at_desc_trans : Transitive by_run_at_desc.
Proof. intros l1 l2 l3 H12 H23. unfold by_run_at_desc in *. by etrans. Qed.

#[global] Instance by_run_at_desc_total : Total by_run_at_desc.
Proof. intros l1 l2. unfold by_run_at_desc. destruct (total text_le (run_at l1) (run_at l2)); auto. Qed.

(** ** createTask *)

Lemma getTaskById_None i db :
  getTaskById i db = None ↔ ¬ Exists (λ t, id t = i) (scheduled_tasks db).
Proof.
  unfold getTaskById. rewrite head_None, Exists_exists. split.
  - intros Hnil (t & Hin & Hid).
    assert (t ∈ filter (λ t, id t = i) (scheduled_tasks db)) as Hf
      by (by apply list_elem_of_filter).
    rewrite Hnil in Hf. by apply not_elem_of_nil in Hf.
  - intros Hnone. destruct (filter _ _) as [|t l] eqn:E; [done|].
    exfalso. apply Hnone. exists t.
    assert (t ∈ filter (λ t, id t = i) (scheduled_tasks db)) as Hf
      by (rewrite E; apply list_elem_of_here).
    apply list_elem_of_filter in Hf as [? ?]. done.
Qed.

Lemma is_due_new_task_row now task : is_due now (new_task_row task) ↔ is_due now task.
Proof. done. Qed.

(** X15: creating a task under an id the store does not hold yet succeeds,
    and the task can be read back by that id: it is the task given, with no
    last run and no last result, and with context mode ['isolated'] when none
    was given.  No other task and no run log changes.  From then on the task
    is among the due tasks of a moment exactly when it is ['active'] and its
    [next_run] is at or before that moment. *)
Theorem createTask_then_read (task : ScheduledTask) (db : Database) (now : string) :
  getTaskById (id task) db = None →
  ∃ db', createTask task db = Some db'
    ∧ getTaskById (id task) db' = Some (new_task_row task)
    ∧ (last_run (new_task_row task), last_result (new_task_row task)) = (None, None)
    ∧ context_mode (new_task_row task)
      = (if String.eqb (context_mode task) "" then "isolated" else context_mode task)
    ∧ (∀ j, j ≠ id task → getTaskById j db' = getTaskById j db)
    ∧ task_run_logs db' = task_run_logs db
    ∧ getDueTasks now db'
      ≡ₚ getDueTasks now db
         ++ (if decide (is_due now task) then [new_task_row task] else []).
Proof.
  intros Hfresh. pose proof (proj1 (getTaskById_None _ _) Hfresh) as Hnone.
  unfold createTask. rewrite bool_decide_eq_false_2 by done.
  eexists. split; [done|]. unfold getTaskById in *. simpl.
  apply head_None in Hfresh. split_and!.
  - rewrite filter_app, Hfresh. simpl. by rewrite filter_cons_True.
  - done.
  - done.
  - intros j Hj. rewrite filter_app.
    rewrite (filter_cons_False _ (new_task_row task)) by (simpl; congruence).
    by rewrite filter_nil, app_nil_r.
  - done.
  - unfold getDueTasks. simpl. rewrite !merge_sort_Permutation, filter_app.
    apply Permutation_app; [done|].
    destruct (decide (is_due now task)) as [Hdue|Hndue].
    + by rewrite filter_cons_True by (by apply is_due_new_task_row).
    + by rewrite filter_cons_False by (by rewrite is_due_new_task_row).
Qed.

Lemma createTask_then_read_witness :
  getTaskById "task-9" sampleDb = None
  ∧ ∃ db', createTask sampleNew sampleDb = Some db'
      ∧ getTaskById "task-9" db' = Some (new_task_row sampleNew)
      ∧ context_mode (new_task_row sampleNew) = "isolated"
      ∧ getTaskById "task-1" db' = Some sampleOnce.
Proof.
  split; [reflexivity|].
  destruct (createTask_then_read sampleNew sampleDb "2026-02-01T15:30:00.000Z" eq_refl)
    as (db' & Hc & Hread & _ & Hctx & Hother & _).
  exists db'. split_and!; [done|done|done|].
  by rewrite Hother.
Defined.

(** X16: a task created for one group shows in that group's task list and in
    no other group's: the lists of the other groups are what they were, the
    list of its own group gains exactly the new task, and both that list and
    the list of all tasks stay ordered newest first. *)
Theorem createTask_group_isolation (task : ScheduledTask) (db db' : Database) :
  createTask task db = Some db' →
  (∀ g, g ≠ group_folder task → getTasksForGroup g db' = getTasksForGroup g db)
  ∧ getTasksForGroup (group_folder task) db'
    ≡ₚ new_task_row task :: getTasksForGroup (group_folder task) db
  ∧ getAllTasks db' ≡ₚ new_task_row task :: getAllTasks db
  ∧ (∀ g, getTasksForGroup g db' ≡ₚ filter (λ t, group_folder t = g) (getAllTasks db'))
  ∧ (∀ g, StronglySorted by_created_at_desc (getTasksForGroup g db'))
  ∧ StronglySorted by_created_at_desc (getAllTasks db').
Proof.
  unfold createTask. case_bool_decide; [done|]. intros [= <-].
  unfold getTasksForGroup, getAllTasks. simpl. split_and!.
  - intros g Hg. rewrite filter_app.
    rewrite (filter_cons_False _ (new_task_row task)) by (simpl; congruence).
    by rewrite filter_nil, app_nil_r.
  - rewrite !merge_sort_Permutation, filter_app.
    rewrite (filter_cons_True _ (new_task_row task)) by done.
    rewrite filter_nil. by rewrite Permutation_app_comm.
  - rewrite !merge_sort_Permutation. by rewrite Permutation_app_comm.
  - intros g. by rewrite !merge_sort_Permutation.
  - intros g. apply (StronglySorted_merge_sort _).
  - apply (StronglySorted_merge_sort _).
Qed.

Lemma createTask_group_isolation_witness :
  ∃ db', createTask sampleNew sampleDb = Some db'
    ∧ getTasksForGroup "main" db' = getTasksForGroup "main" sampleDb
    ∧ getTasksForGroup "main" db' = [sampleOnce]
    ∧ length (getTasksForGroup "family" db') = 3.
Proof.
  exists (mkDatabase (scheduled_tasks sampleDb ++ [new_task_row sampleNew]) sampleLogs).
  assert (createTask sampleNew sampleDb
          = Some (mkDatabase (scheduled_tasks sampleDb ++ [new_task_row sampleNew]) sampleLogs))
    as Hc by reflexivity.
  destruct (createTask_group_isolation sampleNew sampleDb _ Hc) as (Hother & Hown & _).
  split_and!; [done| |reflexivity|].
  - by apply Hother.
  - by rewrite Hown.
Defined.

(** ** updateTask *)

(** [updateTask] sets the fields named in [updates] on the task with
    the id and keeps its other columns; a field given as [null] ([next_run])
    is stored as [NULL].  Other tasks and the run logs are unchanged, and for
    an id the table does not hold, or with no field named, nothing changes. *)
Theorem updateTask_then_read (i : string) (u : TaskUpdates) (db : Database) :
  (∀ t, getTaskById i db = Some t →
     ∃ t', getTaskById i (updateTask i u db) = Some t'
       ∧ prompt t' = default (prompt t) (upd_prompt u)
       ∧ schedule_type t' = default (schedule_type t) (upd_schedule_type u)
       ∧ schedule_value t' = default (schedule_value t) (upd_schedule_value u)
       ∧ next_run t' = default (next_run t) (upd_next_run u)
       ∧ status t' = default (status t) (upd_status u)
       ∧ (id t', group_folder t', chat_jid t', context_mode t')
         = (id t, group_folder t, chat_jid t, context_mode t)
       ∧ (last_run t', last_result t', created_at t')
         = (last_run t, last_result t, created_at t))
  ∧ (∀ j, j ≠ i → getTaskById j (updateTask i u db) = getTaskById j db)
  ∧ task_run_logs (updateTask i u db) = task_run_logs db
  ∧ (getTaskById i db = None → updateTask i u db = db)
  ∧ updateTask i noUpdates db = db.
Proof.
  split_and!.
  - intros t Ht. unfold updateTask. destruct (no_fields u) eqn:Hu.
    + exists t. destruct u as [[?|] [?|] [?|] [?|] [?|]]; try done.
    + exists (apply_updates u t). split; [|done].
      unfold getTaskById in *. simpl.
      rewrite (head_filter_map_update (λ t, id t = i)) by done.
      by rewrite Ht.
  - intros j Hj. unfold updateTask. destruct (no_fields u); [done|].
    unfold getTaskById. simpl.
    apply (head_filter_map_other (λ t, id t = j) (λ t, id t = i)); simpl; congruence.
  - unfold updateTask. by destruct (no_fields u).
  - intros Hnone. apply getTaskById_None in Hnone.
    unfold updateTask. destruct (no_fields u); [done|].
    destruct db as [tasks logs]. simpl in *. f_equal.
    induction tasks as [|t tasks IH]; [done|]. simpl.
    destruct (decide (id t = i)) as [Hid|Hid].
    + exfalso. apply Hnone. by left.
    + f_equal. apply IH. intros Hex. apply Hnone. by right.
  - done.
Qed.

Lemma updateTask_then_read_witness :
  getTaskById "task-3" sampleDb = Some samplePaused
  ∧ ∃ t', getTaskById "task-3"
            (updateTask "task-3" (mkTaskUpdates None None None (Some None) (Some "active")) sampleDb)
          = Some t'
      ∧ status t' = "active" ∧ next_run t' = None ∧ prompt t' = "water plants".
Proof.
  split; [reflexivity|].
  destruct (updateTask_then_read "task-3"
              (mkTaskUpdates None None None (Some None) (Some "active")) sampleDb)
    as (Hread & _).
  destruct (Hread samplePaused eq_refl) as (t' & Ht' & Hp & _ & _ & Hnr & Hst & _).
  exists t'. by split_and!.
Defined.

(** ** What is due after an update *)

Lemma filter_map_update_drop {A} (P Q : A → Prop)
    `{∀ x, Decision (P x)} `{∀ x, Decision (Q x)} (f : A → A) l :
  (∀ x, Q x → ¬ P (f x)) →
  filter P (map (λ x, if decide (Q x) then f x else x) l)
  = filter (λ x, ¬ Q x) (filter P l).
Proof.
  intros Hf. induction l as [|x l IH]; [done|]. simpl.
  destruct (decide (Q x)) as [Hx|Hx].
  - rewrite filter_cons_False by auto. rewrite IH.
    destruct (decide (P x)).
    + rewrite (filter_cons_True P) by done. by rewrite filter_cons_False by auto.
    + by rewrite (filter_cons_False P) by done.
  - destruct (decide (P x)).
    + rewrite !(filter_cons_True P) by done.
      rewrite (filter_cons_True (λ x, ¬ Q x)) by done. by f_equal.
    + by rewrite !(filter_cons_False P) by done.
Qed.

Lemma getDueTasks_drop now i (f : ScheduledTask → ScheduledTask) db :
  (∀ t, id t = i → ¬ is_due now (f t)) →
  getDueTasks now
    (mkDatabase (map (λ t, if decide (id t = i) then f t else t) (scheduled_tasks db))
                (task_run_logs db))
  ≡ₚ filter (λ t, id t ≠ i) (getDueTasks now db).
Proof.
  intros Hf. unfold getDueTasks. simpl. rewrite !merge_sort_Permutation.
  by rewrite (filter_map_update_drop (is_due now) (λ t, id t = i)).
Qed.

(** X17: a task whose status is set to anything but ['active'] (pausing
    it), or whose [next_run] is set to [null], is due at no moment: the due
    tasks are the ones due before, without it.  Setting the status back to
    ['active'] restores the table when the task was active before. *)
Theorem updateTask_not_active_never_due (i : string) (u : TaskUpdates) (db : Database) :
  (∃ s, upd_status u = Some s ∧ s ≠ "active") ∨ upd_next_run u = Some None →
  (∀ now, getDueTasks now (updateTask i u db)
          ≡ₚ filter (λ t, id t ≠ i) (getDueTasks now db))
  ∧ (∀ s, u = mkTaskUpdates None None None None (Some s) →
          Forall (λ t, id t = i → status t = "active") (scheduled_tasks db) →
          updateTask i (mkTaskUpdates None None None None (Some "active")) (updateTask i u db)
          = db).
Proof.
  intros Hu. split.
  - intros now. unfold updateTask.
    assert (no_fields u = false) as ->.
    { destruct Hu as [(s & Hs & _)|Hnr];
        destruct u as [[?|] [?|] [?|] [?|] [?|]]; simpl in *; done. }
    apply getDueTasks_drop. intros t _ (Hst & nr & Hnr & _). simpl in *.
    destruct Hu as [(s & Hs & Hne)|Hnone].
    + rewrite Hs in Hst. simpl in Hst. done.
    + rewrite Hnone in Hnr. simpl in Hnr. done.
  - intros s -> Hact. unfold updateTask. simpl.
    destruct db as [tasks logs]. simpl in *. f_equal.
    induction Hact as [|t tasks Ht Hact IH]; [done|]. simpl.
    destruct (decide (id t = i)) as [Hid|Hid].
    + simpl. rewrite decide_True by done. f_equal; [|done].
      destruct t; simpl in *. rewrite (Ht Hid). done.
    + rewrite decide_False by done. by f_equal.
Qed.

Lemma updateTask_not_active_never_due_witness :
  getDueTasks "2026-02-01T15:30:00.000Z" sampleDb = [sampleInterval; sampleOnce]
  ∧ getDueTasks "2026-02-01T15:30:00.000Z"
      (updateTask "task-2" (mkTaskUpdates None None None None (Some "paused")) sampleDb)
    ≡ₚ [sampleOnce]
  ∧ updateTask "task-2" (mkTaskUpdates None None None None (Some "active"))
      (updateTask "task-2" (mkTaskUpdates None None None None (Some "paused")) sampleDb)
    = sampleDb.
Proof.
  split; [vm_compute; reflexivity|].
  destruct (updateTask_not_active_never_due "task-2"
              (mkTaskUpdates None None None None (Some "paused")) sampleDb)
    as (Hdue & Hback).
  { left. exists "paused". split; [reflexivity|]. discriminate. }
  split.
  - rewrite Hdue. vm_compute. reflexivity.
  - apply (Hback "paused"); [reflexivity|].
    repeat constructor; vm_compute; congruence.
Defined.

(** X18: after [updateTaskAfterRun] a task that was given no next run is
    due at no later moment, and one that was given a next run is not due at
    any moment before it; once that moment is reached, a task that is
    ['active'] is due again. *)
Theorem updateTaskAfterRun_next_due
    (i : string) (nextRun : option string) (lastResult now later : string) (db : Database) :
  let db' := updateTaskAfterRun i nextRun lastResult now db in
  (nextRun = None ∨ (∃ nr, nextRun = Some nr ∧ text_lt later nr) →
     getDueTasks later db' ≡ₚ filter (λ t, id t ≠ i) (getDueTasks later db))
  ∧ (∀ nr t, nextRun = Some nr → text_le nr later →
       getTaskById i db = Some t → status t = "active" →
       ∃ t', getTaskById i db' = Some t' ∧ t' ∈ getDueTasks later db').
Proof.
  intros db'. split.
  - intros Hnr. apply getDueTasks_drop.
    intros t _ (Hst & nr & Hnext & Hle). simpl in *.
    destruct Hnr as [->|(nr' & -> & Hlt)]; [done|].
    injection Hnext as ->. by apply text_lt_not_le in Hlt.
  - intros nr t -> Hle Ht Hact.
    exists (after_run (Some nr) now lastResult t).
    assert (getTaskById i db' = Some (after_run (Some nr) now lastResult t)) as Hread.
    { unfold db', updateTaskAfterRun, getTaskById in *. simpl.
      rewrite (head_filter_map_update (λ t, id t = i)) by done. by rewrite Ht. }
    split; [done|].
    unfold getDueTasks. rewrite merge_sort_Permutation.
    apply list_elem_of_filter. split.
    + split; [done|]. by exists nr.
    + unfold getTaskById in Hread. apply head_Some_elem_of in Hread.
      by apply list_elem_of_filter in Hread as [_ ?].
Qed.

Lemma updateTaskAfterRun_next_due_witness :
  getDueTasks "2026-02-01T15:31:00.000Z"
    (updateTaskAfterRun "task-1" None "done" "2026-02-01T15:30:05.000Z" sampleDb)
  ≡ₚ [sampleInterval]
  ∧ getDueTasks "2026-02-01T15:04:00.000Z"
      (updateTaskAfterRun "task-2" (Some "2026-02-01T15:05:00.000Z") "ok"
         "2026-02-01T15:00:05.000Z" sampleDb)
    ≡ₚ [].
Proof.
  split.
  - destruct (updateTaskAfterRun_next_due "task-1" None "done" "2026-02-01T15:30:05.000Z"
                "2026-02-01T15:31:00.000Z" sampleDb) as (Hdrop & _).
    rewrite Hdrop by (by left). vm_compute. reflexivity.
  - destruct (updateTaskAfterRun_next_due "task-2" (Some "2026-02-01T15:05:00.000Z") "ok"
                "2026-02-01T15:00:05.000Z" "2026-02-01T15:04:00.000Z" sampleDb) as (Hdrop & _).
    rewrite Hdrop by (right; eexists; split; [reflexivity|vm_compute; reflexivity]).
    vm_compute. reflexivity.
Defined.

(** ** Run logs *)

Lemma sql_limit_split {A} (n : Z) (rows : list A) :
  ∃ rest, sql_limit n rows ++ rest = rows
    ∧ length (sql_limit n rows)
      = (if bool_decide (n < 0)%Z then length rows else Z.to_nat n `min` length rows).
Proof.
  unfold sql_limit. case_bool_decide.
  - exists []. by rewrite app_nil_r.
  - exists (drop (Z.to_nat n) rows). split; [apply take_drop|apply length_take].
Qed.

(** X19: [getTaskRunLogs] returns the newest runs of the task: the rows
    are runs of that task, newest first, [limit] of them when the task has
    that many (all of them when it has fewer or [limit] is negative), and
    every run of the task left out is no newer than every run returned. *)
Theorem getTaskRunLogs_newest_first (taskId : string) (limit : Z) (db : Database) :
  let logs := getTaskRunLogs taskId limit db in
  let all := filter (λ l, task_id l = taskId) (task_run_logs db) in
  StronglySorted by_run_at_desc logs
  ∧ length logs
    = (if bool_decide (limit < 0)%Z then length all else Z.to_nat limit `min` length all)
  ∧ ∃ rest, logs ++ rest ≡ₚ all
      ∧ ∀ l l', l ∈ logs → l' ∈ rest → text_le (run_at l') (run_at l).
Proof.
  intros logs all.
  pose proof (StronglySorted_merge_sort by_run_at_desc all) as Hsorted.
  pose proof (merge_sort_Permutation by_run_at_desc all) as Hperm.
  destruct (sql_limit_split limit (merge_sort by_run_at_desc all)) as (rest & Happ & Hlen).
  fold all in Happ. change (sql_limit limit (merge_sort by_run_at_desc all)) with logs in *.
  rewrite <- Happ in Hsorted. split_and!.
  - by apply StronglySorted_app_1_l in Hsorted.
  - rewrite Hlen. by rewrite (Permutation_length Hperm).
  - exists rest. split; [by rewrite Happ|].
    intros l l' Hl Hl'.
    by apply (StronglySorted_app_1_elem_of by_run_at_desc logs rest).
Qed.

Lemma getTaskRunLogs_newest_first_witness :
  getTaskRunLogs "task-2" 1 sampleDb
  = [mkTaskRunLog "task-2" "2026-02-01T14:55:00.000Z" 1200 "success" (Some "ok") None]
  ∧ length (getTaskRunLogs "task-2" 1 sampleDb) = 1
  ∧ length (getTaskRunLogs "task-2" (-1) sampleDb) = 2.
Proof.
  split; [vm_compute; reflexivity|].
  split.
  - destruct (getTaskRunLogs_newest_first "task-2" 1 sampleDb) as (_ & Hlen & _).
    rewrite Hlen. reflexivity.
  - destruct (getTaskRunLogs_newest_first "task-2" (-1) sampleDb) as (_ & Hlen & _).
    rewrite Hlen. reflexivity.
Defined.

Lemma sql_limit_neg {A} (n : Z) (rows : list A) : (n < 0)%Z → sql_limit n rows = rows.
Proof. intros Hn. unfold sql_limit. by rewrite bool_decide_eq_true_2. Qed.

Lemma head_sql_limit {A} (n : Z) (rows : list A) :
  n ≠ 0%Z → head (sql_limit n rows) = head rows.
Proof.
  intros Hn. unfold sql_limit. case_bool_decide; [done|].
  destruct (Z.to_nat n) as [|k] eqn:E; [lia|]. by destruct rows.
Qed.

(** X20: a run logged for a task of the table (the logs refer to their
    task) with a [run_at] later than every run of the task already logged is
    the first row [getTaskRunLogs] gives for that task, whatever the limit
    (other than 0).  The logs of the other tasks read as before, and the
    tasks are unchanged. *)
Theorem logTaskRun_newest_is_head (log : TaskRunLog) (limit : Z) (db : Database) :
  is_Some (getTaskById (task_id log) db) →
  Forall (λ l, task_id l = task_id log → text_lt (run_at l) (run_at log)) (task_run_logs db) →
  limit ≠ 0%Z →
  head (getTaskRunLogs (task_id log) limit (logTaskRun log db)) = Some log
  ∧ (∀ j n, j ≠ task_id log →
            getTaskRunLogs j n (logTaskRun log db) = getTaskRunLogs j n db)
  ∧ scheduled_tasks (logTaskRun log db) = scheduled_tasks db.
Proof.
  intros _ Hnewer Hlimit. split_and!; [| |done].
  - unfold getTaskRunLogs, logTaskRun. simpl. rewrite head_sql_limit by done.
    rewrite filter_app, (filter_cons_True _ log), filter_nil by done.
    set (old := filter (λ l, task_id l = task_id log) (task_run_logs db)).
    pose proof (StronglySorted_merge_sort by_run_at_desc (old ++ [log])) as Hsorted.
    pose proof (merge_sort_Permutation by_run_at_desc (old ++ [log])) as Hperm.
    destruct (merge_sort by_run_at_desc (old ++ [log])) as [|x rest].
    { apply Permutation_nil_l in Hperm. by destruct old. }
    simpl. f_equal.
    assert (x ∈ old ++ [log]) as Hx by (rewrite <- Hperm; by left).
    assert (log ∈ x :: rest) as Hlog
      by (rewrite Hperm; apply elem_of_app; right; by left).
    apply elem_of_app in Hx as [Hx|Hx%list_elem_of_singleton]; [|done].
    apply elem_of_cons in Hlog as [Hlog|Hlog]; [done|]. exfalso.
    apply StronglySorted_cons in Hsorted as [Hall _].
    rewrite Forall_forall in Hall. specialize (Hall log Hlog).
    apply list_elem_of_filter in Hx as [Hid Hx].
    rewrite Forall_forall in Hnewer. specialize (Hnewer x Hx Hid).
    by apply text_lt_not_le in Hnewer.
  - intros j n Hj. unfold getTaskRunLogs, logTaskRun. simpl.
    rewrite filter_app, (filter_cons_False _ log), filter_nil, app_nil_r by done.
    done.
Qed.

Lemma logTaskRun_newest_is_head_witness :
  head (getTaskRunLogs "task-2" 10 (logTaskRun sampleRun sampleDb)) = Some sampleRun
  ∧ getTaskRunLogs "task-1" 10 (logTaskRun sampleRun sampleDb) = getTaskRunLogs "task-1" 10 sampleDb.
Proof.
  destruct (logTaskRun_newest_is_head sampleRun 10 sampleDb) as (Hhead & Hother & _).
  - by eexists.
  - repeat constructor; vm_compute; congruence.
  - done.
  - split; [done|]. by apply Hother.
Defined.

(** ** deleteOldTaskRunLogs *)

Lemma filter_split_length {A} (P : A → Prop) `{∀ x, Decision (P x)} (l : list A) :
  length (filter P l) + length (filter (λ x, ¬ P x) l) = length l.
Proof.
  induction l as [|x l IH]; [done|].
  destruct (decide (P x)).
  - rewrite (filter_cons_True P), (filter_cons_False (λ x, ¬ P x)) by auto. simpl. lia.
  - rewrite (filter_cons_False P), (filter_cons_True (λ x, ¬ P x)) by auto. simpl. lia.
Qed.

Lemma filter_all {A} (P : A → Prop) `{∀ x, Decision (P x)} (l : list A) :
  Forall P l → filter P l = l.
Proof.
  induction 1 as [|x l Hx Hl IH]; [done|]. rewrite filter_cons_True by done. by f_equal.
Qed.

Lemma filter_none {A} (P : A → Prop) `{∀ x, Decision (P x)} (l : list A) :
  Forall (λ x, ¬ P x) l → filter P l = [].
Proof.
  induction 1 as [|x l Hx Hl IH]; [done|]. by rewrite filter_cons_False by done.
Qed.

(** X21: [deleteOldTaskRunLogs] removes exactly the runs with [run_at]
    before the cutoff and reports their number; every run left is at or
    after the cutoff, the tasks are unchanged, the logs left keep their
    order, and a second call with the same cutoff deletes nothing. *)
Theorem deleteOldTaskRunLogs_correct (cutoff : string) (db : Database) :
  let n := (deleteOldTaskRunLogs cutoff db).1 in
  let db' := (deleteOldTaskRunLogs cutoff db).2 in
  n + length (task_run_logs db') = length (task_run_logs db)
  ∧ (∀ l, l ∈ task_run_logs db' ↔ l ∈ task_run_logs db ∧ text_le cutoff (run_at l))
  ∧ task_run_logs db' `sublist_of` task_run_logs db
  ∧ scheduled_tasks db' = scheduled_tasks db
  ∧ deleteOldTaskRunLogs cutoff db' = (0, db')
  ∧ (∀ taskId, getTaskRunLogs taskId (-1) db'
               ≡ₚ filter (λ l, text_le cutoff (run_at l)) (getTaskRunLogs taskId (-1) db)).
Proof.
  intros n db'. unfold n, db', deleteOldTaskRunLogs. simpl.
  assert (∀ l : TaskRunLog, ¬ text_lt (run_at l) cutoff ↔ text_le cutoff (run_at l)) as Hle.
  { intros l. rewrite text_lt_not_le. split; [apply dec_stable|auto]. }
  split_and!.
  - apply filter_split_length.
  - intros l. rewrite list_elem_of_filter, Hle. tauto.
  - apply sublist_filter.
  - done.
  - f_equal.
    + rewrite filter_none; [done|]. apply Forall_forall. intros l Hl.
      by apply list_elem_of_filter in Hl as [? _].
    + f_equal. apply filter_all. apply Forall_forall. intros l Hl.
      by apply list_elem_of_filter in Hl as [? _].
  - intros taskId. unfold getTaskRunLogs. rewrite !sql_limit_neg by lia. simpl.
    rewrite !merge_sort_Permutation, !list_filter_filter.
    erewrite list_filter_iff; [done|]. intros l. simpl. rewrite Hle. tauto.
Qed.

Lemma deleteOldTaskRunLogs_correct_witness :
  (deleteOldTaskRunLogs "2026-02-01T14:30:00.000Z" sampleDb).1 = 1
  ∧ length (task_run_logs (deleteOldTaskRunLogs "2026-02-01T14:30:00.000Z" sampleDb).2) = 2
  ∧ getTaskRunLogs "task-1" 10 (deleteOldTaskRunLogs "2026-02-01T14:30:00.000Z" sampleDb).2 = [].
Proof.
  destruct (deleteOldTaskRunLogs_correct "2026-02-01T14:30:00.000Z" sampleDb) as (Hcount & _).
  split_and!; [reflexivity| |reflexivity].
  change (length (task_run_logs sampleDb)) with (1 + 2) in Hcount.
  change ((deleteOldTaskRunLogs "2026-02-01T14:30:00.000Z" sampleDb).1) with 1 in Hcount.
  lia.
Defined.

End DbMore.

(* ===================================================================== *)
(** * Properties of the chat metadata                                    *)
(* ===================================================================== *)

Module ChatsMore.
Import Chats.

#[global] Instance by_time_desc_trans : Transitive by_time_desc.
Proof. intros c1 c2 c3 H12 H23. unfold by_time_desc in *. by etrans. Qed.

#[global] Instance by_time_desc_total : Total by_time_desc.
Proof.
  intros c1 c2. unfold by_time_desc.
  destruct (total Db.text_le (last_message_time c1) (last_message_time c2)); auto.
Qed.

Lemma text_max_le_l a b : Db.text_le a (text_max a b).
Proof.
  unfold text_max. destruct (decide (Db.text_le a b)); [done|].
  by destruct (total Db.text_le a a).
Qed.

Lemma text_max_le_r a b : Db.text_le b (text_max a b).
Proof.
  unfold text_max. destruct (decide (Db.text_le a b)) as [|Hn].
  - by destruct (total Db.text_le b b).
  - by destruct (total Db.text_le a b).
Qed.

Lemma text_max_cases a b : text_max a b = a ∨ text_max a b = b.
Proof. unfold text_max. destruct (decide (Db.text_le a b)); auto. Qed.

Lemma upsert_lookup chatJid ins upd chats :
  upsert chatJid ins upd chats !! chatJid
  = Some (match chats !! chatJid with Some row => upd row | None => ins end).
Proof. unfold upsert. destruct (chats !! chatJid); by rewrite lookup_insert_eq. Qed.

Lemma upsert_lookup_ne chatJid ins upd chats j :
  j ≠ chatJid → upsert chatJid ins upd chats !! j = chats !! j.
Proof. intros Hj. unfold upsert. destruct (chats !! chatJid); by rewrite lookup_insert_ne. Qed.

Lemma storeChatMetadata_lookup_ne chatJid ts nm chats j :
  j ≠ chatJid → storeChatMetadata chatJid ts nm chats !! j = chats !! j.
Proof.
  intros Hj. unfold storeChatMetadata. destruct (given nm); by apply upsert_lookup_ne.
Qed.

(** X22: [storeChatMetadata] never moves the time of a chat backwards.
    Afterwards the chat is in the table with a time that is the later of the
    time it had and the one given (the one given for a new chat).  Its name is
    the name given; when no name, or an empty one, is given, it is the name it
    had, and the jid for a new chat.  No other chat changes. *)
Theorem storeChatMetadata_keeps_latest
    (chatJid ts : string) (nm : option string) (chats : Table) :
  ∃ row, storeChatMetadata chatJid ts nm chats !! chatJid = Some row
    ∧ Db.text_le ts (row_time row)
    ∧ (∀ old, chats !! chatJid = Some old →
         Db.text_le (row_time old) (row_time row)
         ∧ (row_time row = row_time old ∨ row_time row = ts)
         ∧ row_name row = default (row_name old) (given nm))
    ∧ (chats !! chatJid = None →
         row_time row = ts ∧ row_name row = default chatJid (given nm))
    ∧ ∀ j, j ≠ chatJid → storeChatMetadata chatJid ts nm chats !! j = chats !! j.
Proof.
  unfold storeChatMetadata.
  destruct (given nm) as [n|]; rewrite upsert_lookup;
    (eexists; split; [done|]);
    destruct (chats !! chatJid) as [old|]; simpl; split_and!;
    try done; try apply text_max_le_r; try (by destruct (total Db.text_le ts ts));
    try (intros old' [= <-]; split_and!;
         [apply text_max_le_l|apply text_max_cases|done]);
    intros j Hj; by apply upsert_lookup_ne.
Qed.

Lemma storeChatMetadata_keeps_latest_witness :
  ∃ row, storeChatMetadata "12345@g.us" "2026-01-31T23:00:00.000Z" None sampleChats
           !! "12345@g.us" = Some row
    ∧ row_time row = "2026-02-01T10:00:00.000Z" ∧ row_name row = "Family".
Proof.
  destruct (storeChatMetadata_keeps_latest "12345@g.us" "2026-01-31T23:00:00.000Z" None
              sampleChats) as (row & Hrow & _).
  exists row. split; [done|].
  vm_compute in Hrow. injection Hrow as <-. split; reflexivity.
Defined.

(** X23: [updateChatName] sets the name of a chat and keeps its time; only
    a chat that is new gets the current time.  A later [storeChatMetadata]
    without a name keeps the name set.  No other chat changes. *)
Theorem updateChatName_keeps_time (chatJid nm now : string) (chats : Table) :
  let chats' := updateChatName chatJid nm now chats in
  (∀ old, chats !! chatJid = Some old →
     chats' !! chatJid = Some (mkChatRow nm (row_time old)))
  ∧ (chats !! chatJid = None → chats' !! chatJid = Some (mkChatRow nm now))
  ∧ (∀ ts, row_name <$> (storeChatMetadata chatJid ts None chats' !! chatJid) = Some nm)
  ∧ (∀ j, j ≠ chatJid → chats' !! j = chats !! j).
Proof.
  intros chats'. unfold chats', updateChatName. split_and!.
  - intros old Hold. by rewrite upsert_lookup, Hold.
  - intros Hnone. by rewrite upsert_lookup, Hnone.
  - intros ts. unfold storeChatMetadata. simpl. rewrite !upsert_lookup.
    by destruct (chats !! chatJid).
  - intros j Hj. by apply upsert_lookup_ne.
Qed.

Lemma updateChatName_keeps_time_witness :
  updateChatName "12345@g.us" "Family & Friends" "2026-02-01T12:00:00.000Z" sampleChats
    !! "12345@g.us"
  = Some (mkChatRow "Family & Friends" "2026-02-01T10:00:00.000Z").
Proof.
  destruct (updateChatName_keeps_time "12345@g.us" "Family & Friends"
              "2026-02-01T12:00:00.000Z" sampleChats) as (Hold & _).
  apply (Hold (mkChatRow "Family" "2026-02-01T10:00:00.000Z")). reflexivity.
Defined.

Lemma getAllChats_elem_of chats c :
  c ∈ getAllChats chats ↔ chats !! jid c = Some (mkChatRow (name c) (last_message_time c)).
Proof.
  unfold getAllChats. rewrite merge_sort_Permutation, list_elem_of_fmap. split.
  - intros ([j row] & -> & Hin). apply elem_of_map_to_list in Hin.
    simpl. by destruct row.
  - intros Hc. exists (jid c, mkChatRow (name c) (last_message_time c)). split.
    + by destruct c.
    + by apply elem_of_map_to_list.
Qed.

(** [getAllChats] lists every chat of the table once, the most
    recently active first. *)
Theorem getAllChats_one_row_per_chat (chats : Table) :
  StronglySorted by_time_desc (getAllChats chats)
  ∧ NoDup (jid <$> getAllChats chats)
  ∧ (∀ c, c ∈ getAllChats chats
          ↔ chats !! jid c = Some (mkChatRow (name c) (last_message_time c)))
  ∧ length (getAllChats chats) = size chats.
Proof.
  split_and!.
  - apply (StronglySorted_merge_sort _).
  - unfold getAllChats. rewrite merge_sort_Permutation, <- list_fmap_compose.
    apply (NoDup_fst_map_to_list chats).
  - apply getAllChats_elem_of.
  - unfold getAllChats. rewrite (Permutation_length (merge_sort_Permutation _ _)).
    by rewrite length_fmap, length_map_to_list.
Qed.

(** X24: the time of the last group sync is kept in the chat
    ['__group_sync__']: what [setLastGroupSync] records, [getLastGroupSync]
    reads back, also after metadata of other chats was stored, and the entry
    is among the chats [getAllChats] lists.  No other chat changes. *)
Theorem group_sync_round_trip (now : string) (chats : Table) :
  now ≠ "" →
  getLastGroupSync (setLastGroupSync now chats) = Some now
  ∧ mkChatInfo "__group_sync__" "__group_sync__" now ∈ getAllChats (setLastGroupSync now chats)
  ∧ (∀ j, j ≠ "__group_sync__" → setLastGroupSync now chats !! j = chats !! j)
  ∧ (∀ j ts nm, j ≠ "__group_sync__" →
       getLastGroupSync (storeChatMetadata j ts nm (setLastGroupSync now chats)) = Some now)
  ∧ (∀ j nm now', j ≠ "__group_sync__" →
       getLastGroupSync (updateChatName j nm now' (setLastGroupSync now chats)) = Some now).
Proof.
  intros Hnow.
  assert (getLastGroupSync (setLastGroupSync now chats) = Some now) as Hread.
  { unfold getLastGroupSync, setLastGroupSync. rewrite lookup_insert_eq. simpl.
    destruct (String.eqb_spec now ""); done. }
  split_and!.
  - done.
  - apply getAllChats_elem_of. unfold setLastGroupSync. simpl. by rewrite lookup_insert_eq.
  - intros j Hj. unfold setLastGroupSync. by rewrite lookup_insert_ne.
  - intros j ts nm Hj. rewrite <- Hread. unfold getLastGroupSync.
    by rewrite storeChatMetadata_lookup_ne by congruence.
  - intros j nm now' Hj. rewrite <- Hread. unfold getLastGroupSync, updateChatName.
    by rewrite upsert_lookup_ne by congruence.
Qed.

Lemma group_sync_round_trip_witness :
  getLastGroupSync sampleChats = None
  ∧ getLastGroupSync (setLastGroupSync "2026-02-01T12:00:00.000Z" sampleChats)
    = Some "2026-02-01T12:00:00.000Z"
  ∧ length (getAllChats (setLastGroupSync "2026-02-01T12:00:00.000Z" sampleChats)) = 3.
Proof.
  split; [reflexivity|].
  destruct (group_sync_round_trip "2026-02-01T12:00:00.000Z" sampleChats) as (Hread & _).
  { discriminate. }
  split; [done|]. vm_compute. reflexivity.
Defined.

End ChatsMore.

(* ===================================================================== *)
(** * Properties of the message queries                                  *)
(* ===================================================================== *)

Module MessagesMore.
Import Messages.

#[global] Instance by_timestamp_trans : Transitive by_timestamp.
Proof. intros m1 m2 m3 H12 H23. unfold by_timestamp in *. by etrans. Qed.

#[global] Instance by_timestamp_total : Total by_timestamp.
Proof.
  intros m1 m2. unfold by_timestamp.
  destruct (total Db.text_le (timestamp m1) (timestamp m2)); auto.
Qed.

Lemma text_le_refl a : Db.text_le a a.
Proof. by destruct (total Db.text_le a a). Qed.

Lemma text_le_antisym a b : Db.text_le a b → Db.text_le b a → a = b.
Proof. unfold Db.text_le. apply (anti_symm String.le). Qed.

Lemma text_not_lt_le a b : ¬ Db.text_lt a b ↔ Db.text_le b a.
Proof. rewrite DbMore.text_lt_not_le. split; [apply dec_stable|auto]. Qed.

Lemma text_le_lt_trans a b c : Db.text_le a b → Db.text_lt b c → Db.text_lt a c.
Proof.
  intros Hab Hbc. apply DbMore.text_lt_not_le. intros Hca.
  apply DbMore.text_lt_not_le in Hbc. apply Hbc. by etrans.
Qed.

Lemma text_lt_le a b : Db.text_lt a b → Db.text_le a b.
Proof.
  intros Hlt. destruct (total Db.text_le a b) as [|Hba]; [done|].
  by apply DbMore.text_lt_not_le in Hlt.
Qed.

(** ** The cursor of getNewMessages *)

Lemma advance_le t m : Db.text_le t (timestamp m) → advance t m = timestamp m.
Proof.
  intros Hle. unfold advance. destruct (decide (Db.text_lt t (timestamp m))) as [|Hn]; [done|].
  apply text_not_lt_le in Hn. by apply text_le_antisym.
Qed.

Lemma foldl_advance_sorted rows t :
  StronglySorted by_timestamp rows →
  Forall (λ m, Db.text_le t (timestamp m)) rows →
  foldl advance t rows = default t (timestamp <$> last rows).
Proof.
  revert t. induction rows as [|m rows IH]; intros t Hsorted Hall; [done|].
  apply StronglySorted_cons in Hsorted as [Hm Hsorted].
  apply Forall_cons in Hall as [Hle Hall].
  simpl foldl. rewrite advance_le by done. rewrite IH by done.
  destruct rows as [|m' rows]; [done|]. rewrite last_cons_cons.
  destruct (last (m' :: rows)) eqn:E; [done|]. by apply last_None in E.
Qed.

Lemma sorted_last_max rows z m :
  StronglySorted by_timestamp rows → last rows = Some z → m ∈ rows →
  Db.text_le (timestamp m) (timestamp z).
Proof.
  intros Hsorted Hlast Hm. apply last_Some in Hlast as [rows' ->].
  apply elem_of_app in Hm as [Hm|Hm%list_elem_of_singleton].
  - by apply (StronglySorted_app_1_elem_of by_timestamp rows' [z] m z); [|done|left].
  - subst. apply text_le_refl.
Qed.

Section Queries.

Variable like : string → string → bool.

Lemma getNewMessages_rows jids lastTimestamp botPrefix msgs :
  (getNewMessages like jids lastTimestamp botPrefix msgs).1
  = merge_sort by_timestamp
      (filter (λ m, Db.text_lt lastTimestamp (timestamp m) ∧ chat_jid m ∈ jids
                    ∧ not_from_bot like botPrefix m) msgs).
Proof.
  destruct jids as [|j jids]; [|done]. simpl.
  rewrite DbMore.filter_none; [done|].
  apply Forall_forall. intros m _ (_ & Hin & _). by apply not_elem_of_nil in Hin.
Qed.

Lemma getNewMessages_newTimestamp jids lastTimestamp botPrefix msgs :
  (getNewMessages like jids lastTimestamp botPrefix msgs).2
  = foldl advance lastTimestamp (getNewMessages like jids lastTimestamp botPrefix msgs).1.
Proof. by destruct jids. Qed.

Lemma getNewMessages_elem_of jids lastTimestamp botPrefix msgs m :
  m ∈ (getNewMessages like jids lastTimestamp botPrefix msgs).1
  ↔ m ∈ msgs ∧ Db.text_lt lastTimestamp (timestamp m) ∧ chat_jid m ∈ jids
    ∧ like (botPrefix +:+ ":%") (content m) = false.
Proof.
  rewrite getNewMessages_rows, merge_sort_Permutation, list_elem_of_filter.
  unfold not_from_bot. tauto.
Qed.

(** X25: [getNewMessages] returns, oldest first, the messages of the given
    chats that are later than [lastTimestamp] and do not match the bot
    prefix pattern, and as [newTimestamp] the time of the latest of them
    ([lastTimestamp] when there is none).  Polling again from [newTimestamp]
    returns none of them a second time, whatever was stored in between, and
    returns nothing while the table is unchanged. *)
Theorem getNewMessages_cursor
    (jids : list string) (lastTimestamp botPrefix : string) (msgs : list NewMessage) :
  let rows := (getNewMessages like jids lastTimestamp botPrefix msgs).1 in
  let newTimestamp := (getNewMessages like jids lastTimestamp botPrefix msgs).2 in
  StronglySorted by_timestamp rows
  ∧ (∀ m, m ∈ rows ↔ m ∈ msgs ∧ Db.text_lt lastTimestamp (timestamp m) ∧ chat_jid m ∈ jids
                     ∧ like (botPrefix +:+ ":%") (content m) = false)
  ∧ newTimestamp = default lastTimestamp (timestamp <$> last rows)
  ∧ Db.text_le lastTimestamp newTimestamp
  ∧ (∀ m, m ∈ rows → Db.text_le (timestamp m) newTimestamp)
  ∧ (∀ msgs' m, m ∈ rows → m ∉ (getNewMessages like jids newTimestamp botPrefix msgs').1)
  ∧ getNewMessages like jids newTimestamp botPrefix msgs = ([], newTimestamp).
Proof.
  intros rows newTimestamp.
  assert (StronglySorted by_timestamp rows) as Hsorted.
  { unfold rows. rewrite getNewMessages_rows. apply (StronglySorted_merge_sort _). }
  assert (newTimestamp = default lastTimestamp (timestamp <$> last rows)) as Hnew.
  { unfold newTimestamp. rewrite getNewMessages_newTimestamp. fold rows.
    apply foldl_advance_sorted; [done|]. apply Forall_forall. intros m Hm.
    apply getNewMessages_elem_of in Hm as (_ & Hlt & _). by apply text_lt_le. }
  assert (∀ m, m ∈ rows → Db.text_le (timestamp m) newTimestamp) as Hmax.
  { intros m Hm. rewrite Hnew. destruct (last rows) as [z|] eqn:Hlast.
    - simpl. by apply (sorted_last_max rows).
    - apply last_None in Hlast. rewrite Hlast in Hm. by apply not_elem_of_nil in Hm. }
  assert (Db.text_le lastTimestamp newTimestamp) as Hle.
  { rewrite Hnew. destruct (last rows) as [z|] eqn:Hlast; [|apply text_le_refl].
    simpl. apply last_Some_elem_of in Hlast.
    apply getNewMessages_elem_of in Hlast as (_ & Hlt & _). by apply text_lt_le. }
  split_and!; try done.
  - intros m. apply getNewMessages_elem_of.
  - intros msgs' m Hm Hagain.
    apply getNewMessages_elem_of in Hagain as (_ & Hlt & _).
    apply DbMore.text_lt_not_le in Hlt. apply Hlt. by apply Hmax.
  - assert ((getNewMessages like jids newTimestamp botPrefix msgs).1 = []) as Hnone.
    { rewrite getNewMessages_rows. rewrite DbMore.filter_none; [done|].
      apply Forall_forall. intros m Hm (Hlt & Hin & Hbot).
      assert (m ∈ rows) as Hrow.
      { apply getNewMessages_elem_of. split_and!; try done.
        by apply (text_le_lt_trans _ newTimestamp). }
      apply DbMore.text_lt_not_le in Hlt. apply Hlt. by apply Hmax. }
    apply injective_projections; [done|].
    rewrite getNewMessages_newTimestamp, Hnone. done.
Qed.

(** ** getNewMessages and getMessagesSince *)

Lemma filter_or_disjoint {A} (P Q : A → Prop)
    `{∀ x, Decision (P x)} `{∀ x, Decision (Q x)} (l : list A) :
  (∀ x, P x → Q x → False) →
  filter (λ x, P x ∨ Q x) l ≡ₚ filter P l ++ filter Q l.
Proof.
  intros Hdisj. induction l as [|x l IH]; [done|].
  destruct (decide (P x)) as [HP|HP]; [|destruct (decide (Q x)) as [HQ|HQ]].
  - rewrite (filter_cons_True (λ x, P x ∨ Q x)), (filter_cons_True P) by auto.
    rewrite (filter_cons_False Q) by eauto. simpl. by f_equiv.
  - rewrite (filter_cons_True (λ x, P x ∨ Q x)), (filter_cons_False P) by auto.
    rewrite (filter_cons_True Q) by done. rewrite IH. apply Permutation_middle.
  - rewrite (filter_cons_False (λ x, P x ∨ Q x)), (filter_cons_False P) by tauto.
    by rewrite (filter_cons_False Q) by done.
Qed.

(** X26: over an unchanged table, what [getNewMessages] returns for a list
    of distinct chats is, up to order, what [getMessagesSince] returns for
    each of them, put together; for a single chat the two return the same
    list. *)
Theorem getNewMessages_by_chat
    (jids : list string) (since botPrefix : string) (msgs : list NewMessage) :
  NoDup jids →
  (getNewMessages like jids since botPrefix msgs).1
  ≡ₚ concat (map (λ j, getMessagesSince like j since botPrefix msgs) jids)
  ∧ ∀ j, (getNewMessages like [j] since botPrefix msgs).1
         = getMessagesSince like j since botPrefix msgs.
Proof.
  intros Hnodup. split.
  - rewrite getNewMessages_rows, merge_sort_Permutation.
    induction Hnodup as [|j jids Hj Hnodup IH].
    + rewrite DbMore.filter_none; [done|].
      apply Forall_forall. intros m _ (_ & Hin & _). by apply not_elem_of_nil in Hin.
    + simpl. unfold getMessagesSince at 1. rewrite merge_sort_Permutation, <- IH.
      rewrite <- filter_or_disjoint.
      * erewrite list_filter_iff; [done|]. intros m. simpl. rewrite elem_of_cons. tauto.
      * intros m (Hjid & _) (_ & Hin & _). simpl in *. congruence.
  - intros j. unfold getNewMessages, getMessagesSince. simpl. f_equal.
    apply list_filter_iff. intros m. rewrite list_elem_of_singleton. tauto.
Qed.

End Queries.

Lemma getNewMessages_cursor_witness :
  getNewMessages prefix_like ["12345@g.us"] "2025-12-31T00:00:00.000Z" "Andy" sampleMessages
  = ([sampleAsk; sampleThanks], "2026-02-01T12:00:00.000Z")
  ∧ getNewMessages prefix_like ["12345@g.us"] "2026-02-01T12:00:00.000Z" "Andy" sampleMessages
    = ([], "2026-02-01T12:00:00.000Z").
Proof.
  split; [vm_compute; reflexivity|].
  destruct (getNewMessages_cursor prefix_like ["12345@g.us"] "2025-12-31T00:00:00.000Z" "Andy"
              sampleMessages) as (_ & _ & _ & _ & _ & _ & Hagain).
  exact Hagain.
Defined.

Lemma getNewMessages_by_chat_witness :
  (getNewMessages prefix_like ["12345@g.us"; "67890@g.us"] "2025-12-31T00:00:00.000Z" "Andy"
     sampleMessages).1
  ≡ₚ [sampleAsk; sampleThanks; sampleHello]
  ∧ getMessagesSince prefix_like "67890@g.us" "2025-12-31T00:00:00.000Z" "Andy" sampleMessages
    = [sampleHello].
Proof.
  destruct (getNewMessages_by_chat prefix_like ["12345@g.us"; "67890@g.us"]
              "2025-12-31T00:00:00.000Z" "Andy" sampleMessages) as (Hperm & _).
  { apply NoDup_cons. split; [|apply NoDup_singleton].
    rewrite list_elem_of_singleton. discriminate. }
  split; [|vm_compute; reflexivity].
  rewrite Hperm. vm_compute. reflexivity.
Defined.

(** ** Storing a message *)

Lemma insert_or_replace_elem_of conflict admissible row msgs msgs' m :
  insert_or_replace conflict admissible row msgs = Some msgs' →
  m ∈ msgs' ↔ m = row ∨ (m ∈ msgs ∧ conflict row m = false).
Proof.
  unfold insert_or_replace. destruct (admissible row); [|done]. intros [= <-].
  rewrite elem_of_app, list_elem_of_filter, list_elem_of_singleton. tauto.
Qed.

(** X27: when [storeGenericMessage] returns, the message is in the table
    with the fields given, together with every message it is not in conflict
    with.  [getMessagesSince] for its chat returns it exactly when its
    timestamp is later than the one asked for and its content does not match
    the bot prefix pattern.  When a message is in conflict with itself (it
    has a key), storing it a second time changes nothing. *)
Theorem storeGenericMessage_then_read
    (like : string → string → bool)
    (conflict : NewMessage → NewMessage → bool) (admissible : NewMessage → bool)
    (i chatJid sndr senderName cont ts : string) (isFromMe : bool)
    (since botPrefix : string) (msgs msgs' : list NewMessage) :
  storeGenericMessage conflict admissible i chatJid sndr senderName cont ts isFromMe msgs
  = Some msgs' →
  let row := mkNewMessage i chatJid sndr senderName cont ts (if isFromMe then 1 else 0) in
  (∀ m, m ∈ msgs' ↔ m = row ∨ (m ∈ msgs ∧ conflict row m = false))
  ∧ (row ∈ getMessagesSince like chatJid since botPrefix msgs'
     ↔ Db.text_lt since ts ∧ like (botPrefix +:+ ":%") cont = false)
  ∧ (∀ j m, m ∈ getMessagesSince like j since botPrefix msgs → conflict row m = false →
            m ∈ getMessagesSince like j since botPrefix msgs')
  ∧ (conflict row row = true →
     storeGenericMessage conflict admissible i chatJid sndr senderName cont ts isFromMe msgs'
     = Some msgs').
Proof.
  intros Hstore row. unfold storeGenericMessage in *. fold row in Hstore |- *.
  pose proof (λ m, insert_or_replace_elem_of _ _ _ _ _ m Hstore) as Helem.
  split_and!.
  - done.
  - unfold getMessagesSince. rewrite merge_sort_Permutation, list_elem_of_filter, Helem.
    unfold not_from_bot. simpl. split.
    + tauto.
    + intros [? ?]. split_and!; auto.
  - intros j m. unfold getMessagesSince.
    rewrite !merge_sort_Permutation, !list_elem_of_filter, Helem. tauto.
  - intros Hself. unfold insert_or_replace in *.
    destruct (admissible row); [|done]. injection Hstore as <-. f_equal.
    rewrite filter_app, (filter_cons_False _ row), filter_nil, app_nil_r
      by (by rewrite Hself).
    f_equal. apply list_filter_filter_l. done.
Qed.

Lemma storeGenericMessage_then_read_witness :
  storeGenericMessage same_id_and_chat known_chat "m4" "12345@g.us" "alice@s.whatsapp.net"
    "Alice" "thanks!" "2026-02-01T12:00:00.000Z" false sampleMessages
  = Some [sampleAsk; sampleReply; sampleHello; sampleEdited]
  ∧ storeGenericMessage same_id_and_chat known_chat "m4" "12345@g.us" "alice@s.whatsapp.net"
      "Alice" "thanks!" "2026-02-01T12:00:00.000Z" false
      [sampleAsk; sampleReply; sampleHello; sampleEdited]
    = Some [sampleAsk; sampleReply; sampleHello; sampleEdited].
Proof.
  assert (storeGenericMessage same_id_and_chat known_chat "m4" "12345@g.us"
            "alice@s.whatsapp.net" "Alice" "thanks!" "2026-02-01T12:00:00.000Z" false
            sampleMessages
          = Some [sampleAsk; sampleReply; sampleHello; sampleEdited]) as Hstore
    by reflexivity.
  split; [exact Hstore|].
  destruct (storeGenericMessage_then_read prefix_like same_id_and_chat known_chat "m4"
              "12345@g.us" "alice@s.whatsapp.net" "Alice" "thanks!"
              "2026-02-01T12:00:00.000Z" false "2026-01-01T00:00:00.000Z" "Andy"
              sampleMessages _ Hstore) as (_ & _ & _ & Hidem).
  apply Hidem. reflexivity.
Defined.

(** ** Compaction *)

Lemma sql_max_None ts : sql_max ts = None ↔ ts = [].
Proof. by destruct ts. Qed.

Lemma sql_max_Some ts t :
  sql_max ts = Some t → t ∈ ts ∧ Forall (λ x, Db.text_le x t) ts.
Proof.
  revert t. induction ts as [|x ts IH]; intros t; [done|]. simpl.
  destruct (sql_max ts) as [a|] eqn:E.
  - intros [= <-]. destruct (IH a eq_refl) as [Hin Hall]. split.
    + destruct (ChatsMore.text_max_cases a x) as [-> | ->]; [by right|by left].
    + constructor; [apply ChatsMore.text_max_le_r|].
      eapply Forall_impl; [done|]. intros y Hy. simpl in Hy.
      etrans; [done|]. apply ChatsMore.text_max_le_l.
  - intros [= <-]. apply sql_max_None in E as ->. split; [by left|].
    constructor; [apply text_le_refl|constructor].
Qed.

Lemma sql_max_newest chatJid cutoff msgs newest :
  last (getOldMessages chatJid cutoff msgs) = Some newest →
  sql_max (timestamp <$> filter (old_message chatJid cutoff) msgs) = Some (timestamp newest).
Proof.
  intros Hlast. unfold getOldMessages in Hlast.
  pose proof (StronglySorted_merge_sort by_timestamp
                (filter (old_message chatJid cutoff) msgs)) as Hsorted.
  pose proof (merge_sort_Permutation by_timestamp
                (filter (old_message chatJid cutoff) msgs)) as Hperm.
  assert (newest ∈ filter (old_message chatJid cutoff) msgs) as Hnewest.
  { rewrite <- Hperm. by apply last_Some_elem_of. }
  destruct (sql_max (timestamp <$> filter (old_message chatJid cutoff) msgs)) as [t|] eqn:E.
  - f_equal. apply sql_max_Some in E as [Hin Hall].
    apply list_elem_of_fmap in Hin as (m & -> & Hm).
    apply text_le_antisym.
    + apply (sorted_last_max _ newest m Hsorted Hlast). by rewrite Hperm.
    + rewrite Forall_forall in Hall. apply Hall. by apply list_elem_of_fmap_2.
  - apply sql_max_None in E. apply fmap_nil_inv in E. rewrite E in Hnewest.
    by apply not_elem_of_nil in Hnewest.
Qed.

Lemma getChatsWithOldMessages_elem_of cutoff msgs j :
  j ∈ getChatsWithOldMessages cutoff msgs ↔ ∃ m, m ∈ msgs ∧ old_message j cutoff m.
Proof.
  unfold getChatsWithOldMessages, old_message.
  rewrite elem_of_remove_dups, list_elem_of_fmap. split.
  - intros (m & -> & Hm). apply list_elem_of_filter in Hm as [? ?]. exists m. tauto.
  - intros (m & Hm & <- & ?). exists m. split; [done|]. apply list_elem_of_filter. tauto.
Qed.

Lemma compactOldMessages_cases conflict admissible chatJid cutoff summaryContent nowMs
    msgs msgs' :
  compactOldMessages conflict admissible chatJid cutoff summaryContent nowMs msgs
  = Some msgs' →
  (msgs' = msgs
   ∧ (sql_max (timestamp <$> filter (old_message chatJid cutoff) msgs) = None
      ∨ sql_max (timestamp <$> filter (old_message chatJid cutoff) msgs) = Some ""))
  ∨ ∃ ts, ts ≠ ""
      ∧ sql_max (timestamp <$> filter (old_message chatJid cutoff) msgs) = Some ts
      ∧ insert conflict admissible (summary_row chatJid summaryContent ts nowMs)
          (filter (λ m, ¬ old_message chatJid cutoff m) msgs) = Some msgs'
      ∧ msgs' = filter (λ m, ¬ old_message chatJid cutoff m) msgs
                ++ [summary_row chatJid summaryContent ts nowMs].
Proof.
  unfold compactOldMessages.
  destruct (sql_max _) as [[|c ts]|] eqn:Hmax.
  - intros [= <-]. left. auto.
  - intros Hins. right. exists (String c ts). split_and!; try done.
    unfold insert in Hins. destruct (_ && _); [|done]. by injection Hins as <-.
  - intros [= <-]. left. auto.
Qed.

(** X28: [compactOldMessages] puts one summary in place of the old
    messages of a chat (the ones before the cutoff that are not summaries
    themselves).  When it returns, the table holds the summary and the
    messages that were not old; the summary carries the timestamp of the
    newest message it replaces, the last one [getOldMessages] lists.
    Afterwards [getOldMessages] finds nothing for the chat,
    [getChatsWithOldMessages] no longer names it, the summaries of the chat
    are the earlier ones and the new one, and compacting again changes
    nothing. *)
Theorem compactOldMessages_replaces_old
    (conflict : NewMessage → NewMessage → bool) (admissible : NewMessage → bool)
    (chatJid cutoff summaryContent : string) (nowMs : Z)
    (msgs msgs' : list NewMessage) (newest : NewMessage) :
  last (getOldMessages chatJid cutoff msgs) = Some newest →
  timestamp newest ≠ "" →
  compactOldMessages conflict admissible chatJid cutoff summaryContent nowMs msgs
  = Some msgs' →
  let row := summary_row chatJid summaryContent (timestamp newest) nowMs in
  (∀ m, m ∈ msgs' ↔ m = row ∨ (m ∈ msgs ∧ ¬ old_message chatJid cutoff m))
  ∧ Db.text_lt (timestamp row) cutoff
  ∧ getOldMessages chatJid cutoff msgs' = []
  ∧ getCompactionSummaries chatJid msgs' ≡ₚ row :: getCompactionSummaries chatJid msgs
  ∧ (chatJid ∉ getChatsWithOldMessages cutoff msgs')
  ∧ (∀ j, j ≠ chatJid →
          (j ∈ getChatsWithOldMessages cutoff msgs' ↔ j ∈ getChatsWithOldMessages cutoff msgs))
  ∧ (∀ s n, compactOldMessages conflict admissible chatJid cutoff s n msgs' = Some msgs').
Proof.
  intros Hlast Hts Hrun row.
  pose proof (sql_max_newest _ _ _ _ Hlast) as Hmax.
  unfold compactOldMessages in Hrun. rewrite Hmax in Hrun.
  destruct (timestamp newest) as [|c ts] eqn:Hnewest; [done|].
  unfold insert in Hrun. destruct (_ && _); [|done]. injection Hrun as <-.
  fold row.
  assert (¬ old_message chatJid cutoff row) as Hrow by (by intros (_ & _ & ?)).
  assert (filter (old_message chatJid cutoff)
            (filter (λ m, ¬ old_message chatJid cutoff m) msgs ++ [row]) = [])
    as Hnone.
  { rewrite filter_app, (filter_cons_False _ row), filter_nil, app_nil_r by done.
    apply DbSpec.filter_filter_None. tauto. }
  assert (∀ m, m ∈ filter (λ m, ¬ old_message chatJid cutoff m) msgs ++ [row]
               ↔ m = row ∨ (m ∈ msgs ∧ ¬ old_message chatJid cutoff m)) as Helem.
  { intros m. rewrite elem_of_app, list_elem_of_filter, list_elem_of_singleton. tauto. }
  split_and!.
  - done.
  - assert (newest ∈ filter (old_message chatJid cutoff) msgs) as Hin.
    { rewrite <- (merge_sort_Permutation by_timestamp). by apply last_Some_elem_of. }
    apply list_elem_of_filter in Hin as [(_ & Hlt & _) _]. simpl. by rewrite <- Hnewest.
  - unfold getOldMessages. by rewrite Hnone.
  - unfold getCompactionSummaries. rewrite !merge_sort_Permutation.
    rewrite filter_app, (filter_cons_True _ row), filter_nil by done.
    rewrite list_filter_filter_l.
    + by rewrite Permutation_app_comm.
    + intros m [_ Hsum] (_ & _ & Hnot). done.
  - rewrite getChatsWithOldMessages_elem_of. intros (m & Hm & Hold).
    apply Helem in Hm as [->|[_ Hnot]]; done.
  - intros j Hj. rewrite !getChatsWithOldMessages_elem_of. split.
    + intros (m & Hm & Hold). exists m. split; [|done].
      apply Helem in Hm as [->|[? _]]; [|done]. by destruct Hold as [? _].
    + intros (m & Hm & Hold). exists m. split; [|done].
      apply Helem. right. split; [done|]. intros [? _]. destruct Hold as [? _]. congruence.
  - intros s n. unfold compactOldMessages. by rewrite Hnone.
Qed.

Lemma compactOldMessages_replaces_old_witness :
  compactOldMessages same_id_and_chat known_chat "12345@g.us" "2026-01-15T00:00:00.000Z"
    "[Compacted: 2026-01-01 to 2026-01-01, 2 messages]" 1770000000000 sampleMessages
  = Some [sampleHello; sampleThanks;
          summary_row "12345@g.us" "[Compacted: 2026-01-01 to 2026-01-01, 2 messages]"
            "2026-01-01T10:00:05.000Z" 1770000000000]
  ∧ getOldMessages "12345@g.us" "2026-01-15T00:00:00.000Z"
      [sampleHello; sampleThanks;
       summary_row "12345@g.us" "[Compacted: 2026-01-01 to 2026-01-01, 2 messages]"
         "2026-01-01T10:00:05.000Z" 1770000000000] = [].
Proof.
  assert (compactOldMessages same_id_and_chat known_chat "12345@g.us" "2026-01-15T00:00:00.000Z"
            "[Compacted: 2026-01-01 to 2026-01-01, 2 messages]" 1770000000000 sampleMessages
          = Some [sampleHello; sampleThanks;
                  summary_row "12345@g.us" "[Compacted: 2026-01-01 to 2026-01-01, 2 messages]"
                    "2026-01-01T10:00:05.000Z" 1770000000000]) as Hrun
    by (vm_compute; reflexivity).
  split; [exact Hrun|].
  destruct (compactOldMessages_replaces_old same_id_and_chat known_chat "12345@g.us"
              "2026-01-15T00:00:00.000Z" "[Compacted: 2026-01-01 to 2026-01-01, 2 messages]"
              1770000000000 sampleMessages
              [sampleHello; sampleThanks;
               summary_row "12345@g.us" "[Compacted: 2026-01-01 to 2026-01-01, 2 messages]"
                 "2026-01-01T10:00:05.000Z" 1770000000000]
              sampleReply) as (_ & _ & Hnone & _).
  - vm_compute. reflexivity.
  - discriminate.
  - exact Hrun.
  - exact Hnone.
Defined.

End MessagesMore.

(* ===================================================================== *)
(** * Properties of the compaction cycle                                 *)
(* ===================================================================== *)

Module CompactionMore.
Import Messages Compaction MessagesMore.

Lemma text_le_empty a : Db.text_le "" a.
Proof. by destruct a. Qed.

Lemma getOldMessages_nil chatJid cutoff msgs :
  getOldMessages chatJid cutoff msgs = [] ↔ filter (old_message chatJid cutoff) msgs = [].
Proof.
  unfold getOldMessages. split.
  - intros Hnil. apply Permutation_nil_r. rewrite <- Hnil.
    symmetry. apply merge_sort_Permutation.
  - by intros ->.
Qed.

Lemma old_message_own chatJid cutoff m :
  old_message chatJid cutoff m ↔ chat_jid m = chatJid ∧ old_message (chat_jid m) cutoff m.
Proof. unfold old_message. tauto. Qed.

Section WithEnvironment.

Variable conflict : NewMessage → NewMessage → bool.
Variable admissible : NewMessage → bool.
Variable callClaude : string → Store → option string * Store.
Variable yield : Store → Store.
Variable clock : nat → Z.

(** Nothing else writes to the store while the cycle awaits. *)
Hypothesis undisturbed : ∀ prompt st, (callClaude prompt st).2 = st.
Hypothesis undisturbed_yield : ∀ st, yield st = st.

Local Abbreviation compactChat := (Compaction.compactChat conflict admissible callClaude clock).
Local Abbreviation compactChats :=
  (Compaction.compactChats conflict admissible callClaude yield clock).
Local Abbreviation runCompaction :=
  (Compaction.runCompaction conflict admissible callClaude yield clock).

Local Abbreviation failed := (Compaction.failed conflict admissible callClaude).

Lemma compactChat_Threw chatJid cutoff k st st' :
  compactChat chatJid cutoff k st = Threw st' → st' = st ∧ failed.
Proof.
  unfold Compaction.compactChat.
  destruct (getOldMessages chatJid cutoff (messages st)) as [|first rest]; [done|].
  set (prompt := compaction_prompt _ _ _ _).
  pose proof (undisturbed prompt st) as Hsame.
  destruct (callClaude prompt st) as [[summary|] st0] eqn:Hcall; simpl in Hsame; subst st0.
  - destruct (compactOldMessages _ _ _ _ _ _ _) as [msgs'|] eqn:Hrun; [done|].
    intros [= <-]. split; [done|]. right.
    unfold compactOldMessages in Hrun.
    destruct (sql_max _) as [[|c ts]|]; try done. eauto.
  - intros [= <-]. split; [done|]. left. exists prompt, st. by rewrite Hcall.
Qed.

Lemma compactChat_Returned chatJid cutoff k st st' :
  dated st →
  compactChat chatJid cutoff k st = Returned st' →
  dated st'
  ∧ tasks st' = tasks st ∧ processed_emails st' = processed_emails st
  ∧ (∀ m, old_message (chat_jid m) cutoff m →
          (m ∈ messages st' ↔ m ∈ messages st ∧ chat_jid m ≠ chatJid))
  ∧ (∀ m, ¬ old_message (chat_jid m) cutoff m → m ∈ messages st → m ∈ messages st')
  ∧ (∀ m, m ∈ messages st' →
          m ∈ messages st ∨ (sender_name m = "[compacted]" ∧ chat_jid m = chatJid)).
Proof.
  intros Hdated. unfold Compaction.compactChat.
  destruct (getOldMessages chatJid cutoff (messages st)) as [|first rest] eqn:Hold.
  - intros [= <-]. split_and!; try done; [|auto].
    intros m Hm. split; [|tauto]. intros Hin. split; [done|]. intros Hc.
    apply getOldMessages_nil in Hold.
    assert (m ∈ filter (old_message chatJid cutoff) (messages st)) as Hf.
    { apply list_elem_of_filter. split; [|done]. apply old_message_own. auto. }
    rewrite Hold in Hf. by apply not_elem_of_nil in Hf.
  - set (prompt := compaction_prompt _ _ _ _).
    pose proof (undisturbed prompt st) as Hsame.
    destruct (callClaude prompt st) as [[summary|] st0]; simpl in Hsame; subst st0; [|done].
    destruct (compactOldMessages _ _ _ _ _ _ _) as [msgs'|] eqn:Hrun; [|done].
    intros [= <-]. simpl.
    assert (filter (old_message chatJid cutoff) (messages st) ≠ []) as Hsome.
    { intros Hnil. apply getOldMessages_nil in Hnil. congruence. }
    apply compactOldMessages_cases in Hrun as [[_ [Hmax|Hmax]]|(ts & Hts & Hmax & _ & ->)].
    + apply sql_max_None, fmap_nil_inv in Hmax. done.
    + apply sql_max_Some in Hmax as [Hin _].
      apply list_elem_of_fmap in Hin as (m & Hm & Hin).
      apply list_elem_of_filter in Hin as [_ Hin].
      unfold dated in Hdated. rewrite Forall_forall in Hdated. by destruct (Hdated m Hin).
    + assert (∀ m, m ∈ filter (λ m, ¬ old_message chatJid cutoff m) (messages st)
                        ++ [summary_row chatJid
                              (summary_content (timestamp first)
                                 (timestamp (List.last (first :: rest) first))
                                 (length (first :: rest)) summary) ts (clock k)]
                   ↔ m = summary_row chatJid
                           (summary_content (timestamp first)
                              (timestamp (List.last (first :: rest) first))
                              (length (first :: rest)) summary) ts (clock k)
                     ∨ (m ∈ messages st ∧ ¬ old_message chatJid cutoff m)) as Helem.
      { intros m. rewrite elem_of_app, list_elem_of_filter, list_elem_of_singleton. tauto. }
      split_and!; try done.
      * unfold dated. simpl. apply Forall_app. split.
        -- apply Forall_forall. intros m Hm. apply list_elem_of_filter in Hm as [_ Hm].
           unfold dated in Hdated. rewrite Forall_forall in Hdated. by apply Hdated.
        -- by repeat constructor.
      * intros m Hm. rewrite Helem. split.
        -- intros [->|[Hin Hnot]].
           ++ by destruct Hm as (_ & _ & ?).
           ++ split; [done|]. intros Hc. apply Hnot. apply old_message_own. auto.
        -- intros [Hin Hc]. right. split; [done|]. by intros [? _].
      * intros m Hnot Hin. apply Helem. right. split; [done|].
        intros Hc. apply Hnot. by apply old_message_own in Hc as [_ ?].
      * intros m Hm. apply Helem in Hm as [->|[? _]]; auto.
Qed.

Lemma compactChats_Returned chats cutoff k st st' :
  dated st →
  compactChats chats cutoff k st = Returned st' →
  tasks st' = tasks st ∧ processed_emails st' = processed_emails st
  ∧ (∀ m, old_message (chat_jid m) cutoff m →
          (m ∈ messages st' ↔ m ∈ messages st ∧ chat_jid m ∉ chats))
  ∧ (∀ m, ¬ old_message (chat_jid m) cutoff m → m ∈ messages st → m ∈ messages st')
  ∧ (∀ m, m ∈ messages st' →
          m ∈ messages st ∨ (sender_name m = "[compacted]" ∧ chat_jid m ∈ chats)).
Proof.
  revert k st. induction chats as [|c chats IH]; intros k st Hdated; simpl.
  - intros [= <-]. split_and!; try done; [|auto].
    intros m _. split; [|tauto]. intros ?. split; [done|]. apply not_elem_of_nil.
  - destruct (compactChat c cutoff k st) as [st1|st1] eqn:Hone; [|done].
    rewrite undisturbed_yield. intros Hrest.
    destruct (compactChat_Returned _ _ _ _ _ Hdated Hone)
      as (Hdated1 & Ht1 & He1 & Hold1 & Hkeep1 & Hnew1).
    destruct (IH _ _ Hdated1 Hrest) as (Ht & He & Hold & Hkeep & Hnew).
    split_and!; try congruence.
    + intros m Hm. rewrite (Hold m Hm), (Hold1 m Hm), not_elem_of_cons. tauto.
    + intros m Hm Hin. apply Hkeep; [done|]. by apply Hkeep1.
    + intros m Hin. apply Hnew in Hin as [Hin|[? ?]].
      * apply Hnew1 in Hin as [?|[? ?]]; [by left|]. right. split; [done|]. subst. by left.
      * right. split; [done|]. by right.
Qed.

Lemma compactChats_Threw chats cutoff k st st' :
  dated st →
  compactChats chats cutoff k st = Threw st' →
  failed
  ∧ tasks st' = tasks st ∧ processed_emails st' = processed_emails st
  ∧ (∀ m, ¬ old_message (chat_jid m) cutoff m → m ∈ messages st → m ∈ messages st')
  ∧ (∀ m, m ∈ messages st' →
          m ∈ messages st ∨ (sender_name m = "[compacted]" ∧ chat_jid m ∈ chats)).
Proof.
  revert k st. induction chats as [|c chats IH]; intros k st Hdated; simpl; [done|].
  destruct (compactChat c cutoff k st) as [st1|st1] eqn:Hone.
  - rewrite undisturbed_yield. intros Hrest.
    destruct (compactChat_Returned _ _ _ _ _ Hdated Hone)
      as (Hdated1 & Ht1 & He1 & _ & Hkeep1 & Hnew1).
    destruct (IH _ _ Hdated1 Hrest) as (Hfail & Ht & He & Hkeep & Hnew).
    split_and!; [done|congruence|congruence| |].
    + intros m Hm Hin. apply Hkeep; [done|]. by apply Hkeep1.
    + intros m Hin. apply Hnew in Hin as [Hin|[? ?]].
      * apply Hnew1 in Hin as [?|[? ?]]; [by left|]. right. split; [done|]. subst. by left.
      * right. split; [done|]. by right.
  - intros [= <-]. apply compactChat_Threw in Hone as [-> Hfail].
    split_and!; try done. auto.
Qed.

Lemma List_last_default {A} (l : list A) (d : A) : List.last l d = default d (last l).
Proof.
  induction l as [|x l IH]; [done|]. destruct l as [|y l]; [done|].
  rewrite last_cons_cons. simpl in *. rewrite IH.
  destruct (last (y :: l)) eqn:E; [done|]. by apply last_None in E.
Qed.

(** X29: what [compactChat] stores for a chat with old messages, when
    nothing else writes to the store during the call to the API: the
    messages that were not old, and one summary in place of the old ones.
    The summary is headed by the dates of the earliest and the latest message
    replaced and by their number, which is the number of messages deleted,
    followed by the text the API gave for the prompt; it carries the
    timestamp of the latest message replaced. *)
Theorem compactChat_summary
    (chatJid cutoff : string) (k : nat) (st st' : Store) (first : NewMessage)
    (rest : list NewMessage) :
  dated st →
  getOldMessages chatJid cutoff (messages st) = first :: rest →
  compactChat chatJid cutoff k st = Returned st' →
  let old := first :: rest in
  let newest := List.last old first in
  ∃ summary,
    (callClaude (compaction_prompt (timestamp first) (timestamp newest) old
                   (getCompactionSummaries chatJid (messages st))) st).1 = Some summary
    ∧ messages st'
      = filter (λ m, ¬ old_message chatJid cutoff m) (messages st)
        ++ [summary_row chatJid
              (summary_content (timestamp first) (timestamp newest) (length old) summary)
              (timestamp newest) (clock k)]
    ∧ length (messages st') + length old = length (messages st) + 1
    ∧ (∀ m, m ∈ old → Db.text_le (timestamp first) (timestamp m)
                      ∧ Db.text_le (timestamp m) (timestamp newest))
    ∧ (∀ m, m ∈ old ↔ m ∈ messages st ∧ old_message chatJid cutoff m).
Proof.
  intros Hdated Hold Hrun old newest.
  assert (last old = Some newest) as Hlast.
  { unfold newest. rewrite List_last_default.
    destruct (last old) eqn:E; [done|]. by apply last_None in E. }
  assert (StronglySorted by_timestamp old) as Hsorted.
  { unfold old. rewrite <- Hold. apply (StronglySorted_merge_sort _). }
  assert (old ≡ₚ filter (old_message chatJid cutoff) (messages st)) as Hperm.
  { unfold old. rewrite <- Hold. apply merge_sort_Permutation. }
  unfold Compaction.compactChat in Hrun. rewrite Hold in Hrun. fold old newest in Hrun.
  set (prompt := compaction_prompt _ _ _ _) in *.
  pose proof (undisturbed prompt st) as Hsame.
  destruct (callClaude prompt st) as [[summary|] st0]; simpl in Hsame; subst st0; [|done].
  destruct (compactOldMessages _ _ _ _ _ _ _) as [msgs'|] eqn:Hcompact; [|done].
  injection Hrun as <-. simpl. exists summary. split; [done|].
  assert (last (getOldMessages chatJid cutoff (messages st)) = Some newest) as Hmax
    by (by rewrite Hold).
  apply sql_max_newest in Hmax.
  apply compactOldMessages_cases in Hcompact
    as [[_ [Hnone|Hempty]]|(ts & Hts & Hsome & _ & ->)].
  { congruence. }
  { rewrite Hmax in Hempty. injection Hempty as Hempty.
    assert (newest ∈ messages st) as Hin.
    { apply last_Some_elem_of in Hlast. rewrite Hperm in Hlast.
      by apply list_elem_of_filter in Hlast as [_ ?]. }
    unfold dated in Hdated. rewrite Forall_forall in Hdated. by destruct (Hdated _ Hin). }
  rewrite Hmax in Hsome. injection Hsome as <-. split_and!.
  - done.
  - rewrite length_app. simpl.
    pose proof (Permutation_length Hperm) as Hlen. simpl in Hlen.
    pose proof (DbMore.filter_split_length (old_message chatJid cutoff) (messages st)). lia.
  - intros m Hm. split; [|by apply (sorted_last_max old)].
    apply elem_of_cons in Hm as [->|Hm]; [apply text_le_refl|].
    apply StronglySorted_cons in Hsorted as [Hall _].
    rewrite Forall_forall in Hall. by apply Hall.
  - intros m. rewrite Hperm, list_elem_of_filter. tauto.
Qed.


End WithEnvironment.

Lemma compactChat_summary_witness :
  Compaction.compactChat same_id_and_chat known_chat answering sampleClock
    "12345@g.us" "2026-01-15T00:00:00.000Z" 0 sampleStore = Returned sampleCompacted
  ∧ messages sampleCompacted
    = [sampleHello; sampleThanks;
       summary_row "12345@g.us"
         ("[Compacted: 2026-01-01 to 2026-01-01, 2 messages]" +:+ nl +:+ nl
          +:+ "They talked about dinner.")
         "2026-01-01T10:00:05.000Z" 1770000000000].
Proof.
  assert (Compaction.compactChat same_id_and_chat known_chat answering sampleClock
            "12345@g.us" "2026-01-15T00:00:00.000Z" 0 sampleStore = Returned sampleCompacted)
    as Hrun by (vm_compute; reflexivity).
  split; [exact Hrun|].
  destruct (compactChat_summary same_id_and_chat known_chat answering sampleClock
              (λ _ _, eq_refl) "12345@g.us" "2026-01-15T00:00:00.000Z" 0 sampleStore
              sampleCompacted sampleAsk [sampleReply])
    as (summary & Hcall & Hmsgs & _).
  - repeat constructor; discriminate.
  - vm_compute. reflexivity.
  - exact Hrun.
  - rewrite Hmsgs. injection Hcall as <-. vm_compute. reflexivity.
Defined.


End CompactionMore.
